(** * FFLottery: the weighted lottery engine and its combination generators

    A shallow embedding of [src/utils/nbaLottery.js], of
    [src/utils/combinations.js] and of [src/utils/teamUtils.js], with the
    properties of the sampling engine and of the combination counts stated
    and proved over it.

    Conventions of the embedding.
    - JavaScript numbers that the engine handles are integers (combination
      counts, pick numbers, positions), far below 2^53; they are modelled as
      [Z].  Where a fraction appears, the value of a double is a rational
      [Q].  In the draw and in the linear and exponential generators every
      operation that JavaScript rounds is rounded here as well, to the
      nearest double, ties to even ([Double.round]), and a result of 2^1024
      or more is an infinity ([Number.number]).  The percentages of
      [calculatePercentages] and [calculateWinPercentage] are kept as exact
      quotients.
    - [Math.random()] is an oracle: the [k]-th call of a run returns
      [random k], a number of the half-open interval from 0 to 1, taken as
      the double at it or next below it where the draw computes with it.
    - A thrown [Error] is a [Throw] result carrying which [throw] statement
      was reached.
    - The effects that a run has on the outside (the timer it awaits, the
      observer it calls) are recorded, in order, in the world's event log. *)

From Stdlib Require Import ZArith QArith Qround Qreduction List Lia Lqa Bool String Sorted.
From stdpp Require Import base gmap strings.
Import ListNotations.

Local Open Scope Z_scope.

(** ** Data *)

(** A team object as the engine sees it: the identifier used for removal, the
    combination count, and display payload carried through untouched. *)
Record Team : Type := mkTeam {
  userId : string;
  teamName : string;
  combinations : Z
}.

(** [{...selected, pickNumber, position}] *)
Record Selection : Type := mkSelection {
  selected_team : Team;
  pickNumber : Z;
  position : Z
}.

(** The four [throw] statements of [nbaLottery.js]. *)
Inductive Error : Type :=
| EmptyTeamsArray      (* 'Cannot select from empty teams array' *)
| ZeroTotalCombinations (* 'Total combinations cannot be zero' *)
| EmptyLottery         (* 'Cannot run lottery with empty teams array' *)
| InvalidTeamSelected. (* 'Invalid team selected during lottery' *)

Inductive result (A : Type) : Type :=
| Ok (a : A)
| Throw (e : Error).
Arguments Ok {A} a.
Arguments Throw {A} e.

(** What a run does to the outside world. *)
Inductive Event : Type :=
| SetTimeout (delay : Z)
| OnSelection (selected : Team) (displayPosition : Z) (pick : Z).

Record World : Type := mkWorld {
  randomCalls : nat;      (* how many times Math.random() has been called *)
  events : list Event     (* most recent first *)
}.

(** The second argument of [runNBALottery]: anything whose [typeof] is not
    ['function'] ([null], [undefined]) or an observer. *)
Inductive Callback : Type :=
| NotAFunction
| Observer.

Module LOTTERY.
Definition DEFAULT_DELAY_MS : Z := 1500.

Definition DEFAULT_COMBINATIONS : list Z :=
  [155; 140; 140; 125; 105; 90; 75; 60; 45; 30; 20; 15].

(** An entry of [COMBINATION_SETS]; [combinations] is [None] where the source
    has [null], and [lotteryOnly] is [false] where the source leaves it out. *)
Record CombinationSet : Type := mkCombinationSet {
  name : string;
  combinations : option (list Z);
  total : Z;
  lotteryOnly : bool
}.

Definition COMBINATION_SETS : gmap string CombinationSet :=
  list_to_map
    [ ("NBA_6_TEAMS",
       mkCombinationSet "NBA Style (6 Teams)"
         (Some [306; 245; 184; 122; 82; 61]) 1000 true);
      ("NBA_12_TEAMS",
       mkCombinationSet "NBA Style (12 Teams)"
         (Some [155; 140; 140; 125; 105; 90; 75; 60; 45; 30; 20; 15]) 1000 false);
      ("NBA_14_TEAMS",
       mkCombinationSet "NBA Style (14 Teams) - Official"
         (Some [140; 140; 140; 125; 105; 90; 75; 60; 45; 30; 20; 15; 10; 5]) 1000 false);
      ("EQUAL", mkCombinationSet "Equal Distribution" None 1000 false);
      ("LINEAR", mkCombinationSet "Linear Distribution" None 1000 false);
      ("EXPONENTIAL", mkCombinationSet "Exponential Distribution" None 1000 false);
      ("CUSTOM", mkCombinationSet "Custom" None 1000 false) ].
End LOTTERY.

(** ** The engine's effects

    A computation reads and extends the world and either returns a value or
    throws. *)

Definition ST (S A : Type) : Type := S -> S * result A.

Definition ret {S A} (a : A) : ST S A := fun s => (s, Ok a).
Definition throw {S A} (e : Error) : ST S A := fun s => (s, Throw e).
Definition bind {S A B} (m : ST S A) (k : A -> ST S B) : ST S B :=
  fun s => match m s with
           | (s', Ok a) => k a s'
           | (s', Throw e) => (s', Throw e)
           end.

(** The engine proper only touches the [World]. *)
Abbreviation M := (ST World).

Notation "x <- m ;; k" := (bind m (fun x => k))
  (at level 100, m at next level, right associativity).
Notation "m ;;; k" := (bind m (fun _ => k))
  (at level 100, right associativity).

(** [setTimeout(resolve, delay)], awaited. *)
Definition setTimeout (delay : Z) : M unit :=
  fun w => (mkWorld (randomCalls w) (SetTimeout delay :: events w), Ok tt).

(** [onSelection(selected, displayPosition, pickNumber)] *)
Definition notify (selected : Team) (displayPosition pick : Z) : M unit :=
  fun w => (mkWorld (randomCalls w)
                    (OnSelection selected displayPosition pick :: events w), Ok tt).

(** ** Double precision

    The finite doubles are the rationals [m * 2^e] with [|m| < 2^53] and
    [-1074 <= e]; multiplied by [2^1074] each of them is an integer.  A
    magnitude is placed on the grid of its binade: [ulp] is the distance of
    neighbouring doubles there, as a multiple of [2^-1074].  Overflow (a
    result of [2^1024] or more) is handled where it can occur. *)

Module Double.

Definition scale : Z := 2 ^ 1074.

(** The unit in the last place at the scaled magnitude [X]: 1 among the
    subnormals, [2^(e-52)] for [2^e <= X < 2^(e+1)] above them. *)
Definition ulp (X : Q) : Z := 2 ^ Z.max 0 (Z.log2 (Qfloor X) - 52).

(** The nearest integer, the even one of two that are equally near. *)
Definition nearestEven (q : Q) : Z :=
  let f := Qfloor q in
  match (q - inject_Z f ?= 1 # 2)%Q with
  | Lt => f
  | Gt => f + 1
  | Eq => if Z.even f then f else f + 1
  end.

(** A magnitude [x >= 0] moved to a point of the grid of its binade. *)
Definition onGrid (toInteger : Q -> Z) (x : Q) : Q :=
  let X := (x * inject_Z scale)%Q in
  let u := ulp X in
  (inject_Z (toInteger (X / inject_Z u)%Q * u) / inject_Z scale)%Q.

Definition signed (magnitude : Q -> Q) (x : Q) : Q :=
  if Qle_bool 0 x then magnitude x else (- magnitude (- x))%Q.

(** The double nearest to [x], ties to even: the result of an arithmetic
    operation whose exact result is [x]. *)
Definition round (x : Q) : Q := Qred (signed (onGrid nearestEven) x).

(** The double at [x] or next to it towards zero: a double is left as it
    is. *)
Definition truncate (x : Q) : Q := Qred (signed (onGrid Qfloor) x).

(** Half a unit in the last place, relative to the magnitude and, among the
    subnormals, absolute. *)
Definition epsilon : Q := 1 # 2 ^ 53.
Definition tiny : Q := (1 / inject_Z (2 * scale))%Q.

End Double.

(** ** combinations.js *)

(** [count || 0] on a number. *)
Definition or0 (count : Z) : Z := if count =? 0 then 0 else count.

(** [combinations.reduce((sum, count) => sum + (count || 0), 0)] *)
Definition calculateTotalCombinations (cs : list Z) : Z :=
  fold_left (fun sum count => sum + or0 count) cs 0.

(** ** nbaLottery.js: one draw *)

(** The [for (const team of teams)] loop of [selectWinnerByCombinations];
    [Some team] is the [return team] inside the loop, [None] is the loop
    running to its end. *)
Fixpoint walk (teams : list Team) (random cumulative : Z) : option Team :=
  match teams with
  | [] => None
  | team :: rest =>
      let c := or0 (combinations team) in
      if c <=? 0 then walk rest random cumulative
      else
        let cumulative' := cumulative + c in
        if random <=? cumulative' then Some team
        else walk rest random cumulative'
  end.

(** [Math.floor(u * totalCombinations) + 1] where [u] is the value returned by
    [Math.random()].  That value is a double and the product is the product
    of doubles, rounded: a number of the stream that is a double is taken as
    it is, any other stands for the double next below it. *)
Definition randomTicket (u : Q) (totalCombinations : Z) : Z :=
  Qfloor (Double.round (Double.truncate u * inject_Z totalCombinations)) + 1.

(** [teams.map(t => t.combinations || 0)] *)
Definition weights (teams : list Team) : list Z :=
  map (fun t => or0 (combinations t)) teams.

Section Engine.

(** The stream of values returned by [Math.random()]. *)
Variable random : nat -> Q.

Definition mathRandom : M Q :=
  fun w => (mkWorld (S (randomCalls w)) (events w), Ok (random (randomCalls w))).

Definition selectWinnerByCombinations (teams : list Team) : M Team :=
  match teams with
  | [] => throw EmptyTeamsArray
  | first :: _ =>
      let totalCombinations := calculateTotalCombinations (weights teams) in
      if totalCombinations =? 0 then throw ZeroTotalCombinations
      else
        u <- mathRandom ;;
        let random := randomTicket u totalCombinations in
        match walk teams random 0 with
        | Some team => ret team
        | None => ret (List.last teams first)   (* teams[teams.length - 1] *)
        end
  end.

(** ** nbaLottery.js: the run *)

(** [typeof delay !== 'number' || delay < 0] falls back to the default, as
    does the default parameter; [None] is a delay that is not a number. *)
Definition normalizeDelay (delay : option Z) : Z :=
  match delay with
  | None => LOTTERY.DEFAULT_DELAY_MS
  | Some d => if d <? 0 then LOTTERY.DEFAULT_DELAY_MS else d
  end.

(** [!selected.userId]: among strings only the empty one is falsy. *)
Definition falsy (s : string) : bool :=
  match s with EmptyString => true | _ => false end.

(** [availableTeams.filter(t => t.userId !== selected.userId)] *)
Definition removeSelected (availableTeams : list Team) (selected : Team) : list Team :=
  List.filter (fun t => negb (String.eqb (userId t) (userId selected))) availableTeams.

(** The [for] loop, with [remaining] iterations to go before
    [pickNumber <= totalTeams] fails.  [selections] is the array that
    [unshift] grows at the front. *)
Fixpoint lotteryLoop (remaining : nat) (pick totalTeams delay : Z)
    (onSelection : Callback) (availableTeams : list Team)
    (selections : list Selection) : M (list Selection) :=
  match remaining with
  | O => ret selections
  | S remaining' =>
      setTimeout delay ;;;
      selected <- selectWinnerByCombinations availableTeams ;;
      if falsy (userId selected) then throw InvalidTeamSelected
      else
        let availableTeams' := removeSelected availableTeams selected in
        let displayPosition := totalTeams - pick + 1 in
        let selection := mkSelection selected pick displayPosition in
        let selections' := selection :: selections in
        match onSelection with
        | Observer => notify selected displayPosition pick
        | NotAFunction => ret tt
        end ;;;
        lotteryLoop remaining' (pick + 1) totalTeams delay onSelection
                    availableTeams' selections'
  end.

Definition runNBALottery (teams : list Team) (onSelection : Callback)
    (delay : option Z) : M (list Selection) :=
  match teams with
  | [] => throw EmptyLottery
  | _ =>
      let delay := normalizeDelay delay in
      let totalTeams := Z.of_nat (List.length teams) in
      lotteryLoop (List.length teams) 1 totalTeams delay onSelection teams []
  end.

End Engine.

(** ** combinations.js: the generators

    [numTeams] is the length of the array to build. *)

(** [Math.round]: nearest integer, halves towards plus infinity. *)
Definition mathRound (x : Q) : Z := Qfloor (x + (1 # 2)).

(** [combinations[i]++] for [i] from [0] while [i < remainder].  The index
    stays inside the array whenever [numTeams >= 1] (see
    [equal_remainder_in_range]), so the out-of-range write of JavaScript,
    which [alter] does not perform, never happens there. *)
Fixpoint incrementFirst (count i : nat) (cs : list Z) : list Z :=
  match count with
  | O => cs
  | S count' => incrementFirst count' (S i) (alter Z.succ i cs)
  end.

Definition generateEqualCombinations (numTeams : nat) (total : Z) : list Z :=
  let base := total / Z.of_nat numTeams in           (* Math.floor(total / numTeams) *)
  let remainder := Z.rem total (Z.of_nat numTeams) in (* total % numTeams *)
  let combinations := repeat base numTeams in
  incrementFirst (Z.to_nat remainder) 0 combinations.

(** The linear and the exponential generator divide, multiply and round
    fractions, and the exponential one takes powers of two that leave the
    doubles: their arrays hold JavaScript numbers. *)
Module Number.

(** A JavaScript number: a finite double, by its value, or one of the three
    others.  The sign of a zero is not kept; it would only show in a division
    by zero, which counts every zero as positive here. *)
Inductive number : Type :=
| Finite (value : Q)
| PlusInfinity
| MinusInfinity
| NaN.

(** An integer held by a number; exact up to 2^53. *)
Definition ofZ (z : Z) : number := Finite (inject_Z z).

(** The result of an operation whose exact result is [x]: the nearest
    double, or an infinity when that is [2^1024] or more in magnitude. *)
Definition rounded (x : Q) : number :=
  let r := Double.round x in
  if Qle_bool (inject_Z (2 ^ 1024)) r then PlusInfinity
  else if Qle_bool r (- inject_Z (2 ^ 1024)) then MinusInfinity
  else Finite r.

Definition negate (a : number) : number :=
  match a with
  | Finite x => Finite (- x)
  | PlusInfinity => MinusInfinity
  | MinusInfinity => PlusInfinity
  | NaN => NaN
  end.

Definition add (a b : number) : number :=
  match a, b with
  | Finite x, Finite y => rounded (x + y)
  | NaN, _ | _, NaN => NaN
  | PlusInfinity, MinusInfinity | MinusInfinity, PlusInfinity => NaN
  | PlusInfinity, _ | _, PlusInfinity => PlusInfinity
  | MinusInfinity, _ | _, MinusInfinity => MinusInfinity
  end.

Definition sub (a b : number) : number := add a (negate b).

(** An infinity of the sign of [x]; a zero counts as positive. *)
Definition infinity (x : Q) : number :=
  if Qle_bool 0 x then PlusInfinity else MinusInfinity.

Definition mul (a b : number) : number :=
  match a, b with
  | Finite x, Finite y => rounded (x * y)
  | NaN, _ | _, NaN => NaN
  | Finite x, PlusInfinity | PlusInfinity, Finite x =>
      if Qeq_bool x 0 then NaN else infinity x
  | Finite x, MinusInfinity | MinusInfinity, Finite x =>
      if Qeq_bool x 0 then NaN else infinity (- x)
  | PlusInfinity, PlusInfinity | MinusInfinity, MinusInfinity => PlusInfinity
  | PlusInfinity, MinusInfinity | MinusInfinity, PlusInfinity => MinusInfinity
  end.

Definition div (a b : number) : number :=
  match a, b with
  | Finite x, Finite y =>
      if Qeq_bool y 0 then (if Qeq_bool x 0 then NaN else infinity x)
      else rounded (x / y)
  | NaN, _ | _, NaN => NaN
  | Finite _, PlusInfinity | Finite _, MinusInfinity => Finite 0
  | PlusInfinity, Finite y => infinity y
  | MinusInfinity, Finite y => negate (infinity y)
  | _, _ => NaN
  end.

(** [Math.pow(2, k)] for an integer [k >= 0]. *)
Definition pow2 (k : Z) : number :=
  if k <? 1024 then Finite (inject_Z (2 ^ k)) else PlusInfinity.

(** [Math.round] *)
Definition round (a : number) : number :=
  match a with
  | Finite x => ofZ (mathRound x)
  | _ => a
  end.

(** [count || 0]: zero and NaN are falsy. *)
Definition or0 (count : number) : number :=
  match count with
  | Finite x => if Qeq_bool x 0 then ofZ 0 else count
  | NaN => ofZ 0
  | _ => count
  end.

(** [difference !== 0] *)
Definition isNotZero (a : number) : bool :=
  match a with
  | Finite x => negb (Qeq_bool x 0)
  | _ => true
  end.

(** [calculateTotalCombinations] on an array that may hold any number. *)
Definition calculateTotalCombinations (cs : list number) : number :=
  fold_left (fun sum count => add sum (or0 count)) cs (ofZ 0).

(** [if (difference !== 0) combinations[0] += difference]; on an empty array
    [combinations[0]] is [undefined] and the sum stored is NaN. *)
Definition adjustFirst (cs : list number) (total : number) : list number :=
  let currentTotal := calculateTotalCombinations cs in
  let difference := sub total currentTotal in
  if isNotZero difference then
    match cs with
    | [] => [NaN]
    | c0 :: rest => add c0 difference :: rest
    end
  else cs.

End Number.

(** [sum] is a whole number, [n * (n + 1)] being even, and exact. *)
Definition generateLinearCombinations (numTeams : nat) (total : Z)
    : list Number.number :=
  let n := Z.of_nat numTeams in
  let sum := (n * (n + 1)) / 2 in
  let combinations :=
    map (fun i : nat =>
           let shares := n - Z.of_nat i in
           Number.round
             (Number.mul (Number.div (Number.ofZ shares) (Number.ofZ sum))
                         (Number.ofZ total)))
        (seq 0 numTeams) in
  Number.adjustFirst combinations (Number.ofZ total).

Definition generateExponentialCombinations (numTeams : nat) (total : Z)
    : list Number.number :=
  let n := Z.of_nat numTeams in
  (* first loop: the weights and their sum *)
  let weightsPow :=
    map (fun i : nat => Number.pow2 (n - Z.of_nat i - 1)) (seq 0 numTeams) in
  let sum := fold_left Number.add weightsPow (Number.ofZ 0) in
  (* second loop: scale to total *)
  let combinations :=
    map (fun weight =>
           Number.round (Number.mul (Number.div weight sum) (Number.ofZ total)))
        weightsPow in
  Number.adjustFirst combinations (Number.ofZ total).

(** ** combinations.js: tables, percentages and validation *)

(** The loop [extended.push(Math.max(1, Math.floor(last * 0.8)))], run
    [remaining] times, where [last] is [extended[extended.length - 1]].  The
    tables it extends are never empty; on an empty array JavaScript would push
    a NaN, which is outside this model ([0] stands for the missing element). *)
Fixpoint extendCombinations (remaining : nat) (extended : list Z) : list Z :=
  match remaining with
  | O => extended
  | S remaining' =>
      let last := List.last extended 0 in
      extendCombinations remaining'
        (extended ++ [Z.max 1 (Qfloor (inject_Z last * (8 # 10)))])
  end.

(** [table.slice(0, numTeams)] when the table is long enough, the extended
    table otherwise: the body shared by [getDefaultCombinations] and the
    fixed sets of [getCombinationSet]. *)
Definition sliceOrExtend (table : list Z) (numTeams : nat) : list Z :=
  if (numTeams <=? List.length table)%nat then firstn numTeams table
  else extendCombinations (numTeams - List.length table) table.

Definition getDefaultCombinations (numTeams : nat) : list Z :=
  sliceOrExtend LOTTERY.DEFAULT_COMBINATIONS numTeams.

(** [calculatePercentages]; the quotient is an exact rational. *)
Definition calculatePercentages (cs : list Z) : list Q :=
  let total := calculateTotalCombinations cs in
  if total =? 0 then map (fun _ => 0%Q) cs
  else map (fun count => (inject_Z (or0 count) / inject_Z total * 100)%Q) cs.

(** [{ isValid, error }] *)
Record ValidationResult : Type := mkValidation {
  isValid : bool;
  error : option string
}.

(** [validateCombinations] on an array of integers: the two tests that only
    something else than an array of numbers can fail ([Array.isArray] and
    [typeof count !== 'number']) are decided by the type. *)
Definition validateCombinations (cs : list Z) : ValidationResult :=
  match cs with
  | [] => mkValidation false (Some "At least one team required")
  | _ =>
      if existsb (fun count => count <? 0) cs
      then mkValidation false
             (Some "All combination values must be non-negative numbers")
      else if calculateTotalCombinations cs =? 0
      then mkValidation false (Some "Total combinations cannot be zero")
      else mkValidation true None
  end.

(** [getCombinationSet].  A key that [COMBINATION_SETS] does not have yields
    [undefined], or, for the names that every object inherits, something
    without [combinations] that no [case] matches: both end in
    [getDefaultCombinations], as [None] does here. *)
Definition getCombinationSet (setKey : string) (numTeams : nat)
    : list Number.number :=
  match LOTTERY.COMBINATION_SETS !! setKey with
  | None => map Number.ofZ (getDefaultCombinations numTeams)
  | Some set =>
      match LOTTERY.combinations set with
      | Some table => map Number.ofZ (sliceOrExtend table numTeams)
      | None =>
          if String.eqb setKey "EQUAL"
          then map Number.ofZ (generateEqualCombinations numTeams (LOTTERY.total set))
          else if String.eqb setKey "LINEAR"
          then generateLinearCombinations numTeams (LOTTERY.total set)
          else if String.eqb setKey "EXPONENTIAL"
          then generateExponentialCombinations numTeams (LOTTERY.total set)
          else map Number.ofZ (getDefaultCombinations numTeams)
      end
  end.

(** ** teamUtils.js *)

Module TeamUtils.

(** A team as the provider delivers it, before any combination is attached. *)
Record LeagueTeam : Type := mkLeagueTeam {
  userId : string;
  wins : Z;
  losses : Z;
  ties : Z;
  pointsFor : Q
}.

Definition calculateWinPercentage (team : LeagueTeam) : Q :=
  let totalGames := wins team + losses team + ties team in
  if 0 <? totalGames then (inject_Z (wins team) / inject_Z totalGames)%Q else 0%Q.

(** [x || 0] on a number that may be a fraction. *)
Definition orZero (x : Q) : Q := if Qeq_bool x 0 then 0%Q else x.

(** The comparator of [sortTeamsByRecord]. *)
Definition compareWorstFirst (a b : LeagueTeam) : Q :=
  let winPctA := calculateWinPercentage a in
  let winPctB := calculateWinPercentage b in
  if negb (Qeq_bool winPctA winPctB) then (winPctA - winPctB)%Q
  else (orZero (pointsFor a) - orZero (pointsFor b))%Q.

(** The comparator of [sortTeamsByRecordBestFirst]. *)
Definition compareBestFirst (a b : LeagueTeam) : Q :=
  let winPctA := calculateWinPercentage a in
  let winPctB := calculateWinPercentage b in
  if negb (Qeq_bool winPctA winPctB) then (winPctB - winPctA)%Q
  else (orZero (pointsFor b) - orZero (pointsFor a))%Q.

(** [Array.prototype.sort] is stable: elements that compare equal keep their
    order.  For a comparator that orders the elements consistently the
    result is the one stable sorted arrangement, computed here by inserting
    each element in front of the sorted rest, before the first element it
    does not come after. *)
Fixpoint insertSorted {A} (compare : A -> A -> Q) (x : A) (sorted : list A) : list A :=
  match sorted with
  | [] => [x]
  | y :: rest =>
      if Qle_bool (compare x y) 0 then x :: y :: rest
      else y :: insertSorted compare x rest
  end.

Definition arraySort {A} (compare : A -> A -> Q) (array : list A) : list A :=
  fold_right (insertSorted compare) [] array.

Definition sortTeamsByRecord (teams : list LeagueTeam) : list LeagueTeam :=
  arraySort compareWorstFirst teams.

Definition sortTeamsByRecordBestFirst (teams : list LeagueTeam) : list LeagueTeam :=
  arraySort compareBestFirst teams.

Record PlayoffAndLottery : Type := mkPlayoffAndLottery {
  playoffTeams : list LeagueTeam;
  lotteryTeams : list LeagueTeam
}.

(** [determinePlayoffAndLotteryTeams], for an array [teams] and a number of
    spots that is a count: [slice(0, k)] is [firstn k] and [slice(k)] is
    [skipn k]. *)
Definition determinePlayoffAndLotteryTeams (teams : list LeagueTeam)
    (playoffSpots : nat) : PlayoffAndLottery :=
  match teams with
  | [] => mkPlayoffAndLottery [] []
  | _ =>
      let sortedBestFirst := sortTeamsByRecordBestFirst teams in
      let playoffTeams := firstn playoffSpots sortedBestFirst in
      let lotteryTeams := skipn playoffSpots sortedBestFirst in
      let sortedLotteryTeams := sortTeamsByRecord lotteryTeams in
      mkPlayoffAndLottery playoffTeams sortedLotteryTeams
  end.

(** The private copy of [getDefaultCombinations] in [teamUtils.js], with its
    own literal table. *)
Definition getDefaultCombinations (numTeams : nat) : list Z :=
  let default12 := [155; 140; 140; 125; 105; 90; 75; 60; 45; 30; 20; 15] in
  sliceOrExtend default12 numTeams.

(** [defaultCombos[index] || 1] *)
Definition comboOrOne (defaultCombos : list Z) (index : nat) : Z :=
  match nth_error defaultCombos index with
  | Some v => if v =? 0 then 1 else v
  | None => 1
  end.

(** [object[key] = value] on an object created by [{}], for a [value] that
    is a number.  The map holds the properties of the object itself.  Under
    the key ['__proto__'] the assignment reaches the setter that every such
    object inherits, which ignores a number: nothing is stored.  Under any
    other key it creates the property or replaces its value. *)
Definition setProperty {V} (key : string) (value : V) (object : gmap string V)
    : gmap string V :=
  if String.eqb key "__proto__" then object else <[key := value]> object.

(** The [forEach] of [initializeDefaultCombinations], from [index] on. *)
Fixpoint assignCombinations (defaultCombos : list Z) (index : nat)
    (sortedTeams : list LeagueTeam) (combinations : gmap string Z) : gmap string Z :=
  match sortedTeams with
  | [] => combinations
  | team :: rest =>
      assignCombinations defaultCombos (S index) rest
        (setProperty (userId team) (comboOrOne defaultCombos index) combinations)
  end.

Definition initializeDefaultCombinations (teams : list LeagueTeam) : gmap string Z :=
  let sortedTeams := sortTeamsByRecord teams in
  let defaultCombos := getDefaultCombinations (List.length sortedTeams) in
  assignCombinations defaultCombos 0 sortedTeams ∅.

End TeamUtils.

(** ** LotteryResults.jsx and SelectionAnimation.jsx: the label of a record *)

Section Labels.

(** How a template literal prints a number. *)
Variable show : Z -> string.

(** [getPositionLabel]; [pickNumber] is [None] for [null] and [undefined]. *)
Definition getPositionLabel (position total : Z) (pickNumber : option Z) : string :=
  match pickNumber with
  | Some pickNumber =>
      if pickNumber =? 1 then "🏆 Pick #1"
      else String.append "Pick #" (show pickNumber)
  | None =>
      if position =? total then "🏆 Pick #1"
      else if position =? 1 then String.append "Pick #" (show total)
      else
        let calculatedPickNumber := total - position + 1 in
        String.append "Pick #" (show calculatedPickNumber)
  end.

(** [getPositionColor] *)
Definition getPositionColor (position total : Z) : string :=
  if position =? total then "success"
  else if position =? 1 then "error"
  else "default".

End Labels.

(** ** The engine over a store of shared objects

    JavaScript passes arrays and objects by reference.  To state what the
    engine does to the objects of its caller, the same two functions are
    embedded a second time over an explicit store: every array and object
    lives at a location, [[...teams]], [filter] and an object literal allocate,
    and [unshift] writes to the array it is called on.  The observer is code
    of the caller; it is recorded in the event log as before. *)

Module Store.

Definition loc : Type := positive.

Inductive obj : Type :=
| OTeam (t : Team)
| OArray (elems : list loc)
| OSelection (s : Selection).

Record store : Type := mkStore {
  heap : gmap loc obj;
  world : World
}.

Abbreviation SM := (ST store).

Definition liftWorld {A} (m : M A) : SM A :=
  fun st => let (w', r) := m (world st) in (mkStore (heap st) w', r).

(** A fresh array or object. *)
Definition alloc (o : obj) : SM loc :=
  fun st => let l := fresh (dom (heap st)) in
            (mkStore (<[l := o]> (heap st)) (world st), Ok l).

Definition write (l : loc) (o : obj) : SM unit :=
  fun st => (mkStore (<[l := o]> (heap st)) (world st), Ok tt).

Definition getHeap : SM (gmap loc obj) := fun st => (st, Ok (heap st)).

(** The fields the engine reads from whatever a reference points to.  An
    object without them yields [undefined] for both: a falsy [userId], and
    [combinations || 0] equal to [0]. *)
Definition readTeam (h : gmap loc obj) (l : loc) : Team :=
  match h !! l with
  | Some (OTeam t) => t
  | _ => mkTeam EmptyString EmptyString 0
  end.

(** [Array.isArray(x)] together with the elements. *)
Definition readArray (h : gmap loc obj) (l : loc) : option (list loc) :=
  match h !! l with
  | Some (OArray elems) => Some elems
  | _ => None
  end.

Fixpoint walk (h : gmap loc obj) (teams : list loc) (random cumulative : Z)
    : option loc :=
  match teams with
  | [] => None
  | team :: rest =>
      let c := or0 (combinations (readTeam h team)) in
      if c <=? 0 then walk h rest random cumulative
      else
        let cumulative' := cumulative + c in
        if random <=? cumulative' then Some team
        else walk h rest random cumulative'
  end.

Section Engine.

Variable random : nat -> Q.

Definition selectWinnerByCombinations (teams : loc) : SM loc :=
  h <- getHeap ;;
  match readArray h teams with
  | None | Some [] => throw EmptyTeamsArray
  | Some (first :: rest) =>
      let elems := first :: rest in
      let totalCombinations :=
        calculateTotalCombinations
          (map (fun l => or0 (combinations (readTeam h l))) elems) in
      if totalCombinations =? 0 then throw ZeroTotalCombinations
      else
        u <- liftWorld (mathRandom random) ;;
        let random := randomTicket u totalCombinations in
        match walk h elems random 0 with
        | Some team => ret team
        | None => ret (List.last elems first)
        end
  end.

(** [selections.unshift(selection)] *)
Definition unshift (array : loc) (x : loc) : SM unit :=
  h <- getHeap ;;
  match readArray h array with
  | Some elems => write array (OArray (x :: elems))
  | None => ret tt
  end.

(** [availableTeams.filter(t => t.userId !== selected.userId)], a new
    array. *)
Definition removeSelected (availableTeams selected : loc) : SM loc :=
  h <- getHeap ;;
  let sid := userId (readTeam h selected) in
  match readArray h availableTeams with
  | Some elems =>
      alloc (OArray (List.filter
                       (fun l => negb (String.eqb (userId (readTeam h l)) sid))
                       elems))
  | None => alloc (OArray [])
  end.

Fixpoint lotteryLoop (remaining : nat) (pick totalTeams delay : Z)
    (onSelection : Callback) (availableTeams selections : loc) : SM loc :=
  match remaining with
  | O => ret selections
  | S remaining' =>
      liftWorld (setTimeout delay) ;;;
      selected <- selectWinnerByCombinations availableTeams ;;
      h <- getHeap ;;
      if falsy (userId (readTeam h selected)) then throw InvalidTeamSelected
      else
        availableTeams' <- removeSelected availableTeams selected ;;
        let displayPosition := totalTeams - pick + 1 in
        selection <- alloc (OSelection
                              (mkSelection (readTeam h selected) pick displayPosition)) ;;
        unshift selections selection ;;;
        match onSelection with
        | Observer =>
            liftWorld (notify (readTeam h selected) displayPosition pick)
        | NotAFunction => ret tt
        end ;;;
        lotteryLoop remaining' (pick + 1) totalTeams delay onSelection
                    availableTeams' selections
  end.

Definition runNBALottery (teams : loc) (onSelection : Callback)
    (delay : option Z) : SM loc :=
  h <- getHeap ;;
  match readArray h teams with
  | None | Some [] => throw EmptyLottery
  | Some elems =>
      let delay := normalizeDelay delay in
      selections <- alloc (OArray []) ;;
      let totalTeams := Z.of_nat (List.length elems) in
      availableTeams <- alloc (OArray elems) ;;
      lotteryLoop (List.length elems) 1 totalTeams delay onSelection
                  availableTeams selections
  end.

End Engine.

(** The invariant of a run over the store, for the caller's heap [h0] and the
    array [selections] that the run builds: every object of [h0] is where it
    was, [selections] is not one of them, and it is an array whose elements
    are not among them either. *)
Definition runInvariant (h0 : gmap loc obj) (selections : loc) (st : store) : Prop :=
  h0 ⊆ heap st /\
  h0 !! selections = None /\
  exists elems, heap st !! selections = Some (OArray elems) /\
                Forall (fun x => h0 !! x = None) elems.

(** How a store during a run, started from the caller's heap [h0], stands
    for the values of the engine over values: the array of available teams
    holds references of [h0] to the teams [teams], and the array of
    selections holds references to the records [records]. *)
Definition represents (h0 : gmap loc obj) (st : store)
    (availableTeams : loc) (teams : list Team)
    (selections : loc) (records : list Selection) : Prop :=
  runInvariant h0 selections st /\
  (exists elems, readArray (heap st) availableTeams = Some elems /\
                 Forall (fun l => is_Some (h0 !! l)) elems /\
                 map (readTeam h0) elems = teams) /\
  (exists elems, readArray (heap st) selections = Some elems /\
                 Forall2 (fun x s => heap st !! x = Some (OSelection s)) elems records).

(** A returned reference denotes the records [records]. *)
Definition denotes (h : gmap loc obj) (r : loc) (records : list Selection) : Prop :=
  exists elems, readArray h r = Some elems /\
                Forall2 (fun x s => h !! x = Some (OSelection s)) elems records.

End Store.

(** ** Vocabulary of the statements *)

Definition sumZ (l : list Z) : Z := fold_right Z.add 0 l.

(** The calls that the observer received, oldest first, each as the triple of
    its first, second and third argument. *)
Fixpoint observerCalls (evs : list Event) : list (Team * Z * Z) :=
  match evs with
  | [] => []
  | OnSelection t a2 a3 :: older => observerCalls older ++ [(t, a2, a3)]
  | SetTimeout _ :: older => observerCalls older
  end.

(** The call that the observer receives for a record. *)
Definition callOf (s : Selection) : Team * Z * Z :=
  (selected_team s, position s, pickNumber s).

Definition positiveCall (c : Team * Z * Z) : Prop := 0 < combinations (fst (fst c)).

(** The world before a run, and a world after one more call of
    [Math.random()]. *)
Definition initialWorld : World := mkWorld 0 [].
Definition afterRandom (w : World) : World :=
  mkWorld (S (randomCalls w)) (events w).

(** The draw as the specification words it: the total of the positive
    weights, and the first entity, in the order of the pool, at which the
    running sum of the weights reaches the ticket. *)
Module Spec.

Definition total (pool : list Team) : Z :=
  sumZ (map combinations (List.filter (fun e => 0 <? combinations e) pool)).

(** The running sum of the weights after the first [k] entities. *)
Definition cumulative (pool : list Team) (k : nat) : Z :=
  sumZ (map combinations (firstn k pool)).


End Spec.

(** What the generators promise: [numTeams] counts, none negative, that sum
    to [total]. *)
Definition exactDistribution (cs : list Z) (numTeams : nat) (total : Z) : Prop :=
  List.length cs = numTeams /\
  Forall (fun c => 0 <= c) cs /\
  sumZ cs = total.

(** The share [k] of a total [T] over the sum of shares [D], rounded as
    [Math.round] rounds the exact quotient, and twice the scaled rounding
    residue it leaves. *)
Definition roundedShare (T D k : Z) : Z := (2 * k * T + D) / (2 * D).
Definition roundingResidue (T D k : Z) : Z := 2 * k * T - 2 * D * roundedShare T D k.




(** The events of a run in the order in which they happened. *)
Definition chronological (w : World) : list Event := rev (events w).

(** What a run does around the draw recorded in [s]. *)
Definition timerThenCall (delay : Z) (cb : Callback) (s : Selection) : list Event :=
  SetTimeout delay ::
  match cb with
  | Observer => [OnSelection (selected_team s) (position s) (pickNumber s)]
  | NotAFunction => []
  end.

Definition sumQ (l : list Q) : Q := fold_right Qplus 0%Q l.

(** [a] is placed no later than [b] by [sortTeamsByRecord]: a lower win
    percentage, or the same one and no more points. *)
Definition worseOrEqual (a b : TeamUtils.LeagueTeam) : Prop :=
  (TeamUtils.calculateWinPercentage a < TeamUtils.calculateWinPercentage b)%Q \/
  ((TeamUtils.calculateWinPercentage a == TeamUtils.calculateWinPercentage b)%Q /\
   (TeamUtils.orZero (TeamUtils.pointsFor a)
    <= TeamUtils.orZero (TeamUtils.pointsFor b))%Q).

(** Counts that never grow from one seed to the next. *)
Definition nonIncreasing (l : list Z) : Prop :=
  StronglySorted (fun a b => b <= a) l.

(** Well-formedness of what the callers hand to the engine. *)
Definition nonNegativeWeights (teams : list Team) : Prop :=
  Forall (fun t => 0 <= combinations t) teams.
Definition positiveWeights (teams : list Team) : Prop :=
  Forall (fun t => 0 < combinations t) teams.
Definition uniqueIds (teams : list Team) : Prop :=
  List.NoDup (map userId teams).
Definition truthyIds (teams : list Team) : Prop :=
  Forall (fun t => userId t <> EmptyString) teams.
Definition unitInterval (random : nat -> Q) : Prop :=
  forall k, (0 <= random k)%Q /\ (random k < 1)%Q.

(** * Properties *)

(** ** Sums *)

Lemma or0_id c : or0 c = c.
Proof. unfold or0. destruct (Z.eqb_spec c 0); lia. Qed.

Lemma fold_total_acc cs : forall acc,
  fold_left (fun sum count => sum + or0 count) cs acc = acc + sumZ cs.
Proof.
  induction cs as [|c cs IH]; intros acc; simpl.
  - lia.
  - rewrite IH, or0_id. lia.
Qed.

Lemma calculateTotalCombinations_sum cs : calculateTotalCombinations cs = sumZ cs.
Proof. unfold calculateTotalCombinations. rewrite fold_total_acc. lia. Qed.

Lemma weights_combinations teams : weights teams = map combinations teams.
Proof.
  unfold weights. apply map_ext. intros t. apply or0_id.
Qed.

Lemma sumZ_app l1 l2 : sumZ (l1 ++ l2) = sumZ l1 + sumZ l2.
Proof. induction l1; simpl; lia. Qed.

Lemma total_cons_pos t pool : 0 < combinations t ->
  Spec.total (t :: pool) = combinations t + Spec.total pool.
Proof.
  intros H. unfold Spec.total. simpl.
  destruct (Z.ltb_spec 0 (combinations t)); [reflexivity | lia].
Qed.

Lemma total_cons_nonpos t pool : combinations t <= 0 ->
  Spec.total (t :: pool) = Spec.total pool.
Proof.
  intros H. unfold Spec.total. simpl.
  destruct (Z.ltb_spec 0 (combinations t)); [lia | reflexivity].
Qed.

Lemma total_nonneg pool : 0 <= Spec.total pool.
Proof.
  induction pool as [|t pool IH]; [unfold Spec.total; simpl; lia|].
  destruct (Z.lt_ge_cases 0 (combinations t)).
  - rewrite total_cons_pos by assumption. lia.
  - rewrite total_cons_nonpos by assumption. lia.
Qed.

(** The sum the code computes never exceeds the sum of the positive weights,
    and equals it when no weight is negative. *)
Lemma sum_le_total pool : sumZ (map combinations pool) <= Spec.total pool.
Proof.
  induction pool as [|t pool IH]; [unfold Spec.total; simpl; lia|].
  simpl. destruct (Z.lt_ge_cases 0 (combinations t)).
  - rewrite total_cons_pos by assumption. lia.
  - rewrite total_cons_nonpos by assumption. lia.
Qed.

Lemma sum_eq_total pool : nonNegativeWeights pool ->
  sumZ (map combinations pool) = Spec.total pool.
Proof.
  induction 1 as [|t pool Ht _ IH]; [reflexivity|].
  simpl. destruct (Z.eq_dec (combinations t) 0).
  - rewrite total_cons_nonpos by lia. lia.
  - rewrite total_cons_pos by lia. lia.
Qed.

Lemma total_pos_exists pool :
  Exists (fun t => 0 < combinations t) pool -> 0 < Spec.total pool.
Proof.
  induction 1 as [t pool Ht | t pool _ IH].
  - rewrite total_cons_pos by assumption. pose proof (total_nonneg pool). lia.
  - destruct (Z.lt_ge_cases 0 (combinations t)).
    + rewrite total_cons_pos by assumption. lia.
    + rewrite total_cons_nonpos by assumption. lia.
Qed.

(** ** Rounding to double precision *)

Lemma nearestEven_floor (q : Q) :
  Qfloor q <= Double.nearestEven q <= Qfloor q + 1.
Proof.
  unfold Double.nearestEven. cbv zeta.
  destruct (q - inject_Z (Qfloor q) ?= 1 # 2)%Q; [destruct (Z.even _)|..]; lia.
Qed.

Lemma nearestEven_bounds (q : Q) :
  (q - (1 # 2) <= inject_Z (Double.nearestEven q) <= q + (1 # 2))%Q.
Proof.
  unfold Double.nearestEven. cbv zeta.
  pose proof (Qfloor_le q) as Hlo. pose proof (Qlt_floor q) as Hhi.
  rewrite inject_Z_plus in Hhi. change (inject_Z 1) with 1%Q in Hhi.
  destruct (Qcompare_spec (q - inject_Z (Qfloor q)) (1 # 2)) as [E|L|G].
  - destruct (Z.even _);
      [|rewrite inject_Z_plus; change (inject_Z 1) with 1%Q]; split; lra.
  - split; lra.
  - rewrite inject_Z_plus. change (inject_Z 1) with 1%Q. split; lra.
Qed.

Lemma nearestEven_comp (p q : Q) : (p == q)%Q -> Double.nearestEven p = Double.nearestEven q.
Proof.
  intros E. unfold Double.nearestEven. cbv zeta.
  rewrite (Qfloor_comp p q E).
  assert (E' : (p - inject_Z (Qfloor q) == q - inject_Z (Qfloor q))%Q) by (rewrite E; reflexivity).
  rewrite (Qcompare_comp _ _ E' (1 # 2) (1 # 2) (Qeq_refl _)). reflexivity.
Qed.

Lemma nearestEven_Z (z : Z) : Double.nearestEven (inject_Z z) = z.
Proof.
  unfold Double.nearestEven. cbv zeta. rewrite Qfloor_Z.
  destruct (Qcompare_spec (inject_Z z - inject_Z z) (1 # 2)) as [E|L|G];
    [exfalso; lra | reflexivity | exfalso; lra].
Qed.

Lemma nearestEven_mono (p q : Q) :
  (p <= q)%Q -> Double.nearestEven p <= Double.nearestEven q.
Proof.
  intros Hle. pose proof (Qfloor_resp_le _ _ Hle) as Hf.
  pose proof (nearestEven_floor p) as Hp. pose proof (nearestEven_floor q) as Hq.
  destruct (Z.eq_dec (Qfloor p) (Qfloor q)) as [E|NE]; [|lia].
  unfold Double.nearestEven in *. cbv zeta in *. rewrite E in *.
  destruct (Qcompare_spec (p - inject_Z (Qfloor q)) (1 # 2)) as [E1|L1|G1];
    destruct (Qcompare_spec (q - inject_Z (Qfloor q)) (1 # 2)) as [E2|L2|G2];
    try lia; try (exfalso; lra).
Qed.

(** The unit in the last place of a scaled magnitude. *)
Lemma ulp_spec (X : Q) :
  (0 <= X)%Q ->
  0 < Double.ulp X /\
  (Double.ulp X = 1 \/ (inject_Z (Double.ulp X * 2 ^ 52) <= X)%Q) /\
  (X < inject_Z (Double.ulp X * 2 ^ 53))%Q.
Proof.
  intros HX. unfold Double.ulp.
  assert (Hf : 0 <= Qfloor X).
  { change 0 with (Qfloor 0). now apply Qfloor_resp_le. }
  pose proof (Qfloor_le X) as Hlo. pose proof (Qlt_floor X) as Hhi.
  set (f := Qfloor X) in *. set (L := Z.log2 f).
  assert (HL : 0 <= L) by apply Z.log2_nonneg.
  assert (Hup : f + 1 <= 2 ^ (L + 1)).
  { destruct (Z.eq_dec f 0) as [->|Hne].
    - subst L. simpl. lia.
    - pose proof (Z.log2_spec f ltac:(lia)) as [_ H]. fold L in H.
      change (Z.succ L) with (L + 1) in H. lia. }
  destruct (Z.max_spec 0 (L - 52)) as [[Hcmp ->]|[Hcmp ->]].
  - split; [apply Z.pow_pos_nonneg; lia|]. split.
    + right. rewrite <- Z.pow_add_r by lia. replace (L - 52 + 52) with L by lia.
      assert (Hne : 0 < f).
      { destruct (Z.eq_dec f 0) as [E|E]; [|lia].
        subst L. rewrite E in Hcmp. simpl in Hcmp. lia. }
      pose proof (Z.log2_spec f Hne) as [H _]. fold L in H.
      eapply Qle_trans; [|exact Hlo]. rewrite <- Zle_Qle. exact H.
    + rewrite <- Z.pow_add_r by lia. replace (L - 52 + 53) with (L + 1) by lia.
      eapply Qlt_le_trans; [exact Hhi|]. rewrite <- Zle_Qle. exact Hup.
  - split; [reflexivity|]. split; [now left|].
    eapply Qlt_le_trans; [exact Hhi|]. rewrite <- Zle_Qle.
    rewrite Z.pow_0_r, Z.mul_1_l.
    etransitivity; [exact Hup|]. apply Z.pow_le_mono_r; lia.
Qed.

(** Placing a magnitude on the grid of its binade moves it by at most half
    a unit in the last place when the nearest point is taken, and by less
    than a unit, downwards, when the point below is taken. *)
Lemma onGrid_nearest (x : Q) :
  (0 <= x)%Q ->
  let X := (x * inject_Z Double.scale)%Q in
  let u := inject_Z (Double.ulp X) in
  (0 <= Double.onGrid Double.nearestEven x)%Q /\
  (Double.onGrid Double.nearestEven x * inject_Z Double.scale <= X + u * (1 # 2))%Q /\
  (X - u * (1 # 2) <= Double.onGrid Double.nearestEven x * inject_Z Double.scale)%Q.
Proof.
  intros Hx X u. unfold Double.onGrid. fold X. cbv zeta.
  assert (HS : (0 < inject_Z Double.scale)%Q).
  { change 0%Q with (inject_Z 0). rewrite <- Zlt_Qlt. reflexivity. }
  assert (HX : (0 <= X)%Q) by (unfold X; nra).
  destruct (ulp_spec X HX) as (Hu & _ & _).
  assert (Hu' : (0 < u)%Q).
  { unfold u. change 0%Q with (inject_Z 0). now rewrite <- Zlt_Qlt. }
  fold u.
  pose proof (nearestEven_bounds (X / u)) as [Hlo Hhi].
  set (n := Double.nearestEven (X / u)) in *.
  rewrite inject_Z_mult. fold u.
  assert (Hn : 0 <= n).
  { unfold n. rewrite <- (nearestEven_Z 0). apply nearestEven_mono.
    change (inject_Z 0) with 0%Q. apply Qle_shift_div_l; [exact Hu' | lra]. }
  assert (Hn' : (0 <= inject_Z n)%Q).
  { change 0%Q with (inject_Z 0). now rewrite <- Zle_Qle. }
  assert (Hm : (X / u * u == X)%Q) by (field; lra).
  assert (E : (inject_Z n * u / inject_Z Double.scale * inject_Z Double.scale
               == inject_Z n * u)%Q) by (field; lra).
  split; [|split].
  - apply Qle_shift_div_l; [exact HS|]. nra.
  - rewrite E. nra.
  - rewrite E. nra.
Qed.

Lemma scale_positive : (0 < inject_Z Double.scale)%Q.
Proof. change 0%Q with (inject_Z 0). rewrite <- Zlt_Qlt. reflexivity. Qed.

Lemma round_magnitude (x : Q) :
  (0 <= x)%Q -> (Double.round x == Double.onGrid Double.nearestEven x)%Q.
Proof.
  intros Hx. unfold Double.round, Double.signed. rewrite Qred_correct.
  destruct (Qle_bool 0 x) eqn:E; [reflexivity|].
  apply Qle_bool_iff in Hx. congruence.
Qed.

Lemma truncate_magnitude (x : Q) :
  (0 <= x)%Q -> (Double.truncate x == Double.onGrid Qfloor x)%Q.
Proof.
  intros Hx. unfold Double.truncate, Double.signed. rewrite Qred_correct.
  destruct (Qle_bool 0 x) eqn:E; [reflexivity|].
  apply Qle_bool_iff in Hx. congruence.
Qed.

(** The rounded value of a magnitude: not negative, and within [tiny] of the
    magnitude or within the fraction [epsilon] of it. *)
Lemma round_near (x : Q) :
  (0 <= x)%Q ->
  (0 <= Double.round x)%Q /\
  ((x - Double.tiny <= Double.round x)%Q /\ (Double.round x <= x + Double.tiny)%Q \/
   (x - Double.epsilon * x <= Double.round x)%Q /\
   (Double.round x <= x + Double.epsilon * x)%Q).
Proof.
  intros Hx. rewrite (round_magnitude x Hx).
  destruct (onGrid_nearest x Hx) as (H0 & Hhi & Hlo). cbv zeta in Hhi, Hlo.
  pose proof scale_positive as HS.
  set (R := Double.onGrid Double.nearestEven x) in *.
  set (X := (x * inject_Z Double.scale)%Q) in *.
  assert (HX : (0 <= X)%Q) by (unfold X; nra).
  destruct (ulp_spec X HX) as (Hu & Hsmall & _).
  split; [exact H0|]. destruct Hsmall as [E|Hle].
  - left. rewrite E in Hhi, Hlo. change (inject_Z 1) with 1%Q in Hhi, Hlo.
    assert (Ht : (Double.tiny * inject_Z Double.scale == 1 # 2)%Q) by reflexivity.
    unfold X in Hhi, Hlo. split; nra.
  - right. rewrite inject_Z_mult in Hle.
    assert (He : (Double.epsilon * inject_Z (2 ^ 52) == 1 # 2)%Q) by reflexivity.
    set (u := inject_Z (Double.ulp X)) in *. set (c := inject_Z (2 ^ 52)) in *.
    assert (Hc : (0 < c)%Q) by reflexivity.
    assert (Hu2 : (u * (1 # 2) <= Double.epsilon * X)%Q).
    { assert (E : (u * (1 # 2) == Double.epsilon * (u * c))%Q) by (rewrite <- He; ring).
      rewrite E. apply Qmult_le_l; [reflexivity | exact Hle]. }
    unfold X in *. split; nra.
Qed.

Lemma epsilon_facts :
  (0 < Double.epsilon)%Q /\ (Double.epsilon < 1)%Q /\ (0 < Double.tiny)%Q /\
  (Double.tiny < Double.epsilon)%Q.
Proof. repeat split. Qed.

Lemma round_upper (x : Q) :
  (0 <= x)%Q ->
  (0 <= Double.round x)%Q /\
  (Double.round x <= x + Double.epsilon * x + Double.tiny)%Q.
Proof.
  intros Hx. destruct (round_near x Hx) as (H0 & Hnear).
  destruct epsilon_facts as (He & _ & Ht & _).
  split; [exact H0|]. destruct Hnear as [[_ H]|[_ H]]; nra.
Qed.

Lemma round_lower (x : Q) :
  (1 <= x)%Q -> (x - Double.epsilon * x <= Double.round x)%Q.
Proof.
  intros Hx. destruct (round_near x ltac:(lra)) as (_ & Hnear).
  destruct epsilon_facts as (He & _ & Ht & Hte).
  destruct Hnear as [[H _]|[H _]]; nra.
Qed.

(** A number of the unit interval, held as a double, stays a whole unit in
    the last place below 1. *)
Lemma truncate_unit (u : Q) :
  (0 <= u)%Q -> (u < 1)%Q ->
  (0 <= Double.truncate u)%Q /\ (Double.truncate u <= 1 - Double.epsilon)%Q.
Proof.
  intros H0 H1. rewrite (truncate_magnitude u H0). unfold Double.onGrid.
  pose proof scale_positive as HS.
  set (X := (u * inject_Z Double.scale)%Q). cbv zeta.
  assert (HX : (0 <= X)%Q) by (unfold X; nra).
  assert (HXS : (X < inject_Z Double.scale)%Q) by (unfold X; nra).
  destruct (ulp_spec X HX) as (Hu & _ & Hbig).
  set (g := Double.ulp X) in *.
  assert (Hg : (0 < inject_Z g)%Q).
  { change 0%Q with (inject_Z 0). now rewrite <- Zlt_Qlt. }
  set (n := Qfloor (X / inject_Z g)).
  assert (Hn0 : 0 <= n).
  { unfold n. change 0 with (Qfloor 0). apply Qfloor_resp_le.
    apply Qle_shift_div_l; [exact Hg | lra]. }
  assert (HnX : (inject_Z (n * g) <= X)%Q).
  { rewrite inject_Z_mult. pose proof (Qfloor_le (X / inject_Z g)) as H. fold n in H.
    assert (E : (X / inject_Z g * inject_Z g == X)%Q) by (field; lra).
    rewrite <- E. nra. }
  assert (Hbound : n * g <= 2 ^ 1074 - 2 ^ 1021).
  { destruct (Qlt_le_dec X (inject_Z (2 ^ 1073))) as [Hlow|Hhigh].
    - assert (H : (inject_Z (n * g) < inject_Z (2 ^ 1073))%Q) by lra.
      rewrite <- Zlt_Qlt in H.
      assert (2 ^ 1073 <= 2 ^ 1074 - 2 ^ 1021) by (vm_compute; discriminate).
      lia.
    - assert (Hf : Z.log2 (Qfloor X) = 1073).
      { apply Z.log2_unique; [lia|]. split.
        - rewrite <- (Qfloor_Z (2 ^ 1073)). now apply Qfloor_resp_le.
        - change (2 ^ (1073 + 1)) with Double.scale.
          rewrite Zlt_Qlt. eapply Qle_lt_trans; [apply Qfloor_le | exact HXS]. }
      assert (Eg : g = 2 ^ 1021).
      { unfold g, Double.ulp. rewrite Hf. reflexivity. }
      assert (Hn : n < 2 ^ 53).
      { unfold n. rewrite Zlt_Qlt. eapply Qle_lt_trans; [apply Qfloor_le|].
        apply Qlt_shift_div_r; [exact Hg|].
        rewrite <- inject_Z_mult. rewrite Z.mul_comm. exact Hbig. }
      rewrite Eg. replace (2 ^ 1074 - 2 ^ 1021) with ((2 ^ 53 - 1) * 2 ^ 1021)
        by (vm_compute; reflexivity).
      apply Z.mul_le_mono_nonneg_r; [vm_compute; discriminate | lia]. }
  split.
  - apply Qle_shift_div_l; [exact HS|]. rewrite Qmult_0_l.
    change 0%Q with (inject_Z 0). rewrite <- Zle_Qle.
    apply Z.mul_nonneg_nonneg; lia.
  - apply Qle_shift_div_r; [exact HS|].
    rewrite Zle_Qle in Hbound.
    assert (E : ((1 - Double.epsilon) * inject_Z Double.scale
                 == inject_Z (2 ^ 1074 - 2 ^ 1021))%Q) by reflexivity.
    rewrite E. exact Hbound.
Qed.

Lemma round_zero (x : Q) : (x == 0)%Q -> (Double.round x == 0)%Q.
Proof.
  intros E. assert (Hx : (0 <= x)%Q) by lra.
  rewrite (round_magnitude x Hx). unfold Double.onGrid. cbv zeta.
  assert (EX : (x * inject_Z Double.scale == 0)%Q) by (rewrite E; ring).
  assert (Eu : Double.ulp (x * inject_Z Double.scale) = 1).
  { unfold Double.ulp. now rewrite (Qfloor_comp _ _ EX). }
  rewrite Eu.
  assert (En : Double.nearestEven (x * inject_Z Double.scale / inject_Z 1) = 0).
  { rewrite <- (nearestEven_Z 0). apply nearestEven_comp.
    rewrite EX. reflexivity. }
  rewrite En. reflexivity.
Qed.

Lemma round_nonpositive (x : Q) : (x <= 0)%Q -> (Double.round x <= 0)%Q.
Proof.
  intros Hx. destruct (Qlt_le_dec x 0) as [Hneg|Hpos].
  - unfold Double.round, Double.signed. rewrite Qred_correct.
    destruct (Qle_bool 0 x) eqn:E.
    + apply Qle_bool_iff in E. lra.
    + destruct (onGrid_nearest (- x) ltac:(lra)) as (H & _). lra.
  - rewrite round_zero; lra.
Qed.

(** Below 2 ^ 53 every integer lies on the grid, so rounding does not carry
    a magnitude across an integer. *)
Lemma ulp_divides_scale (X : Q) :
  (0 <= X)%Q -> (X < inject_Z (2 ^ 53 * Double.scale))%Q ->
  exists c, 0 < c /\ Double.scale = c * Double.ulp X.
Proof.
  intros HX Hlt. unfold Double.ulp.
  assert (Hf : 0 <= Qfloor X).
  { change 0 with (Qfloor 0). now apply Qfloor_resp_le. }
  set (E := Z.max 0 (Z.log2 (Qfloor X) - 52)).
  assert (HE : 0 <= E <= 1074).
  { split; [apply Z.le_max_l|]. apply Z.max_lub; [lia|].
    destruct (Z.eq_dec (Qfloor X) 0) as [->|Hne]; [simpl; lia|].
    assert (Hlog : Z.log2 (Qfloor X) < 1127); [|lia].
    apply Z.log2_lt_pow2; [lia|].
    rewrite Zlt_Qlt. eapply Qle_lt_trans; [apply Qfloor_le|].
    replace (2 ^ 1127) with (2 ^ 53 * Double.scale) by (vm_compute; reflexivity).
    exact Hlt. }
  exists (2 ^ (1074 - E)). split; [apply Z.pow_pos_nonneg; lia|].
  rewrite <- Z.pow_add_r by lia. unfold Double.scale. f_equal. lia.
Qed.

Lemma round_keeps_integers (x : Q) (k : Z) :
  (0 <= x)%Q -> (x < inject_Z (2 ^ 53))%Q ->
  ((inject_Z k <= x)%Q -> (inject_Z k <= Double.round x)%Q) /\
  ((x <= inject_Z k)%Q -> (Double.round x <= inject_Z k)%Q).
Proof.
  intros Hx Hlt. rewrite (round_magnitude x Hx). unfold Double.onGrid. cbv zeta.
  pose proof scale_positive as HS.
  set (X := (x * inject_Z Double.scale)%Q).
  assert (HX : (0 <= X)%Q) by (unfold X; nra).
  assert (HXlt : (X < inject_Z (2 ^ 53 * Double.scale))%Q).
  { rewrite inject_Z_mult. unfold X. nra. }
  destruct (ulp_spec X HX) as (Hu & _ & _).
  destruct (ulp_divides_scale X HX HXlt) as (c & Hc & Hscale).
  set (g := Double.ulp X) in *.
  assert (Hg : (0 < inject_Z g)%Q).
  { change 0%Q with (inject_Z 0). now rewrite <- Zlt_Qlt. }
  assert (Hcq : (0 < inject_Z c)%Q).
  { change 0%Q with (inject_Z 0). now rewrite <- Zlt_Qlt. }
  assert (ES : (inject_Z Double.scale == inject_Z c * inject_Z g)%Q).
  { rewrite Hscale, inject_Z_mult. reflexivity. }
  assert (Ek : (inject_Z (k * c) == inject_Z k * inject_Z c)%Q)
    by (rewrite inject_Z_mult; reflexivity).
  assert (Eback : forall n, (inject_Z (n * g) / inject_Z Double.scale
                             == inject_Z n / inject_Z c)%Q).
  { intros n. rewrite inject_Z_mult, ES. field. split; lra. }
  rewrite Eback. split; intros Hk.
  - assert (Hle : k * c <= Double.nearestEven (X / inject_Z g)).
    { rewrite <- (nearestEven_Z (k * c)). apply nearestEven_mono.
      apply Qle_shift_div_l; [exact Hg|]. rewrite Ek. unfold X. rewrite ES. nra. }
    apply Qle_shift_div_l; [exact Hcq|]. rewrite <- Ek. now rewrite <- Zle_Qle.
  - assert (Hle : Double.nearestEven (X / inject_Z g) <= k * c).
    { rewrite <- (nearestEven_Z (k * c)). apply nearestEven_mono.
      apply Qle_shift_div_r; [exact Hg|]. rewrite Ek. unfold X. rewrite ES. nra. }
    apply Qle_shift_div_r; [exact Hcq|]. rewrite <- Ek. now rewrite <- Zle_Qle.
Qed.

(** ** The ticket *)

Lemma inject_Z_pos (z : Z) : 0 < z -> (0 < inject_Z z)%Q.
Proof. intros H. change (inject_Z 0 < inject_Z z)%Q. rewrite <- Zlt_Qlt. exact H. Qed.

Lemma ticket_range u total :
  (0 <= u)%Q -> (u < 1)%Q -> 0 < total ->
  1 <= randomTicket u total <= total.
Proof.
  intros H0 H1 Ht. unfold randomTicket.
  destruct (truncate_unit u H0 H1) as [Hd0 Hd1].
  set (d := Double.truncate u) in *.
  assert (HT : (1 <= inject_Z total)%Q).
  { change 1%Q with (inject_Z 1). rewrite <- Zle_Qle. lia. }
  assert (Hx : (0 <= d * inject_Z total)%Q) by nra.
  destruct (round_near _ Hx) as (Hr0 & Hnear).
  destruct epsilon_facts as (He0 & He1 & Ht0 & Hte).
  set (e := Double.epsilon) in *. set (t := Double.tiny) in *.
  set (T := inject_Z total) in *.
  set (r := Double.round (d * T)) in *.
  assert (Hlt : (r < T)%Q).
  { assert (HdT : (d * T <= (1 - e) * T)%Q) by nra.
    assert (HeT : (e <= e * T)%Q) by nra.
    destruct Hnear as [[_ Hhi]|[_ Hhi]]; [lra|].
    assert (Hed : (e * (d * T) <= e * ((1 - e) * T))%Q) by nra.
    assert (Hee : (0 < e * (e * T))%Q) by nra.
    lra. }
  assert (0 <= Qfloor r).
  { change 0 with (Qfloor 0). now apply Qfloor_resp_le. }
  assert (Qfloor r < total).
  { rewrite Zlt_Qlt. eapply Qle_lt_trans; [apply Qfloor_le | exact Hlt]. }
  lia.
Qed.

Lemma ticket_at_most_one u total :
  (0 <= u)%Q -> total <= 0 -> randomTicket u total <= 1.
Proof.
  intros H0 Ht. unfold randomTicket.
  assert (Hd : (0 <= Double.truncate u)%Q).
  { rewrite (truncate_magnitude u H0). unfold Double.onGrid. cbv zeta.
    pose proof scale_positive as HS.
    set (X := (u * inject_Z Double.scale)%Q).
    assert (HX : (0 <= X)%Q) by (unfold X; nra).
    destruct (ulp_spec X HX) as (Hu & _ & _).
    apply Qle_shift_div_l; [exact HS|]. rewrite Qmult_0_l.
    change 0%Q with (inject_Z 0). rewrite <- Zle_Qle.
    apply Z.mul_nonneg_nonneg; [|lia].
    change 0 with (Qfloor 0). apply Qfloor_resp_le.
    apply Qle_shift_div_l; [|lra].
    change 0%Q with (inject_Z 0). now rewrite <- Zlt_Qlt. }
  assert (HT : (inject_Z total <= 0)%Q).
  { change 0%Q with (inject_Z 0). now rewrite <- Zle_Qle. }
  assert (Hx : (Double.truncate u * inject_Z total <= 0)%Q) by nra.
  pose proof (round_nonpositive _ Hx) as Hr.
  assert (Qfloor (Double.round (Double.truncate u * inject_Z total)) <= 0); [|lia].
  change 0 with (Qfloor 0). now apply Qfloor_resp_le.
Qed.



(** ** The cumulative walk *)

Lemma walk_some_positive teams : forall r c t,
  walk teams r c = Some t -> In t teams /\ 0 < combinations t.
Proof.
  induction teams as [|x teams IH]; intros r c t; simpl; [discriminate|].
  rewrite or0_id.
  destruct (Z.leb_spec (combinations x) 0) as [Hx|Hx].
  - intros H. apply IH in H. tauto.
  - destruct (Z.leb_spec r (c + combinations x)) as [Hr|Hr].
    + intros [= <-]. split; [now left | exact Hx].
    + intros H. apply IH in H. tauto.
Qed.

(** The walk returns inside the loop as soon as the ticket does not exceed
    what the positive weights add up to. *)
Lemma walk_reaches teams : forall r c,
  0 < Spec.total teams -> r <= c + Spec.total teams ->
  exists t, walk teams r c = Some t.
Proof.
  induction teams as [|x teams IH]; intros r c Hpos Hr; simpl.
  - unfold Spec.total in Hpos. simpl in Hpos. lia.
  - rewrite or0_id.
    destruct (Z.leb_spec (combinations x) 0) as [Hx|Hx].
    + rewrite total_cons_nonpos in Hpos, Hr by exact Hx. now apply IH.
    + rewrite total_cons_pos in Hr by exact Hx.
      destruct (Z.leb_spec r (c + combinations x)); [eauto|].
      apply IH; lia.
Qed.



(** ** One draw *)

Lemma last_cons_default {A} (l : list A) : forall x d d',
  List.last (x :: l) d = List.last (x :: l) d'.
Proof.
  induction l as [|y l IH]; intros x d d'; [reflexivity|].
  change (List.last (y :: l) d = List.last (y :: l) d'). apply IH.
Qed.

Lemma last_In {A} (l : list A) : forall x d, In (List.last (x :: l) d) (x :: l).
Proof.
  induction l as [|y l IH]; intros x d; [now left|].
  right. change (In (List.last (y :: l) d) (y :: l)). apply IH.
Qed.

Section DrawFacts.

Variable random : nat -> Q.

Lemma select_empty w :
  selectWinnerByCombinations random [] w = (w, Throw EmptyTeamsArray).
Proof. reflexivity. Qed.

Lemma select_zero_total teams w :
  teams <> [] -> sumZ (map combinations teams) = 0 ->
  selectWinnerByCombinations random teams w = (w, Throw ZeroTotalCombinations).
Proof.
  intros Hne Hsum. destruct teams as [|x teams]; [congruence|].
  unfold selectWinnerByCombinations.
  rewrite calculateTotalCombinations_sum, weights_combinations, Hsum.
  reflexivity.
Qed.

(** What a draw that passes both guards returns. *)
Lemma select_nonzero_total teams w :
  sumZ (map combinations teams) <> 0 ->
  selectWinnerByCombinations random teams w =
  (afterRandom w,
   Ok (match walk teams (randomTicket (random (randomCalls w))
                                      (sumZ (map combinations teams))) 0 with
       | Some team => team
       | None => List.last teams (mkTeam EmptyString EmptyString 0)
       end)).
Proof.
  intros Hsum. destruct teams as [|x teams]; [simpl in Hsum; lia|].
  unfold selectWinnerByCombinations.
  rewrite calculateTotalCombinations_sum, weights_combinations.
  destruct (Z.eqb_spec (sumZ (map combinations (x :: teams))) 0) as [E|_]; [lia|].
  unfold bind, mathRandom, ret, afterRandom.
  destruct (walk (x :: teams) _ 0); [reflexivity|].
  f_equal. f_equal. apply last_cons_default.
Qed.

(** With a positive weight in the pool and a total that is not zero, the
    draw returns inside the loop, whatever the other weights are. *)
Lemma select_walks teams w :
  unitInterval random ->
  Exists (fun t => 0 < combinations t) teams ->
  sumZ (map combinations teams) <> 0 ->
  exists t, walk teams (randomTicket (random (randomCalls w))
                                     (sumZ (map combinations teams))) 0 = Some t.
Proof.
  intros Hu Hex Hsum.
  pose proof (total_pos_exists teams Hex) as Hpos.
  pose proof (sum_le_total teams) as Hle.
  destruct (Hu (randomCalls w)) as [H0 H1].
  apply walk_reaches; [exact Hpos|].
  destruct (Z.lt_ge_cases 0 (sumZ (map combinations teams))) as [Hs|Hs].
  - pose proof (ticket_range _ _ H0 H1 Hs). lia.
  - pose proof (ticket_at_most_one (random (randomCalls w)) _ H0 Hs). lia.
Qed.

End DrawFacts.

(** ** A pool of one entity (C1) *)

Section SingleEntity.

Variable random : nat -> Q.

Lemma walk_single t r :
  match walk [t] r 0 with Some team => team | None => t end = t.
Proof.
  simpl. destruct (or0 (combinations t) <=? 0); [reflexivity|].
  destruct (r <=? 0 + or0 (combinations t)); reflexivity.
Qed.

Lemma select_single_nonzero t w :
  combinations t <> 0 ->
  selectWinnerByCombinations random [t] w = (afterRandom w, Ok t).
Proof.
  intros Hc. rewrite select_nonzero_total by (simpl; lia).
  f_equal. f_equal.
  change (List.last [t] _) with t. apply walk_single.
Qed.

Lemma select_single_zero t w :
  combinations t = 0 ->
  selectWinnerByCombinations random [t] w = (w, Throw ZeroTotalCombinations).
Proof.
  intros Hc. apply select_zero_total; [discriminate | simpl; lia].
Qed.

Lemma falsy_false s : s <> EmptyString -> falsy s = false.
Proof. destruct s; [congruence | reflexivity]. Qed.

End SingleEntity.

(** C1, as the code has it: a draw from a pool of one entity returns that
    entity when its weight is not zero and throws 'Total combinations cannot
    be zero' when its weight is zero; accordingly a run over a single entity
    with a non-empty identifier returns the one record with pick number 1 and
    position 1 when the weight is not zero, and throws that error, returning no
    record, when the weight is zero. *)
Theorem single_entity_draw_and_run (random : nat -> Q) (t : Team)
    (onSelection : Callback) (delay : option Z) (w : World) :
  (combinations t <> 0 ->
     selectWinnerByCombinations random [t] w = (afterRandom w, Ok t) /\
     (userId t <> EmptyString ->
      snd (runNBALottery random [t] onSelection delay w) = Ok [mkSelection t 1 1])) /\
  (combinations t = 0 ->
     selectWinnerByCombinations random [t] w = (w, Throw ZeroTotalCombinations) /\
     snd (runNBALottery random [t] onSelection delay w) = Throw ZeroTotalCombinations).
Proof.
  split; intros Hc.
  - split; [now apply select_single_nonzero|].
    intros Hid. unfold runNBALottery. cbn [List.length lotteryLoop].
    unfold bind at 1. unfold setTimeout at 1.
    unfold bind at 1. rewrite select_single_nonzero by exact Hc.
    rewrite falsy_false by exact Hid.
    unfold bind. destruct onSelection; reflexivity.
  - split; [now apply select_single_zero|].
    unfold runNBALottery. cbn [List.length lotteryLoop].
    unfold bind at 1. unfold setTimeout at 1.
    unfold bind at 1. rewrite select_single_zero by exact Hc. reflexivity.
Qed.

Lemma single_entity_draw_and_run_witness :
  snd (runNBALottery (fun _ => 0%Q) [mkTeam "u1" "Team 1" 7] Observer (Some 0) initialWorld)
    = Ok [mkSelection (mkTeam "u1" "Team 1" 7) 1 1] /\
  snd (runNBALottery (fun _ => 0%Q) [mkTeam "u1" "Team 1" 0] Observer (Some 0) initialWorld)
    = Throw ZeroTotalCombinations.
Proof.
  split.
  - apply (single_entity_draw_and_run (fun _ => 0%Q) (mkTeam "u1" "Team 1" 7)
             Observer (Some 0) initialWorld); simpl; [lia | discriminate].
  - apply (single_entity_draw_and_run (fun _ => 0%Q) (mkTeam "u1" "Team 1" 0)
             Observer (Some 0) initialWorld); reflexivity.
Defined.

(** C1 as stated fails: a single entity of weight 0 makes both the draw and
    the run throw, and no record is returned. *)
Lemma single_zero_weight_entity_throws :
  let t := mkTeam "u1" "Team 1" 0 in
  snd (selectWinnerByCombinations (fun _ => 0%Q) [t] initialWorld)
    = Throw ZeroTotalCombinations /\
  snd (runNBALottery (fun _ => 0%Q) [t] NotAFunction (Some 0) initialWorld)
    = Throw ZeroTotalCombinations /\
  snd (runNBALottery (fun _ => 0%Q) [t] NotAFunction (Some 0) initialWorld)
    <> Ok [mkSelection t 1 1].
Proof. repeat split. discriminate. Qed.

(** ** Zero-weight exclusion (C2) *)

Section Exclusion.

Variable random : nat -> Q.
Hypothesis random_unit : unitInterval random.

(** A draw never returns an entity of weight 0 or less while the pool holds
    an entity of positive weight. *)
Lemma select_positive teams w w' t :
  Exists (fun x => 0 < combinations x) teams ->
  selectWinnerByCombinations random teams w = (w', Ok t) ->
  In t teams /\ 0 < combinations t.
Proof.
  intros Hex Hsel.
  destruct (Z.eq_dec (sumZ (map combinations teams)) 0) as [E|E].
  - rewrite select_zero_total in Hsel; [discriminate | | exact E].
    intros ->. inversion Hex.
  - rewrite select_nonzero_total in Hsel by exact E.
    destruct (select_walks random teams w random_unit Hex E) as [x Hx].
    rewrite Hx in Hsel. injection Hsel as _ <-.
    eapply walk_some_positive; exact Hx.
Qed.

(** On weights that are not negative, a positive weight in the pool makes
    the draw succeed. *)
Lemma select_succeeds teams w :
  nonNegativeWeights teams ->
  Exists (fun x => 0 < combinations x) teams ->
  exists t, selectWinnerByCombinations random teams w = (afterRandom w, Ok t) /\
            walk teams (randomTicket (random (randomCalls w))
                                     (sumZ (map combinations teams))) 0 = Some t.
Proof.
  intros Hnn Hex.
  pose proof (total_pos_exists teams Hex) as Hpos.
  rewrite <- sum_eq_total in Hpos by exact Hnn.
  rewrite select_nonzero_total by lia.
  destruct (select_walks random teams w random_unit Hex ltac:(lia)) as [x Hx].
  exists x. rewrite Hx. split; reflexivity.
Qed.

(** Any draw that succeeds on non-negative weights returns an entity of
    positive weight. *)
Lemma select_ok_positive teams w w' t :
  nonNegativeWeights teams ->
  selectWinnerByCombinations random teams w = (w', Ok t) ->
  In t teams /\ 0 < combinations t.
Proof.
  intros Hnn Hsel.
  destruct (Z.eq_dec (sumZ (map combinations teams)) 0) as [E|E].
  - destruct teams as [|x teams]; [discriminate|].
    rewrite select_zero_total in Hsel; [discriminate | discriminate | exact E].
  - apply (select_positive teams w w' t); [|exact Hsel].
    rewrite sum_eq_total in E by exact Hnn.
    pose proof (total_nonneg teams) as H0.
    assert (Hpos : 0 < Spec.total teams) by lia.
    clear - Hpos. induction teams as [|x teams IH].
    + unfold Spec.total in Hpos. simpl in Hpos. lia.
    + destruct (Z.lt_ge_cases 0 (combinations x)) as [Hx|Hx].
      * now left.
      * right. apply IH. now rewrite total_cons_nonpos in Hpos.
Qed.

Lemma removeSelected_nonneg teams t :
  nonNegativeWeights teams -> nonNegativeWeights (removeSelected teams t).
Proof.
  unfold nonNegativeWeights, removeSelected. rewrite !List.Forall_forall.
  intros H x Hx. apply List.filter_In in Hx. apply H. tauto.
Qed.

(** Through a whole run, failed or not, the observer only ever receives
    entities of positive weight. *)
Lemma loop_calls_positive remaining :
  forall pick totalTeams delay cb avail sels w,
    nonNegativeWeights avail ->
    Forall positiveCall (observerCalls (events w)) ->
    Forall positiveCall
      (observerCalls
         (events (fst (lotteryLoop random remaining pick totalTeams delay cb
                                   avail sels w)))).
Proof.
  induction remaining as [|n IH]; intros pick totalTeams delay cb avail sels w Hnn Hw.
  - exact Hw.
  - cbn [lotteryLoop]. unfold bind at 1. unfold setTimeout at 1.
    unfold bind at 1.
    destruct (selectWinnerByCombinations random avail _) as [w1 [t|e]] eqn:Hsel.
    + pose proof (select_ok_positive _ _ _ _ Hnn Hsel) as [Hin Hpos].
      assert (Hev : events w1 = SetTimeout delay :: events w).
      { destruct (Z.eq_dec (sumZ (map combinations avail)) 0) as [E|E].
        - destruct avail; [discriminate|].
          rewrite select_zero_total in Hsel by (assumption || discriminate).
          discriminate.
        - rewrite select_nonzero_total in Hsel by exact E.
          injection Hsel as <- _. reflexivity. }
      destruct (falsy (userId t)).
      * unfold throw. simpl. rewrite Hev. exact Hw.
      * unfold bind at 1.
        destruct cb; unfold ret, notify; apply IH;
          try (apply removeSelected_nonneg; exact Hnn);
          cbn [events observerCalls]; rewrite Hev; cbn [observerCalls];
          [exact Hw|].
        apply Forall_app. split; [exact Hw|].
        constructor; [exact Hpos | constructor].
    + simpl.
      destruct (Z.eq_dec (sumZ (map combinations avail)) 0) as [E|E].
      * destruct avail as [|x avail].
        -- rewrite select_empty in Hsel. injection Hsel as <- _. exact Hw.
        -- rewrite select_zero_total in Hsel by (assumption || discriminate).
           injection Hsel as <- _. exact Hw.
      * rewrite select_nonzero_total in Hsel by exact E. discriminate.
Qed.

End Exclusion.

(** C2: while the pool holds an entity of positive weight, a draw that
    returns an entity returns one of positive weight, never one of weight 0,
    and on non-negative weights such a draw does return; on non-negative
    weights no draw at all returns an entity of weight 0, and through a whole
    run every entity handed to the observer has positive weight, so an entity
    of weight 0 is never drawn while anything else remains. *)
Theorem zero_weight_never_selected (random : nat -> Q) (teams : list Team) (w : World) :
  unitInterval random ->
  (Exists (fun x => 0 < combinations x) teams ->
     (forall w' t, selectWinnerByCombinations random teams w = (w', Ok t) ->
                   In t teams /\ 0 < combinations t) /\
     (nonNegativeWeights teams ->
      exists t, selectWinnerByCombinations random teams w = (afterRandom w, Ok t) /\
                In t teams /\ 0 < combinations t)) /\
  (nonNegativeWeights teams ->
     (forall w' t, selectWinnerByCombinations random teams w = (w', Ok t) ->
                   combinations t <> 0) /\
     forall cb delay,
       Forall (fun c => 0 < combinations (fst (fst c)))
         (observerCalls
            (events (fst (runNBALottery random teams cb delay initialWorld))))).
Proof.
  intros Hu. split.
  - intros Hex. split.
    + intros w' t Hsel. eapply select_positive; eassumption.
    + intros Hnn. destruct (select_succeeds random Hu teams w Hnn Hex) as (t & Hsel & Hwalk).
      exists t. split; [exact Hsel|]. eapply walk_some_positive; exact Hwalk.
  - intros Hnn. split.
    + intros w' t Hsel.
      destruct (select_ok_positive random Hu teams w w' t Hnn Hsel) as [_ Hpos]. lia.
    + intros cb delay. unfold runNBALottery.
      destruct teams as [|x teams]; [constructor|].
      apply (loop_calls_positive random Hu); [exact Hnn | constructor].
Qed.

Lemma zero_weight_never_selected_witness :
  let teams := [mkTeam "z" "Zero" 0; mkTeam "p" "Positive" 4] in
  exists t, selectWinnerByCombinations (fun _ => 0%Q) teams initialWorld
              = (afterRandom initialWorld, Ok t) /\
            In t teams /\ 0 < combinations t.
Proof.
  apply (zero_weight_never_selected (fun _ => 0%Q)
           [mkTeam "z" "Zero" 0; mkTeam "p" "Positive" 4] initialWorld).
  - intros k. split; [discriminate | reflexivity].
  - right. left. simpl. lia.
  - repeat constructor; simpl; lia.
Defined.

(** ** The draw against its description (C4, C10) *)



(** At Math.random() = 0.7, the double just below 7/10, and a total of 10
    the product of the doubles is 7 where the exact product is below 7: the
    ticket is 8 and the draw from the weights 7 and 3 returns the second
    entity. *)
Lemma ticket_of_a_product_that_rounds_up :
  let seven_tenths := (3152519739159347 # 4503599627370496)%Q in
  Double.truncate seven_tenths = seven_tenths /\
  Qfloor (seven_tenths * inject_Z 10) + 1 = 7 /\
  randomTicket seven_tenths 10 = 8 /\
  selectWinnerByCombinations (fun _ => seven_tenths)
    [mkTeam "a" "A" 7; mkTeam "b" "B" 3] initialWorld
  = (afterRandom initialWorld, Ok (mkTeam "b" "B" 3)).
Proof. cbv zeta. repeat split; vm_compute; reflexivity. Qed.

(** C10: with non-negative weights whose positive part sums to more than 0,
    the loop of selectWinnerByCombinations returns an entity before it ends,
    so the statement after the loop, which returns the last element, is not
    reached. *)
Theorem fallback_unreachable (random : nat -> Q) (teams : list Team) (w : World) :
  unitInterval random ->
  nonNegativeWeights teams ->
  0 < Spec.total teams ->
  exists t,
    walk teams (randomTicket (random (randomCalls w))
                             (calculateTotalCombinations (weights teams))) 0 = Some t /\
    selectWinnerByCombinations random teams w = (afterRandom w, Ok t).
Proof.
  intros Hu Hnn Hpos.
  rewrite calculateTotalCombinations_sum, weights_combinations.
  assert (Hsum : 0 < sumZ (map combinations teams))
    by (rewrite sum_eq_total; assumption).
  destruct (Hu (randomCalls w)) as [H0 H1].
  pose proof (ticket_range _ _ H0 H1 Hsum) as Hr.
  destruct (walk_reaches teams
              (randomTicket (random (randomCalls w)) (sumZ (map combinations teams))) 0
              Hpos) as [t Ht].
  { rewrite <- sum_eq_total by exact Hnn. lia. }
  exists t. split; [exact Ht|].
  rewrite select_nonzero_total by lia. now rewrite Ht.
Qed.

Lemma fallback_unreachable_witness :
  let teams := [mkTeam "a" "A" 0; mkTeam "b" "B" 3; mkTeam "c" "C" 0] in
  exists t,
    walk teams (randomTicket (99 # 100) (calculateTotalCombinations (weights teams))) 0
      = Some t /\
    selectWinnerByCombinations (fun _ => 99 # 100) teams initialWorld
      = (afterRandom initialWorld, Ok t).
Proof.
  apply (fallback_unreachable (fun _ => 99 # 100)
           [mkTeam "a" "A" 0; mkTeam "b" "B" 3; mkTeam "c" "C" 0] initialWorld).
  - intros k. split; [discriminate | reflexivity].
  - repeat constructor; simpl; lia.
  - reflexivity.
Defined.

(** ** Failing before any draw (C5) *)

(** C5: a run over zero entities throws at once, leaving the world as it was;
    a run over entities whose weights sum to 0 throws
    'Total combinations cannot be zero' in its first draw, after the first
    timer and before Math.random() is called: in both cases the observer has
    not been called and no record is returned. *)
Theorem validation_fails_before_any_draw (random : nat -> Q)
    (onSelection : Callback) (delay : option Z) (w : World) :
  runNBALottery random [] onSelection delay w = (w, Throw EmptyLottery) /\
  forall teams,
    teams <> [] ->
    calculateTotalCombinations (weights teams) = 0 ->
    let after := fst (runNBALottery random teams onSelection delay w) in
    snd (runNBALottery random teams onSelection delay w) = Throw ZeroTotalCombinations /\
    events after = SetTimeout (normalizeDelay delay) :: events w /\
    observerCalls (events after) = observerCalls (events w) /\
    randomCalls after = randomCalls w.
Proof.
  split; [reflexivity|].
  intros teams Hne Hzero.
  rewrite calculateTotalCombinations_sum, weights_combinations in Hzero.
  destruct teams as [|x teams]; [congruence|].
  unfold runNBALottery. cbn [List.length lotteryLoop].
  unfold bind at 1 3. unfold setTimeout.
  unfold bind. rewrite select_zero_total by assumption.
  repeat split.
Qed.

Lemma validation_fails_before_any_draw_witness :
  let teams := [mkTeam "a" "A" 0; mkTeam "b" "B" 0] in
  let run := runNBALottery (fun _ => 0%Q) teams Observer None initialWorld in
  snd run = Throw ZeroTotalCombinations /\
  events (fst run) = [SetTimeout 1500] /\
  observerCalls (events (fst run)) = [] /\
  randomCalls (fst run) = 0%nat.
Proof.
  apply (validation_fails_before_any_draw (fun _ => 0%Q) Observer None initialWorld).
  - discriminate.
  - reflexivity.
Defined.

(** ** The full ranking (C3) *)

Lemma filter_all {A} (f : A -> bool) (l : list A) :
  (forall x, In x l -> f x = true) -> List.filter f l = l.
Proof.
  induction l as [|a l IH]; intros H; [reflexivity|].
  simpl. rewrite (H a) by now left. f_equal. apply IH.
  intros x Hx. apply H. now right.
Qed.

Lemma removeSelected_perm teams t :
  uniqueIds teams -> In t teams ->
  Permutation teams (t :: removeSelected teams t).
Proof.
  unfold uniqueIds, removeSelected.
  induction teams as [|a teams IH]; intros Hnd Hin; [destruct Hin|].
  simpl in Hnd. inversion Hnd as [|? ? Hnotin Hnd']; subst.
  destruct Hin as [->|Hin].
  - simpl. rewrite String.eqb_refl. simpl.
    rewrite filter_all; [reflexivity|].
    intros x Hx. apply negb_true_iff. apply String.eqb_neq.
    intros E. apply Hnotin. rewrite <- E. now apply in_map.
  - simpl.
    destruct (String.eqb_spec (userId a) (userId t)) as [E|E].
    + exfalso. apply Hnotin. rewrite E. now apply in_map.
    + simpl. rewrite perm_swap. constructor. now apply IH.
Qed.

Lemma removeSelected_incl teams t x :
  In x (removeSelected teams t) -> In x teams.
Proof. unfold removeSelected. intros H. apply List.filter_In in H. tauto. Qed.

Lemma removeSelected_unique teams t :
  uniqueIds teams -> uniqueIds (removeSelected teams t).
Proof.
  unfold uniqueIds, removeSelected.
  induction teams as [|a teams IH]; intros Hnd; [constructor|].
  simpl in Hnd. inversion Hnd as [|? ? Hnotin Hnd']; subst. simpl.
  destruct (negb (String.eqb (userId a) (userId t))); [|now apply IH].
  simpl. constructor; [|now apply IH].
  intros Hin. apply Hnotin. apply in_map_iff in Hin. destruct Hin as (x & Hx & Hin).
  apply in_map_iff. exists x. split; [exact Hx|].
  apply List.filter_In in Hin. tauto.
Qed.

Lemma removeSelected_Forall (P : Team -> Prop) teams t :
  Forall P teams -> Forall P (removeSelected teams t).
Proof.
  rewrite !List.Forall_forall. intros H x Hx. apply H.
  eapply removeSelected_incl. exact Hx.
Qed.

Lemma positive_nonNegative teams : positiveWeights teams -> nonNegativeWeights teams.
Proof.
  unfold positiveWeights, nonNegativeWeights. rewrite !List.Forall_forall.
  intros H x Hx. specialize (H x Hx). lia.
Qed.

Section Ranking.

Variable random : nat -> Q.
Hypothesis random_unit : unitInterval random.

Lemma loop_ranks n :
  forall avail pick totalTeams delay cb sels w,
    List.length avail = n ->
    uniqueIds avail -> truthyIds avail -> positiveWeights avail ->
    exists new,
      snd (lotteryLoop random n pick totalTeams delay cb avail sels w)
        = Ok (new ++ sels) /\
      Permutation (map selected_team new) avail /\
      map pickNumber (rev new) = map (fun k => pick + Z.of_nat k) (seq 0 n) /\
      Forall (fun s => position s = totalTeams - pickNumber s + 1) new.
Proof.
  induction n as [|n IH]; intros avail pick totalTeams delay cb sels w Hlen Hu Ht Hp.
  - exists []. destruct avail; [|discriminate]. repeat split; constructor.
  - cbn [lotteryLoop]. unfold bind at 1. unfold setTimeout at 1. unfold bind at 1.
    assert (Hex : Exists (fun x => 0 < combinations x) avail).
    { destruct avail as [|x avail]; [discriminate|].
      left. now inversion Hp. }
    destruct (select_succeeds random random_unit avail
                (mkWorld (randomCalls w) (SetTimeout delay :: events w))
                (positive_nonNegative _ Hp) Hex) as (t & Hsel & Hwalk).
    rewrite Hsel. apply walk_some_positive in Hwalk. destruct Hwalk as [Hin _].
    rewrite falsy_false
      by (unfold truthyIds in Ht; rewrite List.Forall_forall in Ht; now apply Ht).
    pose proof (removeSelected_perm avail t Hu Hin) as Hperm.
    assert (Hlen' : List.length (removeSelected avail t) = n).
    { apply Permutation_length in Hperm. simpl in Hperm. lia. }
    unfold bind at 1.
    set (s := mkSelection t pick (totalTeams - pick + 1)).
    assert (Hrec : forall w1, exists new,
               snd (lotteryLoop random n (pick + 1) totalTeams delay cb
                      (removeSelected avail t) (s :: sels) w1)
                 = Ok (new ++ s :: sels) /\
               Permutation (map selected_team new) (removeSelected avail t) /\
               map pickNumber (rev new)
                 = map (fun k => pick + 1 + Z.of_nat k) (seq 0 n) /\
               Forall (fun s => position s = totalTeams - pickNumber s + 1) new).
    { intros w1. apply IH; [exact Hlen'| | |].
      - now apply removeSelected_unique.
      - now apply removeSelected_Forall.
      - now apply removeSelected_Forall. }
    assert (Hgoal : forall w1, exists new,
               snd (lotteryLoop random n (pick + 1) totalTeams delay cb
                      (removeSelected avail t) (s :: sels) w1)
                 = Ok (new ++ sels) /\
               Permutation (map selected_team new) avail /\
               map pickNumber (rev new)
                 = map (fun k => pick + Z.of_nat k) (seq 0 (S n)) /\
               Forall (fun s => position s = totalTeams - pickNumber s + 1) new).
    { intros w1. destruct (Hrec w1) as (new & Hres & Hpm & Hpicks & Hpos).
      exists (new ++ [s]). split; [|split; [|split]].
      - rewrite Hres. now rewrite <- List.app_assoc.
      - rewrite List.map_app. simpl. rewrite Hperm.
        rewrite <- Permutation_cons_append. now constructor.
      - rewrite List.rev_app_distr. simpl. rewrite Hpicks.
        f_equal; [lia|]. rewrite <- List.seq_shift, List.map_map.
        apply List.map_ext. intros k. lia.
      - apply Forall_app. split; [exact Hpos|].
        constructor; [reflexivity | constructor]. }
    destruct cb; unfold ret, notify; apply Hgoal.
Qed.

End Ranking.

(** C3, as the code has it: for N >= 1 entities with unique, non-empty
    identifiers whose weights are all positive, the run returns N records
    that hold the input entities each exactly once; their pick numbers are
    N, N-1, ..., 1 in the order returned (worst pick first, winner last), and
    every record's position is N - pickNumber + 1. *)
Theorem run_ranks_every_entity (random : nat -> Q) (teams : list Team)
    (onSelection : Callback) (delay : option Z) (w : World) :
  unitInterval random ->
  teams <> [] ->
  uniqueIds teams -> truthyIds teams -> positiveWeights teams ->
  let N := List.length teams in
  exists sels,
    snd (runNBALottery random teams onSelection delay w) = Ok sels /\
    List.length sels = N /\
    Permutation (map selected_team sels) teams /\
    List.NoDup (map (fun s => userId (selected_team s)) sels) /\
    map pickNumber sels = rev (map Z.of_nat (seq 1 N)) /\
    Forall (fun s => position s = Z.of_nat N - pickNumber s + 1) sels.
Proof.
  intros Hu Hne Hid Htr Hpos N.
  destruct (loop_ranks random Hu N teams 1 (Z.of_nat N) (normalizeDelay delay)
              onSelection [] w eq_refl Hid Htr Hpos)
    as (new & Hres & Hperm & Hpicks & Hposn).
  rewrite List.app_nil_r in Hres.
  exists new. unfold runNBALottery. destruct teams as [|x teams]; [congruence|].
  fold N. split; [exact Hres|].
  split; [|split; [exact Hperm | split; [|split; [|exact Hposn]]]].
  - apply Permutation_length in Hperm. rewrite List.length_map in Hperm. exact Hperm.
  - rewrite <- (List.map_map selected_team userId).
    eapply Permutation_NoDup; [|exact Hid].
    apply Permutation_map. symmetry. exact Hperm.
  - rewrite <- (List.rev_involutive (map pickNumber new)).
    f_equal. rewrite <- List.map_rev, Hpicks.
    rewrite <- List.seq_shift, List.map_map.
    apply List.map_ext. intros k. lia.
Qed.

Lemma run_ranks_every_entity_witness :
  let teams := [mkTeam "a" "A" 70; mkTeam "b" "B" 20; mkTeam "c" "C" 10] in
  exists sels,
    snd (runNBALottery (fun _ => 1 # 2) teams Observer (Some 0) initialWorld) = Ok sels /\
    List.length sels = 3%nat /\
    Permutation (map selected_team sels) teams /\
    List.NoDup (map (fun s => userId (selected_team s)) sels) /\
    map pickNumber sels = [3; 2; 1] /\
    Forall (fun s => position s = 3 - pickNumber s + 1) sels.
Proof.
  apply (run_ranks_every_entity (fun _ => 1 # 2)
           [mkTeam "a" "A" 70; mkTeam "b" "B" 20; mkTeam "c" "C" 10]
           Observer (Some 0) initialWorld).
  - intros k. split; [discriminate | reflexivity].
  - discriminate.
  - repeat constructor; simpl; intuition discriminate.
  - repeat constructor; discriminate.
  - repeat constructor.
Defined.

(** C3 as stated fails: two entities with unique identifiers and total weight
    5, one of them of weight 0; the second draw throws and no record is
    returned.  Nor is a positive weight enough when the identifier is the
    empty string: the run throws 'Invalid team selected during lottery'. *)
Lemma zero_weight_entity_aborts_run :
  let teams := [mkTeam "a" "A" 5; mkTeam "b" "B" 0] in
  let anonymous := [mkTeam "" "A" 5] in
  (uniqueIds teams /\
   0 < calculateTotalCombinations (weights teams) /\
   snd (runNBALottery (fun _ => 0%Q) teams NotAFunction (Some 0) initialWorld)
     = Throw ZeroTotalCombinations /\
   ~ exists sels,
       snd (runNBALottery (fun _ => 0%Q) teams NotAFunction (Some 0) initialWorld)
         = Ok sels) /\
  (uniqueIds anonymous /\
   0 < calculateTotalCombinations (weights anonymous) /\
   snd (runNBALottery (fun _ => 0%Q) anonymous NotAFunction (Some 0) initialWorld)
     = Throw InvalidTeamSelected).
Proof.
  split.
  - repeat split.
    + repeat constructor; simpl; intuition discriminate.
    + intros [sels H]. discriminate H.
  - repeat split. repeat constructor. simpl. tauto.
Qed.

(** ** What the observer receives (C6) and the role of the delay (C8) *)

Section Observation.

Variable random : nat -> Q.

Lemma select_cases teams w :
  selectWinnerByCombinations random teams w = (w, Throw EmptyTeamsArray) \/
  selectWinnerByCombinations random teams w = (w, Throw ZeroTotalCombinations) \/
  exists t, selectWinnerByCombinations random teams w = (afterRandom w, Ok t).
Proof.
  destruct teams as [|x teams]; [now left|].
  destruct (Z.eq_dec (sumZ (map combinations (x :: teams))) 0) as [E|E].
  - right. left. apply select_zero_total; [discriminate | exact E].
  - right. right. eexists. apply select_nonzero_total. exact E.
Qed.

Lemma select_events teams w :
  events (fst (selectWinnerByCombinations random teams w)) = events w.
Proof.
  destruct (select_cases teams w) as [H|[H|[t H]]]; rewrite H; reflexivity.
Qed.

(** A draw looks at the world only to take the next random number. *)
Lemma select_same_calls teams w1 w2 :
  randomCalls w1 = randomCalls w2 ->
  snd (selectWinnerByCombinations random teams w1)
    = snd (selectWinnerByCombinations random teams w2) /\
  randomCalls (fst (selectWinnerByCombinations random teams w1))
    = randomCalls (fst (selectWinnerByCombinations random teams w2)).
Proof.
  intros Hc. destruct teams as [|x teams]; [now split|].
  destruct (Z.eq_dec (sumZ (map combinations (x :: teams))) 0) as [E|E].
  - rewrite !select_zero_total by (assumption || discriminate). now split.
  - rewrite !select_nonzero_total by exact E. simpl. rewrite Hc. now split.
Qed.

(** One iteration of the loop, written out. *)
Lemma loop_step n pick totalTeams delay cb avail sels w :
  lotteryLoop random (S n) pick totalTeams delay cb avail sels w =
  match selectWinnerByCombinations random avail
          (mkWorld (randomCalls w) (SetTimeout delay :: events w)) with
  | (w2, Throw e) => (w2, Throw e)
  | (w2, Ok t) =>
      if falsy (userId t) then (w2, Throw InvalidTeamSelected)
      else
        lotteryLoop random n (pick + 1) totalTeams delay cb
          (removeSelected avail t)
          (mkSelection t pick (totalTeams - pick + 1) :: sels)
          (match cb with
           | Observer =>
               mkWorld (randomCalls w2)
                       (OnSelection t (totalTeams - pick + 1) pick :: events w2)
           | NotAFunction => w2
           end)
  end.
Proof.
  cbn [lotteryLoop]. unfold bind, setTimeout.
  destruct (selectWinnerByCombinations random avail _) as [w2 [t|e]];
    [|reflexivity].
  destruct (falsy (userId t)); [reflexivity|].
  destruct cb; reflexivity.
Qed.

Lemma loop_calls n :
  forall avail pick totalTeams delay sels w,
    let run := lotteryLoop random n pick totalTeams delay Observer avail sels w in
    exists drawn,
      observerCalls (events (fst run))
        = observerCalls (events w) ++ map callOf drawn /\
      map pickNumber drawn
        = map (fun k => pick + Z.of_nat k) (seq 0 (List.length drawn)) /\
      Forall (fun s => position s = totalTeams - pickNumber s + 1) drawn /\
      forall sels', snd run = Ok sels' ->
                    sels' = rev drawn ++ sels /\ List.length drawn = n.
Proof.
  induction n as [|n IH]; intros avail pick totalTeams delay sels w run.
  - exists []. subst run. simpl. rewrite List.app_nil_r.
    split; [reflexivity | split; [reflexivity | split; [constructor|]]].
    intros sels' [= <-]. now split.
  - subst run. rewrite loop_step.
    set (w1 := mkWorld (randomCalls w) (SetTimeout delay :: events w)).
    pose proof (select_events avail w1) as Hev.
    destruct (selectWinnerByCombinations random avail w1) as [w2 [t|e]];
      simpl in Hev.
    + destruct (falsy (userId t)).
      * exists []. cbn [fst snd]. rewrite Hev. simpl.
        rewrite List.app_nil_r.
        split; [reflexivity | split; [reflexivity | split; [constructor|]]].
        intros sels' Hres. discriminate Hres.
      * set (w3 := mkWorld (randomCalls w2)
                     (OnSelection t (totalTeams - pick + 1) pick :: events w2)).
        set (s := mkSelection t pick (totalTeams - pick + 1)).
        destruct (IH (removeSelected avail t) (pick + 1) totalTeams delay
                     (s :: sels) w3) as (drawn & Hcalls & Hpicks & Hpos & Hok).
        exists (s :: drawn). split; [|split; [|split]].
        -- rewrite Hcalls. unfold w3. cbn [events observerCalls].
           rewrite Hev. simpl. now rewrite <- List.app_assoc.
        -- simpl. rewrite Hpicks. f_equal; [lia|].
           rewrite <- List.seq_shift, List.map_map.
           apply List.map_ext. intros k. lia.
        -- constructor; [reflexivity | exact Hpos].
        -- intros sels' Hres. destruct (Hok sels' Hres) as [-> Hlen].
           simpl. rewrite <- List.app_assoc. split; [reflexivity | lia].
    + exists []. cbn [fst snd]. rewrite Hev. simpl.
      rewrite List.app_nil_r.
      split; [reflexivity | split; [reflexivity | split; [constructor|]]].
      intros sels' Hres. discriminate Hres.
Qed.

Lemma loop_no_observer n :
  forall avail pick totalTeams delay sels w,
    observerCalls
      (events (fst (lotteryLoop random n pick totalTeams delay NotAFunction
                                avail sels w)))
    = observerCalls (events w).
Proof.
  induction n as [|n IH]; intros avail pick totalTeams delay sels w; [reflexivity|].
  rewrite loop_step.
  set (w1 := mkWorld (randomCalls w) (SetTimeout delay :: events w)).
  pose proof (select_events avail w1) as Hev.
  destruct (selectWinnerByCombinations random avail w1) as [w2 [t|e]];
    simpl in Hev.
  - destruct (falsy (userId t)).
    + simpl. now rewrite Hev.
    + rewrite IH. now rewrite Hev.
  - simpl. now rewrite Hev.
Qed.

(** Two loops that differ in the delay, started in worlds that agree on the
    random numbers consumed and on the calls made, end alike. *)
Lemma loop_delay n :
  forall avail pick totalTeams d1 d2 cb sels w1 w2,
    randomCalls w1 = randomCalls w2 ->
    observerCalls (events w1) = observerCalls (events w2) ->
    let run1 := lotteryLoop random n pick totalTeams d1 cb avail sels w1 in
    let run2 := lotteryLoop random n pick totalTeams d2 cb avail sels w2 in
    snd run1 = snd run2 /\
    observerCalls (events (fst run1)) = observerCalls (events (fst run2)) /\
    randomCalls (fst run1) = randomCalls (fst run2).
Proof.
  induction n as [|n IH]; intros avail pick totalTeams d1 d2 cb sels w1 w2 Hc Ho.
  - simpl. auto.
  - cbv zeta. rewrite !loop_step.
    set (a1 := mkWorld (randomCalls w1) (SetTimeout d1 :: events w1)).
    set (a2 := mkWorld (randomCalls w2) (SetTimeout d2 :: events w2)).
    pose proof (select_events avail a1) as Hev1.
    pose proof (select_events avail a2) as Hev2.
    destruct (select_same_calls avail a1 a2 Hc) as [Hres Hcalls].
    destruct (selectWinnerByCombinations random avail a1) as [b1 [t1|e1]];
      destruct (selectWinnerByCombinations random avail a2) as [b2 [t2|e2]];
      simpl in Hres, Hcalls, Hev1, Hev2; try discriminate.
    + injection Hres as <-. destruct (falsy (userId t1)).
      * simpl. rewrite Hev1, Hev2. auto.
      * apply IH; destruct cb; simpl; rewrite ?Hev1, ?Hev2; simpl; congruence.
    + injection Hres as <-. simpl. rewrite Hev1, Hev2. auto.
Qed.

End Observation.

(** The calls that a run makes, read off the code: with an observer, one call
    for each draw it completes, in the order of the draws, carrying the
    selected entity, the display position N - pickNumber + 1 and the pick
    number, the pick numbers of successive calls being 1, 2, 3, ...; a run
    that returns has made N calls, one for each record, the records being
    returned in the reverse order of the calls.  Without an observer no call
    is made. *)
Theorem observer_called_once_per_draw (random : nat -> Q) (teams : list Team)
    (delay : option Z) :
  let N := Z.of_nat (List.length teams) in
  let run := runNBALottery random teams Observer delay initialWorld in
  (exists drawn,
     observerCalls (events (fst run)) = map callOf drawn /\
     map pickNumber drawn = map Z.of_nat (seq 1 (List.length drawn)) /\
     Forall (fun s => position s = N - pickNumber s + 1) drawn /\
     forall sels, snd run = Ok sels ->
                  sels = rev drawn /\ List.length drawn = List.length teams) /\
  observerCalls
    (events (fst (runNBALottery random teams NotAFunction delay initialWorld))) = [].
Proof.
  intros N run. split.
  - subst run. unfold runNBALottery. destruct teams as [|x teams].
    + exists []. simpl. repeat split; try constructor. discriminate.
    + destruct (loop_calls random (List.length (x :: teams)) (x :: teams) 1 N
                  (normalizeDelay delay) [] initialWorld)
        as (drawn & Hcalls & Hpicks & Hpos & Hok).
      exists drawn. split; [exact Hcalls|]. split; [|split; [exact Hpos|]].
      * rewrite Hpicks. rewrite <- List.seq_shift, List.map_map.
        apply List.map_ext. intros k. lia.
      * intros sels Hres. destruct (Hok sels Hres) as [-> Hlen].
        now rewrite List.app_nil_r.
  - unfold runNBALottery. destruct teams as [|x teams]; [reflexivity|].
    apply loop_no_observer.
Qed.

Lemma observer_called_once_per_draw_witness :
  let teams := [mkTeam "a" "A" 5; mkTeam "c" "C" 3] in
  let run := runNBALottery (fun _ => 0%Q) teams Observer (Some 0) initialWorld in
  exists drawn,
    observerCalls (events (fst run)) = map callOf drawn /\
    map pickNumber drawn = map Z.of_nat (seq 1 (List.length drawn)) /\
    Forall (fun s => position s = 2 - pickNumber s + 1) drawn /\
    forall sels, snd run = Ok sels -> sels = rev drawn /\ List.length drawn = 2%nat.
Proof.
  exact (proj1 (observer_called_once_per_draw (fun _ => 0%Q)
                  [mkTeam "a" "A" 5; mkTeam "c" "C" 3] (Some 0))).
Defined.

(** C6: the JSDoc of runNBALottery documents the observer as called with
    (team, pickNumber, displayPosition), which is what the claim states, but
    the call in the loop passes (selected, displayPosition, pickNumber).  In
    a run over the two entities a and c with Math.random() returning 0, the
    call for the winner a, whose pick number is 1, carries 2 as its second
    argument, and the call for c, whose pick number is 2, carries 1: the
    second argument of a call is not the pick number of the entity. *)
Lemma observer_second_argument_is_position :
  let a := mkTeam "a" "A" 5 in
  let c := mkTeam "c" "C" 3 in
  let run := runNBALottery (fun _ => 0%Q) [a; c] Observer (Some 0) initialWorld in
  snd run = Ok [mkSelection c 2 1; mkSelection a 1 2] /\
  observerCalls (events (fst run)) = [(a, 2, 1); (c, 1, 2)] /\
  ~ Forall (fun call : Team * Z * Z =>
              exists s, In s [mkSelection c 2 1; mkSelection a 1 2] /\
                        selected_team s = fst (fst call) /\
                        pickNumber s = snd (fst call))
           (observerCalls (events (fst run))).
Proof.
  split; [reflexivity | split; [reflexivity|]].
  intros H. inversion H as [|? ? (s & Hin & Hteam & Hpick) _]; subst.
  simpl in Hin, Hteam, Hpick.
  destruct Hin as [<-|[<-|[]]]; simpl in *; discriminate.
Qed.

(** C8: two runs over the same entities with the same observer and the same
    stream of random numbers, started in the same world, return the same
    result, make the same observer calls in the same order and consume the
    same number of random numbers, whatever their two delays are. *)
Theorem delay_has_no_bearing_on_outcome (random : nat -> Q) (teams : list Team)
    (onSelection : Callback) (delay1 delay2 : option Z) (w : World) :
  let run1 := runNBALottery random teams onSelection delay1 w in
  let run2 := runNBALottery random teams onSelection delay2 w in
  snd run1 = snd run2 /\
  observerCalls (events (fst run1)) = observerCalls (events (fst run2)) /\
  randomCalls (fst run1) = randomCalls (fst run2).
Proof.
  unfold runNBALottery. destruct teams as [|x teams]; [simpl; auto|].
  apply loop_delay; reflexivity.
Qed.

(** ** The caller's objects are left alone (C9) *)

Section Frame.

Variable random : nat -> Q.

Lemma fresh_lookup_None (h : gmap Store.loc Store.obj) : h !! fresh (dom h) = None.
Proof. apply not_elem_of_dom. apply is_fresh. Qed.

(** A draw reads the store and writes nothing. *)
Lemma store_select_heap teams st :
  Store.heap (fst (Store.selectWinnerByCombinations random teams st)) = Store.heap st.
Proof.
  unfold Store.selectWinnerByCombinations, bind, Store.getHeap.
  destruct (Store.readArray (Store.heap st) teams) as [[|first rest]|];
    try reflexivity.
  destruct (_ =? 0); [reflexivity|].
  unfold Store.liftWorld, mathRandom. cbn [Store.heap Store.world].
  match goal with
  | |- context [Store.walk ?h ?l ?r ?c] => destruct (Store.walk h l r c)
  end; reflexivity.
Qed.

(** One iteration of the loop over the store, written out. *)
Lemma store_loop_step n pick totalTeams delay cb avail sels st :
  Store.lotteryLoop random (S n) pick totalTeams delay cb avail sels st =
  match Store.selectWinnerByCombinations random avail
          (Store.mkStore (Store.heap st)
             (mkWorld (randomCalls (Store.world st))
                      (SetTimeout delay :: events (Store.world st)))) with
  | (st2, Throw e) => (st2, Throw e)
  | (st2, Ok selected) =>
      let h := Store.heap st2 in
      let t := Store.readTeam h selected in
      if falsy (userId t) then (st2, Throw InvalidTeamSelected)
      else
        let remainingTeams :=
          match Store.readArray h avail with
          | Some elems =>
              List.filter
                (fun l => negb (String.eqb (userId (Store.readTeam h l)) (userId t)))
                elems
          | None => []
          end in
        let avail' := fresh (dom h) in
        let h3 := <[avail' := Store.OArray remainingTeams]> h in
        let x := fresh (dom h3) in
        let h4 :=
          <[x := Store.OSelection (mkSelection t pick (totalTeams - pick + 1))]> h3 in
        let h5 := match Store.readArray h4 sels with
                  | Some elems => <[sels := Store.OArray (x :: elems)]> h4
                  | None => h4
                  end in
        let w5 := match cb with
                  | Observer =>
                      mkWorld (randomCalls (Store.world st2))
                        (OnSelection t (totalTeams - pick + 1) pick
                           :: events (Store.world st2))
                  | NotAFunction => Store.world st2
                  end in
        Store.lotteryLoop random n (pick + 1) totalTeams delay cb avail' sels
          (Store.mkStore h5 w5)
  end.
Proof.
  cbn [Store.lotteryLoop]. unfold bind at 1. unfold Store.liftWorld at 1.
  unfold setTimeout at 1. cbn [Store.world Store.heap].
  unfold bind at 1.
  destruct (Store.selectWinnerByCombinations random avail _) as [st2 [selected|e]];
    [|reflexivity].
  unfold bind at 1. unfold Store.getHeap at 1.
  destruct (falsy _); [reflexivity|]. cbv zeta.
  unfold bind at 1. unfold Store.removeSelected, bind, Store.getHeap.
  destruct st2 as [h w2]. cbn [Store.heap Store.world].
  destruct (Store.readArray h avail) as [elems|];
    unfold Store.alloc; cbn [Store.heap Store.world];
    unfold Store.unshift, bind, Store.getHeap; cbn [Store.heap Store.world];
    match goal with
    | |- context [Store.readArray ?hh sels] =>
        destruct (Store.readArray hh sels) as [old|]
    end;
    unfold Store.write, ret, Store.liftWorld, notify; cbn [Store.heap Store.world];
    destruct cb; reflexivity.
Qed.

(** What the loop keeps true of the store: the objects of the caller's heap
    [h0] are where they were, and the array of selections is an object of the
    run whose elements are objects of the run. *)
Lemma store_loop_frame (h0 : gmap Store.loc Store.obj) n :
  forall pick totalTeams delay cb avail sels st,
    Store.runInvariant h0 sels st ->
    Store.runInvariant h0 sels
      (fst (Store.lotteryLoop random n pick totalTeams delay cb avail sels st)).
Proof.
  induction n as [|n IH]; intros pick totalTeams delay cb avail sels st Hinv;
    [exact Hinv|].
  rewrite store_loop_step.
  set (st1 := Store.mkStore _ _).
  pose proof (store_select_heap avail st1) as Hheap.
  destruct (Store.selectWinnerByCombinations random avail st1) as [st2 [selected|e]];
    simpl in Hheap.
  - assert (Hinv2 : Store.runInvariant h0 sels st2).
    { unfold Store.runInvariant in *. now rewrite Hheap. }
    cbv zeta.
    match goal with |- context [falsy ?s] => destruct (falsy s) end;
      [exact Hinv2|].
    apply IH. clear IH.
    destruct Hinv2 as (Hsub & Hnone & elems & Hsels & Hnew).
    set (h := Store.heap st2) in *.
    set (a := fresh (dom h)).
    set (h3 := <[a := _]> h).
    set (x := fresh (dom h3)).
    assert (Ha : h !! a = None) by apply fresh_lookup_None.
    assert (Hx : h3 !! x = None) by apply fresh_lookup_None.
    assert (Hax : a <> x).
    { intros E. rewrite <- E in Hx. unfold h3 in Hx.
      rewrite lookup_insert_eq in Hx. discriminate. }
    assert (Hsa : sels <> a) by (intros E; rewrite E in Hsels; congruence).
    assert (Hsx : sels <> x).
    { intros E. rewrite <- E in Hx. unfold h3 in Hx.
      rewrite lookup_insert_ne in Hx by congruence. congruence. }
    assert (Hread : Store.readArray
                      (<[x := Store.OSelection
                                (mkSelection (Store.readTeam h selected) pick
                                             (totalTeams - pick + 1))]> h3) sels
                    = Some elems).
    { unfold Store.readArray, h3.
      rewrite !lookup_insert_ne by congruence. now rewrite Hsels. }
    rewrite Hread. unfold Store.runInvariant. cbn [Store.heap].
    assert (H0a : h0 !! a = None) by (eapply lookup_weaken_None; eassumption).
    assert (H0x : h0 !! x = None).
    { destruct (h0 !! x) as [o|] eqn:E; [|reflexivity].
      assert (h3 !! x = Some o); [|congruence].
      unfold h3. rewrite lookup_insert_ne by exact Hax.
      eapply lookup_weaken; eassumption. }
    split; [|split; [exact Hnone|]].
    + apply insert_subseteq_r; [exact Hnone|].
      apply insert_subseteq_r; [exact H0x|].
      apply insert_subseteq_r; [exact H0a|]. exact Hsub.
    + exists (x :: elems). split; [apply lookup_insert_eq|].
      constructor; assumption.
  - unfold Store.runInvariant in *. cbn [fst]. now rewrite Hheap.
Qed.

End Frame.

Lemma store_loop_result random n :
  forall pick totalTeams delay cb avail sels st r,
    snd (Store.lotteryLoop random n pick totalTeams delay cb avail sels st) = Ok r ->
    r = sels.
Proof.
  induction n as [|n IH]; intros pick totalTeams delay cb avail sels st r.
  - simpl. now intros [= <-].
  - rewrite store_loop_step.
    destruct (Store.selectWinnerByCombinations random avail _) as [st2 [selected|e]];
      [|discriminate].
    cbv zeta.
    match goal with |- context [falsy ?s] => destruct (falsy s) end;
      [discriminate|].
    apply IH.
Qed.

(** The run over the store, after its two guards and its two allocations. *)
Lemma store_run_unfold random teams cb delay st elems :
  Store.readArray (Store.heap st) teams = Some elems -> elems <> [] ->
  let h := Store.heap st in
  let selections := fresh (dom h) in
  let h1 := <[selections := Store.OArray []]> h in
  let availableTeams := fresh (dom h1) in
  let h2 := <[availableTeams := Store.OArray elems]> h1 in
  Store.runNBALottery random teams cb delay st =
  Store.lotteryLoop random (List.length elems) 1 (Z.of_nat (List.length elems))
    (normalizeDelay delay) cb availableTeams selections
    (Store.mkStore h2 (Store.world st)).
Proof.
  intros Hread Hne. unfold Store.runNBALottery, bind, Store.getHeap.
  rewrite Hread. destruct elems as [|e elems]; [congruence|]. reflexivity.
Qed.

Lemma store_run_guard random teams cb delay st :
  Store.readArray (Store.heap st) teams = None \/
  Store.readArray (Store.heap st) teams = Some [] ->
  Store.runNBALottery random teams cb delay st = (st, Throw EmptyLottery).
Proof.
  intros H. unfold Store.runNBALottery, bind, Store.getHeap.
  destruct H as [-> | ->]; reflexivity.
Qed.

Lemma store_run_invariant random teams cb delay st elems :
  Store.readArray (Store.heap st) teams = Some elems -> elems <> [] ->
  Store.runInvariant (Store.heap st) (fresh (dom (Store.heap st)))
    (fst (Store.runNBALottery random teams cb delay st)).
Proof.
  intros Hread Hne. rewrite (store_run_unfold random teams cb delay st elems Hread Hne).
  cbv zeta. apply store_loop_frame.
  set (h := Store.heap st). set (s := fresh (dom h)).
  set (h1 := <[s := _]> h). set (a := fresh (dom h1)).
  assert (Hs : h !! s = None) by apply fresh_lookup_None.
  assert (Ha : h1 !! a = None) by apply fresh_lookup_None.
  assert (Hsa : s <> a).
  { intros E. rewrite <- E in Ha. unfold h1 in Ha.
    rewrite lookup_insert_eq in Ha. discriminate. }
  assert (Hha : h !! a = None).
  { unfold h1 in Ha. now rewrite lookup_insert_ne in Ha by exact Hsa. }
  unfold Store.runInvariant. cbn [Store.heap].
  split; [|split; [exact Hs|]].
  - apply insert_subseteq_r; [exact Hha|]. apply insert_subseteq. exact Hs.
  - exists []. split; [|constructor].
    rewrite lookup_insert_ne by congruence. apply lookup_insert_eq.
Qed.

(** C9: whatever the store holds when runNBALottery is called, every array
    and object in it is unchanged when the run ends, by a return or by a
    throw; the array returned is a new object and so is each record in it;
    selectWinnerByCombinations leaves the whole store as it was. *)
Theorem engine_never_mutates_caller_objects (random : nat -> Q)
    (teams : Store.loc) (onSelection : Callback) (delay : option Z)
    (st : Store.store) :
  let run := Store.runNBALottery random teams onSelection delay st in
  (forall l o, Store.heap st !! l = Some o -> Store.heap (fst run) !! l = Some o) /\
  (forall r, snd run = Ok r ->
             Store.heap st !! r = None /\
             exists records,
               Store.heap (fst run) !! r = Some (Store.OArray records) /\
               Forall (fun x => Store.heap st !! x = None) records) /\
  Store.heap (fst (Store.selectWinnerByCombinations random teams st)) = Store.heap st.
Proof.
  intros run. subst run.
  destruct (Store.readArray (Store.heap st) teams) as [[|e elems]|] eqn:Hread.
  - rewrite store_run_guard by (right; exact Hread).
    split; [now intros l o H | split; [discriminate | apply store_select_heap]].
  - assert (Hne : e :: elems <> []) by discriminate.
    pose proof (store_run_invariant random teams onSelection delay st _ Hread Hne)
      as (Hsub & Hnone & records & Hsels & Hnew).
    split; [|split; [|apply store_select_heap]].
    + intros l o H. eapply lookup_weaken; eassumption.
    + intros r Hres.
      rewrite (store_run_unfold random teams onSelection delay st _ Hread Hne) in Hres.
      apply store_loop_result in Hres. subst r.
      split; [exact Hnone|]. exists records. split; assumption.
  - rewrite store_run_guard by (left; exact Hread).
    split; [now intros l o H | split; [discriminate | apply store_select_heap]].
Qed.

Lemma engine_never_mutates_caller_objects_witness :
  let a := mkTeam "a" "A" 5 in
  let c := mkTeam "c" "C" 3 in
  let h : gmap Store.loc Store.obj :=
    <[1%positive := Store.OTeam a]>
      (<[2%positive := Store.OTeam c]>
         (<[3%positive := Store.OArray [1%positive; 2%positive]]> ∅)) in
  let st := Store.mkStore h initialWorld in
  let run := Store.runNBALottery (fun _ => 0%Q) 3%positive Observer (Some 0) st in
  Store.heap (fst run) !! 3%positive = Some (Store.OArray [1%positive; 2%positive]) /\
  Store.heap (fst run) !! 1%positive = Some (Store.OTeam a).
Proof.
  split.
  - apply (engine_never_mutates_caller_objects (fun _ => 0%Q) 3%positive Observer
             (Some 0)). reflexivity.
  - apply (engine_never_mutates_caller_objects (fun _ => 0%Q) 3%positive Observer
             (Some 0)). reflexivity.
Defined.

(** ** The two embeddings agree

    Run over a store whose references all point somewhere, the engine over
    the store does to the world, and returns, what the engine over values
    does on the teams that the array holds. *)

Section Simulation.

Variable random : nat -> Q.

Lemma store_walk_sim h elems : forall r c,
  option_map (Store.readTeam h) (Store.walk h elems r c)
  = walk (map (Store.readTeam h) elems) r c.
Proof.
  induction elems as [|l elems IH]; intros r c; [reflexivity|].
  simpl. destruct (_ <=? 0); [apply IH|].
  destruct (r <=? _); [reflexivity | apply IH].
Qed.

Lemma store_walk_In h elems : forall r c l,
  Store.walk h elems r c = Some l -> In l elems.
Proof.
  induction elems as [|x elems IH]; intros r c l; simpl; [discriminate|].
  destruct (_ <=? 0); [intros H; right; eapply IH; exact H|].
  destruct (r <=? _); [intros [= <-]; now left | intros H; right; eapply IH; exact H].
Qed.

Lemma last_map {A B} (f : A -> B) (l : list A) : forall x,
  List.last (map f (x :: l)) (f x) = f (List.last (x :: l) x).
Proof.
  induction l as [|y l IH]; intros x; [reflexivity|].
  change (List.last (f y :: map f l) (f x) = f (List.last (y :: l) x)).
  rewrite (last_cons_default (map f l) (f y) (f x) (f y)).
  rewrite (last_cons_default l y x y). apply IH.
Qed.

Lemma store_select_sim teams st elems :
  Store.readArray (Store.heap st) teams = Some elems ->
  let res := Store.selectWinnerByCombinations random teams st in
  let pure := selectWinnerByCombinations random
                (map (Store.readTeam (Store.heap st)) elems) (Store.world st) in
  Store.world (fst res) = fst pure /\
  match snd res with
  | Ok l => snd pure = Ok (Store.readTeam (Store.heap st) l) /\ In l elems
  | Throw e => snd pure = Throw e
  end.
Proof.
  intros Hread. cbv zeta.
  unfold Store.selectWinnerByCombinations, bind, Store.getHeap. rewrite Hread.
  destruct elems as [|first rest]; [now split|].
  set (elems := first :: rest).
  assert (Htotal : calculateTotalCombinations
                     (map (fun l => or0 (combinations (Store.readTeam (Store.heap st) l)))
                          elems)
                   = sumZ (map combinations (map (Store.readTeam (Store.heap st)) elems))).
  { rewrite calculateTotalCombinations_sum, List.map_map. f_equal.
    apply List.map_ext. intros l. apply or0_id. }
  rewrite Htotal.
  destruct (Z.eqb_spec (sumZ (map combinations
                                  (map (Store.readTeam (Store.heap st)) elems))) 0)
    as [E|E].
  - rewrite select_zero_total by (assumption || discriminate). now split.
  - rewrite select_nonzero_total by exact E.
    unfold Store.liftWorld, mathRandom. cbn [Store.heap Store.world fst snd].
    set (r := randomTicket _ _).
    rewrite <- (store_walk_sim (Store.heap st) elems r 0).
    destruct (Store.walk (Store.heap st) elems r 0) as [l|] eqn:Hwalk;
      cbn [option_map ret fst snd Store.world].
    + split; [reflexivity|]. split; [reflexivity|].
      eapply store_walk_In. exact Hwalk.
    + split; [reflexivity|]. split; [|apply last_In].
      f_equal. unfold elems.
      rewrite (last_cons_default (map (Store.readTeam (Store.heap st)) rest)
                 (Store.readTeam (Store.heap st) first) _
                 (Store.readTeam (Store.heap st) first)).
      apply (last_map (Store.readTeam (Store.heap st)) rest first).
Qed.

Lemma filter_map_comm {A B} (f : A -> B) (p : B -> bool) (l : list A) :
  map f (List.filter (fun x => p (f x)) l) = List.filter p (map f l).
Proof.
  induction l as [|x l IH]; [reflexivity|].
  simpl. destruct (p (f x)); simpl; now rewrite IH.
Qed.

Lemma readTeam_weaken (h h' : gmap Store.loc Store.obj) l :
  h ⊆ h' -> is_Some (h !! l) -> Store.readTeam h' l = Store.readTeam h l.
Proof.
  intros Hsub [o Ho]. unfold Store.readTeam.
  now rewrite (lookup_weaken _ _ _ _ Ho Hsub), Ho.
Qed.

Lemma map_readTeam_weaken (h h' : gmap Store.loc Store.obj) elems :
  h ⊆ h' -> Forall (fun l => is_Some (h !! l)) elems ->
  map (Store.readTeam h') elems = map (Store.readTeam h) elems.
Proof.
  intros Hsub H. induction H as [|l elems Hl _ IH]; [reflexivity|].
  simpl. rewrite IH. f_equal. now apply readTeam_weaken.
Qed.

Lemma store_loop_sim (h0 : gmap Store.loc Store.obj) n :
  forall pick totalTeams delay cb avail sels st teams records,
    Store.represents h0 st avail teams sels records ->
    let res := Store.lotteryLoop random n pick totalTeams delay cb avail sels st in
    let pure := lotteryLoop random n pick totalTeams delay cb teams records
                            (Store.world st) in
    Store.world (fst res) = fst pure /\
    match snd res with
    | Ok r => exists out, snd pure = Ok out /\ Store.denotes (Store.heap (fst res)) r out
    | Throw e => snd pure = Throw e
    end.
Proof.
  induction n as [|n IH];
    intros pick totalTeams delay cb avail sels st teams records Hrep.
  - simpl. split; [reflexivity|]. exists records. split; [reflexivity|].
    destruct Hrep as (_ & _ & Hsels). exact Hsels.
  - cbv zeta. rewrite store_loop_step, loop_step.
    destruct Hrep as (Hinv & (elemsA & HreadA & HsomeA & HmapA)
                           & (elemsS & HreadS & Hrecs)).
    destruct Hinv as (Hsub & Hnone & elemsS' & HselsS & Hnew).
    set (w1 := mkWorld _ _).
    pose proof (store_select_sim avail (Store.mkStore (Store.heap st) w1)
                  elemsA HreadA) as Hsim.
    pose proof (store_select_heap random avail (Store.mkStore (Store.heap st) w1))
      as Hheap.
    cbv zeta in Hsim. cbn [Store.heap Store.world] in Hsim, Hheap.
    rewrite (map_readTeam_weaken h0 (Store.heap st) elemsA Hsub HsomeA), HmapA in Hsim.
    destruct (Store.selectWinnerByCombinations random avail _) as [st2 [l|e]];
      destruct (selectWinnerByCombinations random teams _) as [w2 [t|e']];
      cbn [fst snd] in Hsim, Hheap; destruct Hsim as [Hw Hres];
      try discriminate; try (destruct Hres; discriminate).
    + destruct Hres as [[= ->] Hin]. cbv zeta. rewrite Hheap.
      set (h := Store.heap st) in *.
      set (t := Store.readTeam h l).
      destruct (falsy (userId t)); [split; [exact Hw | reflexivity]|].
      set (remaining := match Store.readArray h avail with
                        | Some elems => _ | None => _ end).
      set (a := fresh (dom h)).
      set (h3 := <[a := _]> h).
      set (x := fresh (dom h3)).
      set (s := mkSelection t pick (totalTeams - pick + 1)).
      set (h4 := <[x := Store.OSelection s]> h3).
      assert (Ha : h !! a = None) by apply fresh_lookup_None.
      assert (Hx : h3 !! x = None) by apply fresh_lookup_None.
      assert (Hax : a <> x).
      { intros E. rewrite <- E in Hx. unfold h3 in Hx.
        rewrite lookup_insert_eq in Hx. discriminate. }
      assert (Hhx : h !! x = None).
      { unfold h3 in Hx. now rewrite lookup_insert_ne in Hx by exact Hax. }
      assert (Hsa : sels <> a) by (intros E; rewrite E in HselsS; congruence).
      assert (Hsx : sels <> x) by (intros E; rewrite E in HselsS; congruence).
      assert (H0a : h0 !! a = None) by (eapply lookup_weaken_None; eassumption).
      assert (H0x : h0 !! x = None) by (eapply lookup_weaken_None; eassumption).
      assert (HelemsS : elemsS' = elemsS).
      { unfold Store.readArray in HreadS. rewrite HselsS in HreadS. congruence. }
      subst elemsS'.
      assert (Hread4 : Store.readArray h4 sels = Some elemsS).
      { unfold Store.readArray, h4, h3.
        rewrite !lookup_insert_ne by congruence. now rewrite HselsS. }
      rewrite Hread4.
      set (h5 := <[sels := Store.OArray (x :: elemsS)]> h4).
      set (w5 := match cb with Observer => _ | NotAFunction => _ end).
      assert (Hsub5 : h0 ⊆ h5).
      { apply insert_subseteq_r; [exact Hnone|].
        apply insert_subseteq_r; [exact H0x|].
        apply insert_subseteq_r; [exact H0a|]. exact Hsub. }
      assert (Hremaining : remaining
                = List.filter (fun l' => negb (String.eqb (userId (Store.readTeam h l'))
                                                          (userId t))) elemsA).
      { unfold remaining. now rewrite HreadA. }
      assert (Hrep5 : Store.represents h0 (Store.mkStore h5 w5) a
                        (removeSelected teams t) sels (s :: records)).
      { split; [|split].
        - split; [exact Hsub5 | split; [exact Hnone|]].
          exists (x :: elemsS). split; [apply lookup_insert_eq|].
          constructor; assumption.
        - exists remaining. split; [|split].
          + unfold Store.readArray, h5, h4, h3. cbn [Store.heap].
            rewrite lookup_insert_ne by exact Hsa.
            rewrite lookup_insert_ne by congruence.
            now rewrite lookup_insert_eq.
          + rewrite Hremaining. rewrite List.Forall_forall in HsomeA |- *.
            intros l' Hl'. apply List.filter_In in Hl'. apply HsomeA. tauto.
          + rewrite Hremaining. unfold removeSelected. rewrite <- HmapA.
            rewrite <- (map_readTeam_weaken h0 h elemsA Hsub HsomeA).
            rewrite <- (filter_map_comm (Store.readTeam h)
                          (fun t' => negb (String.eqb (userId t') (userId t)))).
            symmetry. apply (map_readTeam_weaken h0 h); [exact Hsub|].
            rewrite List.Forall_forall in HsomeA |- *.
            intros l' Hl'. apply List.filter_In in Hl'. apply HsomeA. tauto.
        - exists (x :: elemsS). split.
          + unfold Store.readArray, h5. cbn [Store.heap].
            now rewrite lookup_insert_eq.
          + cbn [Store.heap]. constructor.
            * unfold h5, h4. rewrite lookup_insert_ne by exact Hsx.
              apply lookup_insert_eq.
            * eapply Forall2_impl; [exact Hrecs|].
              intros y sy Hy. cbn beta in Hy.
              assert (y <> sels) by (intros E; rewrite E in Hy; congruence).
              assert (y <> x) by (intros E; rewrite E in Hy; congruence).
              assert (y <> a) by (intros E; rewrite E in Hy; congruence).
              unfold h5, h4, h3. rewrite !lookup_insert_ne by congruence.
              exact Hy. }
      specialize (IH (pick + 1) totalTeams delay cb a sels (Store.mkStore h5 w5)
                     (removeSelected teams t) (s :: records) Hrep5).
      cbv zeta in IH. cbn [Store.world] in IH.
      assert (Hw5 : w5 = match cb with
                         | Observer =>
                             mkWorld (randomCalls w2)
                               (OnSelection t (totalTeams - pick + 1) pick :: events w2)
                         | NotAFunction => w2
                         end).
      { unfold w5. now rewrite Hw. }
      rewrite <- Hw5. exact IH.
    + cbn [fst snd]. split; [exact Hw | congruence].
Qed.

(** The run over the store does to the world what the run over the teams
    that the array holds does, throws when and what it throws, and returns an
    array of the records it returns. *)
Lemma store_run_sim teams cb delay st :
  (forall elems, Store.readArray (Store.heap st) teams = Some elems ->
                 Forall (fun l => is_Some (Store.heap st !! l)) elems) ->
  let res := Store.runNBALottery random teams cb delay st in
  let pure := runNBALottery random
                (match Store.readArray (Store.heap st) teams with
                 | Some elems => map (Store.readTeam (Store.heap st)) elems
                 | None => []
                 end) cb delay (Store.world st) in
  Store.world (fst res) = fst pure /\
  match snd res with
  | Ok r => exists out, snd pure = Ok out /\ Store.denotes (Store.heap (fst res)) r out
  | Throw e => snd pure = Throw e
  end.
Proof.
  intros Hwf. cbv zeta.
  destruct (Store.readArray (Store.heap st) teams) as [[|e elems]|] eqn:Hread.
  - rewrite store_run_guard by (right; exact Hread). now split.
  - assert (Hne : e :: elems <> []) by discriminate.
    rewrite (store_run_unfold random teams cb delay st _ Hread Hne). cbv zeta.
    set (h := Store.heap st). set (s := fresh (dom h)).
    set (h1 := <[s := _]> h). set (a := fresh (dom h1)).
    assert (Hs : h !! s = None) by apply fresh_lookup_None.
    assert (Ha : h1 !! a = None) by apply fresh_lookup_None.
    assert (Hsa : s <> a).
    { intros E. rewrite <- E in Ha. unfold h1 in Ha.
      rewrite lookup_insert_eq in Ha. discriminate. }
    assert (Hha : h !! a = None).
    { unfold h1 in Ha. now rewrite lookup_insert_ne in Ha by exact Hsa. }
    unfold runNBALottery.
    change (match map (Store.readTeam h) (e :: elems) with
            | [] => throw EmptyLottery
            | _ :: _ =>
                lotteryLoop random
                  (List.length (map (Store.readTeam h) (e :: elems))) 1
                  (Z.of_nat (List.length (map (Store.readTeam h) (e :: elems))))
                  (normalizeDelay delay) cb (map (Store.readTeam h) (e :: elems)) []
            end (Store.world st))
      with (lotteryLoop random
              (List.length (map (Store.readTeam h) (e :: elems))) 1
              (Z.of_nat (List.length (map (Store.readTeam h) (e :: elems))))
              (normalizeDelay delay) cb (map (Store.readTeam h) (e :: elems)) []
              (Store.world st)).
    rewrite List.length_map.
    apply (store_loop_sim h (List.length (e :: elems)) 1
             (Z.of_nat (List.length (e :: elems))) (normalizeDelay delay) cb a s
             (Store.mkStore (<[a := Store.OArray (e :: elems)]> h1) (Store.world st))
             (map (Store.readTeam h) (e :: elems)) []).
    split; [|split].
    + split; [|split; [exact Hs|]].
      * cbn [Store.heap]. apply insert_subseteq_r; [exact Hha|].
        apply insert_subseteq. exact Hs.
      * exists []. split; [|constructor]. cbn [Store.heap].
        rewrite lookup_insert_ne by congruence. apply lookup_insert_eq.
    + exists (e :: elems). split; [|split; [apply Hwf; reflexivity | reflexivity]].
      unfold Store.readArray. cbn [Store.heap]. now rewrite lookup_insert_eq.
    + exists []. split; [|constructor].
      unfold Store.readArray, h1. cbn [Store.heap].
      rewrite lookup_insert_ne by congruence. now rewrite lookup_insert_eq.
  - rewrite store_run_guard by (left; exact Hread). now split.
Qed.

End Simulation.

(** ** The generators (C7) *)

Lemma sumZ_cons (x : Z) (l : list Z) : sumZ (x :: l) = x + sumZ l.
Proof. reflexivity. Qed.

Lemma sumZ_repeat (x : Z) (n : nat) : sumZ (repeat x n) = Z.of_nat n * x.
Proof.
  induction n as [|n IH]; [reflexivity|].
  cbn [repeat]. rewrite sumZ_cons, IH. lia.
Qed.

Lemma alter_succ_cons (x : Z) (l : list Z) (i : nat) :
  alter Z.succ (S i) (x :: l) = x :: alter Z.succ i l.
Proof. reflexivity. Qed.

Lemma alter_succ_head (x : Z) (l : list Z) :
  alter Z.succ 0%nat (x :: l) = Z.succ x :: l.
Proof. reflexivity. Qed.

Lemma sumZ_alter_succ (l : list Z) : forall i,
  (i < List.length l)%nat -> sumZ (alter Z.succ i l) = sumZ l + 1.
Proof.
  induction l as [|x l IH]; intros i Hi; simpl in Hi; [lia|].
  destruct i as [|i].
  - rewrite alter_succ_head, !sumZ_cons. lia.
  - rewrite alter_succ_cons, !sumZ_cons, IH by lia. lia.
Qed.

Lemma Forall_alter_succ (l : list Z) : forall i,
  Forall (fun c => 0 <= c) l -> Forall (fun c => 0 <= c) (alter Z.succ i l).
Proof.
  induction l as [|x l IH]; intros i H; [constructor|].
  inversion H; subst. destruct i as [|i].
  - rewrite alter_succ_head. constructor; [lia | assumption].
  - rewrite alter_succ_cons. constructor; [assumption | now apply IH].
Qed.

Lemma length_alter_succ (l : list Z) : forall i,
  List.length (alter Z.succ i l) = List.length l.
Proof.
  induction l as [|x l IH]; intros [|i]; try reflexivity.
  rewrite alter_succ_cons. simpl. now rewrite IH.
Qed.

Lemma incrementFirst_facts count : forall i cs,
  (i + count <= List.length cs)%nat ->
  Forall (fun c => 0 <= c) cs ->
  exactDistribution (incrementFirst count i cs) (List.length cs)
                    (sumZ cs + Z.of_nat count).
Proof.
  induction count as [|count IH]; intros i cs Hi Hnn.
  - simpl. repeat split; [exact Hnn | lia].
  - cbn [incrementFirst].
    destruct (IH (S i) (alter Z.succ i cs)) as (Hlen & Hall & Hsum).
    + rewrite length_alter_succ. lia.
    + now apply Forall_alter_succ.
    + rewrite length_alter_succ in Hlen.
      rewrite sumZ_alter_succ in Hsum by lia.
      repeat split; [exact Hlen | exact Hall | lia].
Qed.

(** The index that [generateEqualCombinations] increments is inside the
    array. *)
Lemma equal_remainder_in_range (numTeams : nat) (total : Z) :
  (1 <= numTeams)%nat -> 0 <= total ->
  (Z.to_nat (Z.rem total (Z.of_nat numTeams)) < numTeams)%nat.
Proof.
  intros HN HT.
  pose proof (Z.rem_bound_pos total (Z.of_nat numTeams) HT ltac:(lia)). lia.
Qed.

Lemma equal_exact (numTeams : nat) (total : Z) :
  (1 <= numTeams)%nat -> 0 <= total ->
  exactDistribution (generateEqualCombinations numTeams total) numTeams total.
Proof.
  intros HN HT. unfold generateEqualCombinations.
  pose proof (equal_remainder_in_range numTeams total HN HT) as Hrange.
  pose proof (Z.rem_bound_pos total (Z.of_nat numTeams) HT ltac:(lia)) as Hrem.
  set (base := total / Z.of_nat numTeams).
  set (remainder := Z.rem total (Z.of_nat numTeams)) in *.
  destruct (incrementFirst_facts (Z.to_nat remainder) 0 (repeat base numTeams))
    as (Hlen & Hall & Hsum).
  - rewrite List.repeat_length. lia.
  - apply List.Forall_forall. intros x Hx. apply List.repeat_spec in Hx. subst x.
    unfold base. apply Z.div_pos; lia.
  - rewrite List.repeat_length in Hlen. rewrite sumZ_repeat in Hsum.
    repeat split; [exact Hlen | exact Hall |].
    rewrite Hsum. unfold base, remainder.
    rewrite Z.rem_mod_nonneg by lia.
    assert (HN0 : Z.of_nat numTeams <> 0) by lia.
    pose proof (Z.div_mod total (Z.of_nat numTeams) HN0).
    pose proof (Z.mod_pos_bound total (Z.of_nat numTeams) ltac:(lia)).
    rewrite Z2Nat.id by lia. lia.
Qed.

(** *** Rounding never overdraws the total: the linear shares

    The shares as [Math.round] would give them from the exact quotients;
    those that the code rounds from doubles are no larger (see
    [linear_share]).  For shares [k = 1..j] of a total [T] over [D], write [m k] for the rounded
    share and [r k = 2kT - 2S (m k)] for twice the scaled rounding residue.
    The residues stay within [-D, D), the rounded shares grow with [k], and
    the square of [r j + 2T] is bounded by [4T] times the sum of the residues
    so far plus [(j+1) T], so that sum never falls below [-(j+1) T]. *)

Section LinearShares.

Variables T D : Z.
Hypothesis T_nonneg : 0 <= T.
Hypothesis D_pos : 0 < D.

Local Abbreviation m := (roundedShare T D).
Local Abbreviation r := (roundingResidue T D).

Lemma residue_bounds k : - D <= r k < D.
Proof.
  unfold r, m.
  pose proof (Z.div_mod (2 * k * T + D) (2 * D) ltac:(lia)) as Hdm.
  pose proof (Z.mod_pos_bound (2 * k * T + D) (2 * D) ltac:(lia)) as Hb.
  lia.
Qed.

Lemma rounded_share_mono k : m k <= m (k + 1).
Proof. unfold m. apply Z.div_le_mono; [lia | nia]. Qed.

Lemma rounded_share_zero : m 0 = 0.
Proof. unfold m. apply Z.div_small. lia. Qed.

Lemma residue_square_step k : (r (k + 1)) ^ 2 <= (r k + 2 * T) ^ 2.
Proof.
  pose proof (residue_bounds (k + 1)) as Hb.
  pose proof (rounded_share_mono k) as Hm.
  set (q := m (k + 1) - m k).
  assert (Hq : 0 <= q) by (unfold q; lia).
  assert (Hr : r k + 2 * T = r (k + 1) + 2 * D * q) by (unfold r, q; lia).
  rewrite Hr.
  assert (Hprod : 0 <= q * (r (k + 1) + D * q)).
  { destruct (Z.eq_dec q 0) as [->|Hq0]; [lia|].
    apply Z.mul_nonneg_nonneg; [exact Hq|]. nia. }
  nia.
Qed.

Lemma seq_snoc_sum (f : nat -> Z) (j : nat) :
  sumZ (map f (seq 1 (S j))) = sumZ (map f (seq 1 j)) + f (S j).
Proof.
  rewrite List.seq_S, List.map_app, sumZ_app. simpl. lia.
Qed.

Lemma residue_potential (j : nat) :
  (r (Z.of_nat j) + 2 * T) ^ 2
  <= 4 * T * (sumZ (map (fun k => r (Z.of_nat k)) (seq 1 j)) + (Z.of_nat j + 1) * T).
Proof.
  induction j as [|j IH].
  - change (Z.of_nat 0) with 0. unfold r. rewrite rounded_share_zero.
    change (sumZ (map _ (seq 1 0))) with 0. nia.
  - rewrite seq_snoc_sum.
    pose proof (residue_square_step (Z.of_nat j)) as Hstep.
    replace (Z.of_nat j + 1) with (Z.of_nat (S j)) in Hstep by lia.
    set (r' := r (Z.of_nat (S j))) in *.
    set (R := sumZ _) in *.
    replace (Z.of_nat (S j) + 1) with (Z.of_nat j + 2) by lia.
    nia.
Qed.

Lemma residue_sum (j : nat) :
  sumZ (map (fun k => r (Z.of_nat k)) (seq 1 j))
  = T * Z.of_nat j * (Z.of_nat j + 1)
    - 2 * D * sumZ (map (fun k => m (Z.of_nat k)) (seq 1 j)).
Proof.
  induction j as [|j IH]; [simpl; lia|].
  rewrite !seq_snoc_sum, IH. unfold r. nia.
Qed.

(** The rounded shares [1..j] of [T] over [D = (j+1)(j+2)/2] sum to at most
    [T]. *)
Lemma rounded_shares_within_total (j : nat) :
  2 * D = (Z.of_nat j + 1) * (Z.of_nat j + 2) ->
  sumZ (map (fun k => m (Z.of_nat k)) (seq 1 j)) <= T.
Proof.
  intros HS.
  pose proof (residue_potential j) as Hpot.
  pose proof (residue_sum j) as Hsum.
  set (R := sumZ (map (fun k => r (Z.of_nat k)) (seq 1 j))) in *.
  set (M := sumZ (map (fun k => m (Z.of_nat k)) (seq 1 j))) in *.
  destruct (Z.eq_dec T 0) as [HT0|HT0].
  - assert (HM : M = 0); [|lia].
    unfold M. clear - HT0 D_pos.
    induction j as [|j IH]; [reflexivity|].
    rewrite seq_snoc_sum, IH. unfold m. rewrite HT0.
    replace (2 * Z.of_nat (S j) * 0 + D) with D by lia.
    rewrite Z.div_small by lia. lia.
  - assert (Hsq : 0 <= (r (Z.of_nat j) + 2 * T) ^ 2) by nia.
    assert (HR : - (Z.of_nat j + 1) * T <= R) by nia.
    assert (H2 : 2 * D * M <= 2 * D * T) by nia.
    nia.
Qed.

End LinearShares.

(** Summing [g (j+1-i)] for [i = 1..j] is summing [g k] for [k = 1..j]. *)
Lemma sum_reversed (g : Z -> Z) (j : nat) :
  sumZ (map (fun i : nat => g (Z.of_nat (S j) - Z.of_nat i)) (seq 1 j))
  = sumZ (map (fun k : nat => g (Z.of_nat k)) (seq 1 j)).
Proof.
  induction j as [|j IH]; [reflexivity|].
  rewrite (seq_snoc_sum (fun k : nat => g (Z.of_nat k)) j).
  change (seq 1 (S j)) with (1%nat :: seq 2 j).
  rewrite <- List.seq_shift. cbn [map]. rewrite sumZ_cons, List.map_map.
  replace (Z.of_nat (S (S j)) - Z.of_nat 1) with (Z.of_nat (S j)) by lia.
  rewrite <- IH.
  assert (E : map (fun x : nat => g (Z.of_nat (S (S j)) - Z.of_nat (S x))) (seq 1 j)
              = map (fun i : nat => g (Z.of_nat (S j) - Z.of_nat i)) (seq 1 j)).
  { apply List.map_ext. intros i. f_equal. lia. }
  rewrite E. lia.
Qed.

Lemma triangular_exact (n : Z) : 2 * (n * (n + 1) / 2) = n * (n + 1).
Proof.
  destruct (Z.Even_or_Odd n) as [[k ->]|[k ->]].
  - replace (2 * k * (2 * k + 1)) with (k * (2 * k + 1) * 2) by ring.
    rewrite Z.div_mul by lia. ring.
  - replace ((2 * k + 1) * (2 * k + 1 + 1)) with ((2 * k + 1) * (k + 1) * 2) by ring.
    rewrite Z.div_mul by lia. ring.
Qed.


(** C7: the comment in generateExponentialCombinations says 'Adjust to
    ensure total is exactly correct', which is what the claim states, but for
    N = 1025 teams and the total 1000 the first weight, Math.pow(2, 1024), is
    Infinity: the sum of the weights is Infinity, the first share is
    Infinity / Infinity = NaN, every other share is 0, and the adjustment
    adds 1000 to NaN.  The generator returns NaN followed by 1024 zeros: not
    N integers that sum to the total. *)
Theorem exponential_generator_overflows :
  generateExponentialCombinations 1025 1000
  = Number.NaN :: repeat (Number.ofZ 0) 1024 /\
  forall cs : list Z, generateExponentialCombinations 1025 1000 <> map Number.ofZ cs.
Proof.
  assert (E : generateExponentialCombinations 1025 1000
              = Number.NaN :: repeat (Number.ofZ 0) 1024) by (vm_compute; reflexivity).
  split; [exact E|]. intros cs H. rewrite E in H.
  destruct cs; discriminate H.
Qed.


(** * Further properties of the code *)

(** ** The outcomes of one draw *)

Lemma winner_member (teams : list Team) (r : Z) (d : Team) :
  teams <> [] ->
  In (match walk teams r 0 with
      | Some team => team
      | None => List.last teams d
      end) teams.
Proof.
  intros Hne. destruct (walk teams r 0) as [y|] eqn:Hwalk.
  - apply walk_some_positive in Hwalk. tauto.
  - destruct teams as [|x teams]; [congruence|]. apply last_In.
Qed.

Lemma select_returns_member random teams w w' t :
  selectWinnerByCombinations random teams w = (w', Ok t) -> In t teams.
Proof.
  intros H. destruct teams as [|x teams]; [discriminate|].
  destruct (Z.eq_dec (sumZ (map combinations (x :: teams))) 0) as [E|E].
  - rewrite select_zero_total in H by (assumption || discriminate). discriminate.
  - rewrite select_nonzero_total in H by exact E.
    assert (Hok : forall a b : Team, Ok a = Ok b -> a = b) by (intros a b [= ->]; reflexivity).
    apply (f_equal snd) in H. cbn [snd] in H. apply Hok in H. rewrite <- H.
    apply winner_member. discriminate.
Qed.

(** X1: whatever the array and whatever Math.random() returns,
    selectWinnerByCombinations either returns an element of the array, after
    exactly one call of Math.random(), the total being other than zero; or
    throws with the world untouched: 'Cannot select from empty teams array' on
    the empty array, 'Total combinations cannot be zero' on a non-empty array
    whose total is zero. *)
Theorem draw_outcomes (random : nat -> Q) (teams : list Team) (w : World) :
  match selectWinnerByCombinations random teams w with
  | (w', Ok t) =>
      In t teams /\ w' = afterRandom w /\
      calculateTotalCombinations (weights teams) <> 0
  | (w', Throw e) =>
      w' = w /\
      ((teams = [] /\ e = EmptyTeamsArray) \/
       (teams <> [] /\ calculateTotalCombinations (weights teams) = 0 /\
        e = ZeroTotalCombinations))
  end.
Proof.
  rewrite calculateTotalCombinations_sum, weights_combinations.
  destruct teams as [|x teams].
  - rewrite select_empty. split; [reflexivity|]. left. now split.
  - destruct (Z.eq_dec (sumZ (map combinations (x :: teams))) 0) as [E|E].
    + rewrite select_zero_total by (assumption || discriminate).
      split; [reflexivity|]. right. repeat split; [discriminate | exact E].
    + rewrite select_nonzero_total by exact E.
      split; [|split; [reflexivity | exact E]].
      apply winner_member. discriminate.
Qed.

(** ** The odds of one draw *)






(** ** Removing the drawn team *)


Lemma removeSelected_no_id teams t x :
  In x (removeSelected teams t) -> userId x <> userId t.
Proof.
  unfold removeSelected. intros H. apply List.filter_In in H.
  destruct H as [_ H]. apply negb_true_iff in H. now apply String.eqb_neq.
Qed.



(** ** What a returned result tells *)

Lemma filter_length_le {A} (f : A -> bool) (l : list A) :
  (List.length (List.filter f l) <= List.length l)%nat.
Proof. induction l as [|a l IH]; simpl; [lia|]. destruct (f a); simpl; lia. Qed.

Lemma filter_length_all {A} (f : A -> bool) (l : list A) :
  List.length (List.filter f l) = List.length l -> forall x, In x l -> f x = true.
Proof.
  induction l as [|a l IH]; intros Hlen x Hx; [destruct Hx|].
  simpl in Hlen. pose proof (filter_length_le f l) as Hle.
  destruct (f a) eqn:Ha; simpl in Hlen; [|lia].
  destruct Hx as [<-|Hx]; [exact Ha|]. apply IH; [lia | exact Hx].
Qed.

Lemma removeSelected_shorter teams t :
  In t teams -> (List.length (removeSelected teams t) < List.length teams)%nat.
Proof.
  unfold removeSelected. induction teams as [|a teams IH]; intros Hin; [destruct Hin|].
  simpl. destruct Hin as [->|Hin].
  - rewrite String.eqb_refl. simpl.
    pose proof (filter_length_le
                  (fun x => negb (String.eqb (userId x) (userId t))) teams). lia.
  - specialize (IH Hin). destruct (negb _); simpl; lia.
Qed.

(** When the removal shortens the pool by one, it removed the drawn team
    only, and no other team carried its identifier. *)
Lemma removal_by_one teams t :
  In t teams ->
  S (List.length (removeSelected teams t)) = List.length teams ->
  Permutation teams (t :: removeSelected teams t).
Proof.
  unfold removeSelected. induction teams as [|a teams IH]; intros Hin Hlen;
    [destruct Hin|].
  simpl in Hlen |- *.
  destruct (String.eqb_spec (userId a) (userId t)) as [E|E]; simpl in Hlen |- *.
  - assert (Hall : List.length
                     (List.filter (fun x => negb (String.eqb (userId x) (userId t))) teams)
                   = List.length teams) by lia.
    pose proof (filter_length_all _ _ Hall) as Hkept.
    destruct Hin as [->|Hin].
    + rewrite filter_all by exact Hkept. reflexivity.
    + specialize (Hkept t Hin). cbn beta in Hkept.
      rewrite String.eqb_refl in Hkept. discriminate.
  - destruct Hin as [->|Hin]; [congruence|].
    rewrite perm_swap. constructor. apply IH; [exact Hin | lia].
Qed.

Section Returned.

Variable random : nat -> Q.

Lemma loop_returned n :
  forall avail pick totalTeams delay cb sels w out,
    (List.length avail <= n)%nat ->
    snd (lotteryLoop random n pick totalTeams delay cb avail sels w) = Ok out ->
    List.length avail = n /\
    uniqueIds avail /\ truthyIds avail /\
    exists new,
      out = new ++ sels /\
      Permutation (map selected_team new) avail /\
      map pickNumber (rev new) = map (fun k => pick + Z.of_nat k) (seq 0 n) /\
      Forall (fun s => position s = totalTeams - pickNumber s + 1) new.
Proof.
  induction n as [|n IH]; intros avail pick totalTeams delay cb sels w out Hlen Hres.
  - destruct avail; [|simpl in Hlen; lia]. simpl in Hres. injection Hres as <-.
    split; [reflexivity|]. split; [constructor|]. split; [constructor|].
    exists []. repeat split; constructor.
  - rewrite loop_step in Hres.
    destruct (selectWinnerByCombinations random avail _) as [w2 [t|e]] eqn:Hsel;
      [|discriminate].
    pose proof (select_returns_member _ _ _ _ _ Hsel) as Hin.
    destruct (falsy (userId t)) eqn:Hfalsy; [discriminate|].
    pose proof (removeSelected_shorter avail t Hin) as Hshort.
    apply IH in Hres; [|lia].
    destruct Hres as (Hlen' & Hid' & Htr' & new & -> & Hperm & Hpicks & Hpos).
    assert (HlenA : List.length avail = S n) by lia.
    pose proof (removal_by_one avail t Hin ltac:(lia)) as Hone.
    assert (Htruthy : userId t <> EmptyString).
    { intros E. rewrite E in Hfalsy. discriminate. }
    split; [exact HlenA|]. split; [|split].
    + unfold uniqueIds. eapply Permutation_NoDup.
      * apply Permutation_map. symmetry. exact Hone.
      * cbn [map]. constructor; [|exact Hid'].
        intros Hx. apply in_map_iff in Hx. destruct Hx as (x & E & Hx).
        apply removeSelected_no_id in Hx. congruence.
    + unfold truthyIds. eapply Permutation_Forall; [symmetry; exact Hone|].
      constructor; assumption.
    + exists (new ++ [mkSelection t pick (totalTeams - pick + 1)]).
      split; [now rewrite <- List.app_assoc|]. split; [|split].
      * rewrite List.map_app. cbn [map selected_team]. rewrite Hone.
        rewrite <- Permutation_cons_append. now constructor.
      * rewrite List.rev_app_distr. cbn [rev app map pickNumber]. rewrite Hpicks.
        cbn [seq map]. f_equal; [lia|].
        rewrite <- List.seq_shift, List.map_map.
        apply List.map_ext. intros k. lia.
      * apply Forall_app. split; [exact Hpos|].
        constructor; [reflexivity | constructor].
Qed.

End Returned.

(** X4: whatever the input and whatever Math.random() returns, a run that
    returns at all returns a complete ranking: exactly N records holding the
    input teams each exactly once, with pick numbers N, N-1, ..., 1 in the
    order returned and positions N - pickNumber + 1; and the input then had
    unique, non-empty identifiers.  A partial or repeated ranking is never
    returned. *)
Theorem returned_result_is_complete_ranking (random : nat -> Q) (teams : list Team)
    (onSelection : Callback) (delay : option Z) (w : World) (sels : list Selection) :
  snd (runNBALottery random teams onSelection delay w) = Ok sels ->
  let N := List.length teams in
  (1 <= N)%nat /\
  List.length sels = N /\
  Permutation (map selected_team sels) teams /\
  map pickNumber sels = rev (map Z.of_nat (seq 1 N)) /\
  Forall (fun s => position s = Z.of_nat N - pickNumber s + 1) sels /\
  uniqueIds teams /\ truthyIds teams.
Proof.
  intros Hres N. unfold runNBALottery in Hres.
  destruct teams as [|x teams]; [discriminate|].
  apply loop_returned in Hres; [|lia].
  destruct Hres as (_ & Hid & Htr & new & -> & Hperm & Hpicks & Hpos).
  rewrite List.app_nil_r.
  split; [unfold N; simpl; lia|].
  split; [|split; [exact Hperm | split; [|split; [exact Hpos|]]]].
  - apply Permutation_length in Hperm. now rewrite List.length_map in Hperm.
  - rewrite <- (List.rev_involutive (map pickNumber new)). f_equal.
    rewrite <- List.map_rev, Hpicks. fold N.
    rewrite <- List.seq_shift, List.map_map.
    apply List.map_ext. intros k. lia.
  - split; assumption.
Qed.

Lemma returned_result_is_complete_ranking_witness :
  let teams := [mkTeam "a" "A" 5; mkTeam "c" "C" 3] in
  let sels := [mkSelection (mkTeam "c" "C" 3) 2 1; mkSelection (mkTeam "a" "A" 5) 1 2] in
  Permutation (map selected_team sels) teams /\ uniqueIds teams.
Proof.
  pose proof (returned_result_is_complete_ranking (fun _ => 0%Q)
                [mkTeam "a" "A" 5; mkTeam "c" "C" 3] Observer (Some 0) initialWorld
                [mkSelection (mkTeam "c" "C" 3) 2 1; mkSelection (mkTeam "a" "A" 5) 1 2]
                eq_refl) as H.
  cbv zeta in H. destruct H as (_ & _ & Hperm & _ & _ & Hid & _).
  split; [exact Hperm | exact Hid].
Defined.

(** ** A weight of zero in the input *)

Lemma filter_length_perm {A} (f : A -> bool) (l1 l2 : list A) :
  Permutation l1 l2 ->
  List.length (List.filter f l1) = List.length (List.filter f l2).
Proof.
  induction 1 as [|x l1 l2 _ IH|x y l|l1 l2 l3 _ IH1 _ IH2]; simpl.
  - reflexivity.
  - destruct (f x); simpl; lia.
  - destruct (f x), (f y); reflexivity.
  - lia.
Qed.

Lemma select_ok_world random teams w w' t :
  selectWinnerByCombinations random teams w = (w', Ok t) -> w' = afterRandom w.
Proof.
  intros H. destruct (select_cases random teams w) as [E|[E|[x E]]];
    rewrite E in H; congruence.
Qed.

Lemma no_positive_zero_sum teams :
  nonNegativeWeights teams ->
  ~ Exists (fun x => 0 < combinations x) teams ->
  sumZ (map combinations teams) = 0.
Proof.
  induction 1 as [|x teams Hx _ IH]; intros Hno; [reflexivity|].
  cbn [map]. rewrite sumZ_cons.
  assert (combinations x = 0).
  { destruct (Z.eq_dec (combinations x) 0); [assumption|].
    exfalso. apply Hno. left. lia. }
  rewrite IH; [lia|]. intros H'. apply Hno. now right.
Qed.

Section ZeroWeight.

Variable random : nat -> Q.
Hypothesis random_unit : unitInterval random.

Lemma loop_zero_weight n :
  forall avail pick totalTeams delay cb sels w,
    List.length avail = n ->
    uniqueIds avail -> truthyIds avail -> nonNegativeWeights avail ->
    Exists (fun x => combinations x = 0) avail ->
    let run := lotteryLoop random n pick totalTeams delay cb avail sels w in
    snd run = Throw ZeroTotalCombinations /\
    randomCalls (fst run)
      = (randomCalls w
         + List.length (List.filter (fun x => (0 <? combinations x)%Z) avail))%nat.
Proof.
  induction n as [|n IH];
    intros avail pick totalTeams delay cb sels w Hlen Hid Htr Hnn Hzero.
  - destruct avail; [inversion Hzero | discriminate].
  - cbv zeta. rewrite loop_step.
    set (w1 := mkWorld (randomCalls w) (SetTimeout delay :: events w)).
    destruct (List.Exists_dec (fun x => 0 < combinations x) avail
                (fun x => ZArith_dec.Z_lt_dec 0 (combinations x))) as [Hex|Hno].
    + destruct (select_succeeds random random_unit avail w1 Hnn Hex)
        as (t & Hsel & Hwalk).
      rewrite Hsel. apply walk_some_positive in Hwalk. destruct Hwalk as [Hin Hpos].
      rewrite falsy_false
        by (unfold truthyIds in Htr; rewrite List.Forall_forall in Htr; now apply Htr).
      pose proof (removeSelected_perm avail t Hid Hin) as Hperm.
      assert (Hlen' : List.length (removeSelected avail t) = n).
      { apply Permutation_length in Hperm. simpl in Hperm. lia. }
      assert (Hzero' : Exists (fun x => combinations x = 0) (removeSelected avail t)).
      { apply List.Exists_exists in Hzero. destruct Hzero as (z & Hz & Hz0).
        apply List.Exists_exists. exists z. split; [|exact Hz0].
        eapply Permutation_in in Hz; [|exact Hperm].
        destruct Hz as [<-|Hz]; [lia | exact Hz]. }
      specialize (IH (removeSelected avail t) (pick + 1) totalTeams delay cb
                     (mkSelection t pick (totalTeams - pick + 1) :: sels)
                     (match cb with
                      | Observer =>
                          mkWorld (randomCalls (afterRandom w1))
                            (OnSelection t (totalTeams - pick + 1) pick
                               :: events (afterRandom w1))
                      | NotAFunction => afterRandom w1
                      end)
                     Hlen' (removeSelected_unique _ _ Hid)
                     (removeSelected_Forall _ _ _ Htr)
                     (removeSelected_Forall _ _ _ Hnn) Hzero').
      cbv zeta in IH. destruct IH as [Hres Hcalls].
      split; [exact Hres|]. rewrite Hcalls.
      rewrite (filter_length_perm (fun x => 0 <? combinations x) avail
                 (t :: removeSelected avail t) Hperm).
      cbn [List.filter]. replace (0 <? combinations t) with true
        by (symmetry; apply Z.ltb_lt; exact Hpos).
      cbn [List.length]. destruct cb; simpl; lia.
    + assert (Hne : avail <> []) by (intros ->; inversion Hzero).
      rewrite select_zero_total
        by (assumption || apply no_positive_zero_sum; assumption).
      cbn [fst snd]. split; [reflexivity|].
      rewrite (List.filter_ext_in _ (fun _ => false)).
      * replace (List.length (List.filter (fun _ => false) avail)) with 0%nat;
          [simpl; lia|].
        clear. induction avail; simpl; auto.
      * intros x Hx. apply Z.ltb_ge.
        destruct (Z.lt_ge_cases 0 (combinations x)) as [Hp|Hp]; [|exact Hp].
        exfalso. apply Hno. apply List.Exists_exists. eauto.
Qed.

End ZeroWeight.

(** X5: over teams with unique, non-empty identifiers and weights that are
    not negative, one weight of 0 is enough to make the run fail: every team
    of positive weight is drawn first, one Math.random() call each, and the
    next draw throws 'Total combinations cannot be zero'; no result is
    returned. *)
Theorem zero_weight_makes_run_throw (random : nat -> Q) (teams : list Team)
    (onSelection : Callback) (delay : option Z) (w : World) :
  unitInterval random ->
  uniqueIds teams -> truthyIds teams -> nonNegativeWeights teams ->
  Exists (fun x => combinations x = 0) teams ->
  let run := runNBALottery random teams onSelection delay w in
  snd run = Throw ZeroTotalCombinations /\
  randomCalls (fst run)
    = (randomCalls w
       + List.length (List.filter (fun x => (0 <? combinations x)%Z) teams))%nat.
Proof.
  intros Hu Hid Htr Hnn Hzero. unfold runNBALottery.
  destruct teams as [|x teams]; [inversion Hzero|].
  apply (loop_zero_weight random Hu); auto.
Qed.

Lemma zero_weight_makes_run_throw_witness :
  let teams := [mkTeam "a" "A" 5; mkTeam "z" "Z" 0; mkTeam "c" "C" 3] in
  let run := runNBALottery (fun _ => 1 # 2) teams Observer None initialWorld in
  snd run = Throw ZeroTotalCombinations /\ randomCalls (fst run) = 2%nat.
Proof.
  apply (zero_weight_makes_run_throw (fun _ => 1 # 2)
           [mkTeam "a" "A" 5; mkTeam "z" "Z" 0; mkTeam "c" "C" 3]
           Observer None initialWorld).
  - intros k. split; [discriminate | reflexivity].
  - repeat constructor; simpl; intuition discriminate.
  - repeat constructor; discriminate.
  - repeat constructor; simpl; lia.
  - right. left. reflexivity.
Defined.

(** ** Pacing *)

Section Pacing.

Variable random : nat -> Q.

Lemma loop_events n :
  forall avail pick totalTeams delay cb sels w out,
    snd (lotteryLoop random n pick totalTeams delay cb avail sels w) = Ok out ->
    let after := fst (lotteryLoop random n pick totalTeams delay cb avail sels w) in
    exists new,
      out = new ++ sels /\
      chronological after
        = chronological w ++ flat_map (timerThenCall delay cb) (rev new) /\
      randomCalls after = (randomCalls w + n)%nat.
Proof.
  induction n as [|n IH]; intros avail pick totalTeams delay cb sels w out Hres.
  - simpl in Hres. injection Hres as <-. exists []. simpl.
    rewrite List.app_nil_r. repeat split. lia.
  - cbv zeta. rewrite loop_step in Hres |- *.
    set (w1 := mkWorld (randomCalls w) (SetTimeout delay :: events w)) in *.
    destruct (selectWinnerByCombinations random avail w1) as [w2 [t|e]] eqn:Hsel;
      [|discriminate].
    apply select_ok_world in Hsel. subst w2.
    destruct (falsy (userId t)); [discriminate|].
    set (s := mkSelection t pick (totalTeams - pick + 1)) in *.
    set (w3 := match cb with Observer => _ | NotAFunction => _ end) in *.
    destruct (IH _ _ _ _ _ _ _ _ Hres) as (new & -> & Hchron & Hcalls).
    exists (new ++ [s]). split; [now rewrite <- List.app_assoc|]. split.
    + rewrite Hchron. rewrite List.rev_app_distr. cbn [rev app flat_map].
      rewrite List.app_assoc. f_equal.
      unfold chronological, w3, timerThenCall, s.
      destruct cb; cbn [events afterRandom w1 rev selected_team position pickNumber];
        unfold w1; cbn [events rev]; rewrite <- ?List.app_assoc; reflexivity.
    + rewrite Hcalls. unfold w3. destruct cb; simpl; lia.
Qed.

End Pacing.

(** X6: a run that returns has waited on one timer before each draw, always
    with the normalised delay (the default 1500 for a delay that is negative
    or not a number), has called the observer, if there is one, right after
    the draw and before the next timer, with the team, position and pick
    number of the record of that draw, and has called Math.random() exactly
    N times. *)
Theorem one_timer_before_each_draw (random : nat -> Q) (teams : list Team)
    (onSelection : Callback) (delay : option Z) (w : World) (sels : list Selection) :
  snd (runNBALottery random teams onSelection delay w) = Ok sels ->
  let after := fst (runNBALottery random teams onSelection delay w) in
  chronological after
    = chronological w
      ++ flat_map (timerThenCall (normalizeDelay delay) onSelection) (rev sels) /\
  randomCalls after = (randomCalls w + List.length teams)%nat.
Proof.
  intros Hres. unfold runNBALottery in *.
  destruct teams as [|x teams]; [discriminate|].
  destruct (loop_events random _ _ _ _ _ _ _ _ _ Hres) as (new & E & Hchron & Hcalls).
  rewrite List.app_nil_r in E. subst new. split; assumption.
Qed.

Lemma one_timer_before_each_draw_witness :
  let a := mkTeam "a" "A" 5 in
  let c := mkTeam "c" "C" 3 in
  chronological
    (fst (runNBALottery (fun _ => 0%Q) [a; c] Observer (Some (-5)) initialWorld))
  = [SetTimeout 1500; OnSelection a 2 1; SetTimeout 1500; OnSelection c 1 2].
Proof.
  apply (one_timer_before_each_draw (fun _ => 0%Q)
           [mkTeam "a" "A" 5; mkTeam "c" "C" 3] Observer (Some (-5)) initialWorld
           [mkSelection (mkTeam "c" "C" 3) 2 1; mkSelection (mkTeam "a" "A" 5) 1 2]
           eq_refl).
Defined.


(** ** The fixed tables and their extension *)

Lemma extendCombinations_split (a b : nat) : forall l,
  extendCombinations (a + b) l = extendCombinations b (extendCombinations a l).
Proof.
  induction a as [|a IH]; intros l; [reflexivity|].
  cbn [Nat.add extendCombinations]. apply IH.
Qed.

Lemma extendCombinations_prefix (k : nat) : forall l,
  exists ext, extendCombinations k l = l ++ ext /\ List.length ext = k.
Proof.
  induction k as [|k IH]; intros l.
  - exists []. now rewrite List.app_nil_r.
  - cbn [extendCombinations]. cbv zeta. set (next := Z.max 1 _).
    destruct (IH (l ++ [next])) as (ext & -> & Hlen).
    eexists. rewrite <- List.app_assoc. split; [reflexivity|]. simpl. lia.
Qed.

Lemma next_combination_bounds (last : Z) :
  1 <= last ->
  1 <= Z.max 1 (Qfloor (inject_Z last * (8 # 10))) <= last.
Proof.
  intros H. split; [lia|].
  apply Z.max_lub; [exact H|].
  assert (Hle : (inject_Z last * (8 # 10) <= inject_Z last)%Q).
  { unfold Qle, Qmult, inject_Z. simpl. lia. }
  apply Qfloor_resp_le in Hle. now rewrite Qfloor_Z in Hle.
Qed.

Lemma last_snoc {A} (l : list A) (x d : A) : List.last (l ++ [x]) d = x.
Proof. apply List.last_last. Qed.

Lemma nonIncreasing_last_least (l : list Z) (d : Z) :
  nonIncreasing l -> Forall (fun a => List.last l d <= a) l.
Proof.
  induction 1 as [|x l Hl IH Hx]; [constructor|].
  destruct l as [|y l]; [constructor; [simpl; lia | constructor]|].
  change (List.last (x :: y :: l) d) with (List.last (y :: l) d).
  constructor; [|exact IH].
  inversion IH as [|? ? Hy _]; subst. inversion Hx; subst. lia.
Qed.

Lemma nonIncreasing_snoc (l : list Z) (x : Z) :
  nonIncreasing l -> Forall (fun a => x <= a) l -> nonIncreasing (l ++ [x]).
Proof.
  induction 1 as [|y l Hl IH Hy]; intros Hx; simpl.
  - constructor; constructor.
  - inversion Hx; subst. constructor; [now apply IH|].
    apply Forall_app. split; [exact Hy|]. constructor; [assumption | constructor].
Qed.

Section Tables.

Variable table : list Z.
Hypothesis table_nonempty : table <> [].
Hypothesis table_positive : Forall (fun c => 1 <= c) table.
Hypothesis table_sorted : nonIncreasing table.

Lemma extendCombinations_shape (k : nat) : forall l,
  l <> [] -> Forall (fun c => 1 <= c) l -> nonIncreasing l ->
  Forall (fun c => 1 <= c) (extendCombinations k l) /\
  nonIncreasing (extendCombinations k l).
Proof.
  induction k as [|k IH]; intros l Hne Hpos Hsorted; [now split|].
  cbn [extendCombinations]. cbv zeta. set (next := Z.max 1 _).
  assert (Hlast : 1 <= List.last l 0).
  { destruct l as [|x l]; [congruence|].
    rewrite List.Forall_forall in Hpos. apply Hpos. apply last_In. }
  pose proof (next_combination_bounds _ Hlast) as Hnext. fold next in Hnext.
  apply IH.
  - destruct l; discriminate.
  - apply Forall_app. split; [exact Hpos|]. constructor; [lia | constructor].
  - apply nonIncreasing_snoc; [exact Hsorted|].
    eapply Forall_impl; [apply (nonIncreasing_last_least l 0 Hsorted)|].
    intros a Ha. cbn beta in Ha. lia.
Qed.

Lemma sliceOrExtend_length (n : nat) : List.length (sliceOrExtend table n) = n.
Proof.
  unfold sliceOrExtend. destruct (Nat.leb_spec n (List.length table)) as [H|H].
  - rewrite List.length_firstn. lia.
  - destruct (extendCombinations_prefix (n - List.length table) table)
      as (ext & -> & Hlen).
    rewrite List.length_app. lia.
Qed.

Lemma firstn_Forall {A} (P : A -> Prop) (l : list A) (n : nat) :
  Forall P l -> Forall P (firstn n l).
Proof.
  intros H. revert n. induction H as [|x l Hx _ IH]; intros [|n]; simpl;
    constructor; auto.
Qed.

Lemma firstn_nonIncreasing (l : list Z) (n : nat) :
  nonIncreasing l -> nonIncreasing (firstn n l).
Proof.
  intros H. revert n. induction H as [|x l Hl IH Hx]; intros [|n]; simpl;
    try (constructor; fail).
  constructor; [apply IH | now apply firstn_Forall].
Qed.

Lemma sliceOrExtend_shape (n : nat) :
  Forall (fun c => 1 <= c) (sliceOrExtend table n) /\
  nonIncreasing (sliceOrExtend table n).
Proof.
  unfold sliceOrExtend. destruct (Nat.leb_spec n (List.length table)) as [H|H].
  - split; [now apply firstn_Forall | now apply firstn_nonIncreasing].
  - now apply extendCombinations_shape.
Qed.

(** Asking for fewer teams gives the beginning of what more teams get. *)
Lemma sliceOrExtend_prefix (n m : nat) :
  (n <= m)%nat -> firstn n (sliceOrExtend table m) = sliceOrExtend table n.
Proof.
  intros Hnm. unfold sliceOrExtend.
  destruct (Nat.leb_spec m (List.length table)) as [Hm|Hm];
    destruct (Nat.leb_spec n (List.length table)) as [Hn|Hn]; try lia.
  - rewrite List.firstn_firstn. f_equal. lia.
  - destruct (extendCombinations_prefix (m - List.length table) table)
      as (ext & -> & Hlen).
    rewrite List.firstn_app. replace (n - List.length table)%nat with 0%nat by lia.
    simpl. now rewrite List.app_nil_r.
  - replace (m - List.length table)%nat
      with ((n - List.length table) + (m - n))%nat by lia.
    rewrite extendCombinations_split.
    destruct (extendCombinations_prefix (m - n)
                (extendCombinations (n - List.length table) table))
      as (ext & -> & Hlen).
    assert (Hlen' : List.length (extendCombinations (n - List.length table) table) = n).
    { destruct (extendCombinations_prefix (n - List.length table) table)
        as (ext' & -> & Hl). rewrite List.length_app. lia. }
    rewrite List.firstn_app, Hlen'. replace (n - n)%nat with 0%nat by lia.
    simpl. rewrite List.app_nil_r. rewrite <- Hlen' at 1. apply List.firstn_all.
Qed.

End Tables.

Lemma default_table_facts :
  LOTTERY.DEFAULT_COMBINATIONS <> [] /\
  Forall (fun c => 1 <= c) LOTTERY.DEFAULT_COMBINATIONS /\
  nonIncreasing LOTTERY.DEFAULT_COMBINATIONS.
Proof.
  split; [discriminate|]. split.
  - repeat constructor; lia.
  - unfold nonIncreasing. repeat (constructor; [|repeat constructor; lia]). constructor.
Qed.

Lemma nth_last_element (l : list Z) (d : Z) :
  nth (List.length l - 1) l d = List.last l d.
Proof.
  induction l as [|x l IH]; [reflexivity|].
  destruct l as [|y l]; [reflexivity|].
  change (List.last (x :: y :: l) d) with (List.last (y :: l) d).
  rewrite <- IH. cbn [List.length]. rewrite !Nat.sub_succ, !Nat.sub_0_r. reflexivity.
Qed.

(** Every element that the loop pushes is computed from the one before it. *)
Lemma extendCombinations_step (k : nat) : forall (l : list Z) (i : nat),
  l <> [] ->
  (List.length l <= i < List.length l + k)%nat ->
  nth i (extendCombinations k l) 0
  = Z.max 1 (Qfloor (inject_Z (nth (i - 1) (extendCombinations k l) 0) * (8 # 10))).
Proof.
  induction k as [|k IH]; intros l i Hne Hi; [lia|].
  cbn [extendCombinations]. cbv zeta. set (next := Z.max 1 _).
  destruct (Nat.eq_dec i (List.length l)) as [->|Hneq].
  - destruct (extendCombinations_prefix k (l ++ [next])) as (ext & -> & _).
    assert (Hlen : (0 < List.length l)%nat) by (destruct l; [congruence | simpl; lia]).
    rewrite <- List.app_assoc.
    rewrite List.app_nth2 by lia. rewrite Nat.sub_diag. cbn [List.app nth].
    rewrite List.app_nth1 by lia. now rewrite nth_last_element.
  - apply IH; [destruct l; discriminate|].
    rewrite List.length_app. simpl. lia.
Qed.

Lemma floor_of_four_fifths (c : Z) : Qfloor (inject_Z c * (8 # 10)) = 4 * c / 5.
Proof.
  unfold Qfloor, Qmult, inject_Z. cbn [Qnum Qden]. change (Z.pos (1 * 10)) with (2 * 5).
  replace (c * 8) with (2 * (4 * c)) by lia.
  apply Z.div_mul_cancel_l; lia.
Qed.

(** X7: for every number of teams, getDefaultCombinations returns that many
    counts, each at least 1 and none larger than the one before it (the worst
    seed has the most); the counts for fewer teams are the beginning of the
    counts for more teams; and every count past the twelve of the table is
    max(1, floor(0.8 * previous)), computed from the count before it. *)
Theorem default_combinations_shape (numTeams : nat) :
  List.length (getDefaultCombinations numTeams) = numTeams /\
  Forall (fun c => 1 <= c) (getDefaultCombinations numTeams) /\
  nonIncreasing (getDefaultCombinations numTeams) /\
  (forall more, (numTeams <= more)%nat ->
                firstn numTeams (getDefaultCombinations more)
                = getDefaultCombinations numTeams) /\
  (forall i, (12 <= i < numTeams)%nat ->
             nth i (getDefaultCombinations numTeams) 0
             = Z.max 1 (4 * nth (i - 1) (getDefaultCombinations numTeams) 0 / 5)).
Proof.
  destruct default_table_facts as (Hne & Hpos & Hsorted).
  unfold getDefaultCombinations.
  split; [apply sliceOrExtend_length|].
  split; [now apply sliceOrExtend_shape|].
  split; [now apply sliceOrExtend_shape|].
  split; [intros more Hle; now apply sliceOrExtend_prefix|].
  intros i Hi. unfold sliceOrExtend.
  change (List.length LOTTERY.DEFAULT_COMBINATIONS) with 12%nat.
  destruct (Nat.leb_spec numTeams 12) as [H|H]; [lia|].
  rewrite <- floor_of_four_fifths.
  apply extendCombinations_step; [exact Hne|].
  change (List.length LOTTERY.DEFAULT_COMBINATIONS) with 12%nat. lia.
Qed.

Lemma default_combinations_shape_witness :
  firstn 13 (getDefaultCombinations 15) = getDefaultCombinations 13 /\
  nth 13 (getDefaultCombinations 15) 0 = Z.max 1 (4 * nth 12 (getDefaultCombinations 15) 0 / 5).
Proof.
  destruct (default_combinations_shape 13) as (_ & _ & _ & Hprefix & _).
  destruct (default_combinations_shape 15) as (_ & _ & _ & _ & Hstep).
  split; [apply Hprefix; lia | apply (Hstep 13%nat); lia].
Defined.

(** ** Validation *)

Lemma sumZ_nonneg_list (l : list Z) : Forall (fun c => 0 <= c) l -> 0 <= sumZ l.
Proof.
  induction 1 as [|c l Hc _ IH]; [reflexivity|]. rewrite sumZ_cons. lia.
Qed.

Lemma existsb_negative_false (cs : list Z) :
  existsb (fun count => count <? 0) cs = false <-> Forall (fun c => 0 <= c) cs.
Proof.
  induction cs as [|c cs IH]; simpl.
  - split; [constructor | reflexivity].
  - rewrite orb_false_iff, IH, Z.ltb_ge. split.
    + intros [Hc Hcs]. now constructor.
    + intros H. inversion H; subst. now split.
Qed.

Lemma validateCombinations_valid_iff (cs : list Z) :
  isValid (validateCombinations cs) = true <->
  cs <> [] /\ Forall (fun c => 0 <= c) cs /\ 0 < sumZ cs.
Proof.
  unfold validateCombinations. rewrite calculateTotalCombinations_sum.
  destruct cs as [|c cs].
  - simpl. split; [discriminate | intros [H _]; congruence].
  - set (l := c :: cs).
    destruct (existsb (fun count => count <? 0) l) eqn:Hneg.
    + simpl. split; [discriminate|]. intros (_ & Hnn & _).
      apply existsb_negative_false in Hnn. congruence.
    + apply existsb_negative_false in Hneg.
      pose proof (sumZ_nonneg_list l Hneg) as Hsum.
      destruct (Z.eqb_spec (sumZ l) 0) as [E|E]; cbn [isValid].
      * split; [discriminate | intros (_ & _ & H); lia].
      * split; [|reflexivity]. intros _.
        split; [discriminate|]. split; [exact Hneg | lia].
Qed.

(** X8: validateCombinations accepts an array of integers exactly when it is
    not empty, holds no negative count and sums to more than zero, and then
    reports no error; and whenever it accepts the combinations of a pool, a
    draw from that pool returns a team of positive weight instead of
    throwing. *)
Theorem validation_guarantees_first_draw (random : nat -> Q) (teams : list Team)
    (w : World) :
  let result := validateCombinations (map combinations teams) in
  (isValid result = true <->
   teams <> [] /\ nonNegativeWeights teams /\ 0 < sumZ (map combinations teams)) /\
  (isValid result = true -> error result = None) /\
  (isValid result = true -> unitInterval random ->
   exists t, selectWinnerByCombinations random teams w = (afterRandom w, Ok t) /\
             In t teams /\ 0 < combinations t).
Proof.
  cbv zeta. rewrite validateCombinations_valid_iff.
  assert (Hnn : Forall (fun c => 0 <= c) (map combinations teams)
                <-> nonNegativeWeights teams).
  { unfold nonNegativeWeights. rewrite List.Forall_map. reflexivity. }
  assert (Hne : map combinations teams <> [] <-> teams <> []).
  { destruct teams; simpl; split; congruence. }
  rewrite Hnn, Hne. split; [reflexivity|]. split.
  - intros (Hn & Hf & Hs). unfold validateCombinations.
    destruct (map combinations teams) as [|c cs] eqn:E; [tauto|].
    rewrite <- Hnn in Hf. apply existsb_negative_false in Hf. rewrite Hf.
    rewrite calculateTotalCombinations_sum.
    destruct (Z.eqb_spec (sumZ (c :: cs)) 0); [lia | reflexivity].
  - intros (Hn & Hf & Hs) Hu.
    assert (Hex : Exists (fun x => 0 < combinations x) teams).
    { rewrite sum_eq_total in Hs by exact Hf.
      clear - Hs. induction teams as [|x teams IH].
      - unfold Spec.total in Hs. simpl in Hs. lia.
      - destruct (Z.lt_ge_cases 0 (combinations x)) as [Hx|Hx]; [now left|].
        right. apply IH. now rewrite total_cons_nonpos in Hs. }
    destruct (select_succeeds random Hu teams w Hf Hex) as (t & Hsel & Hwalk).
    exists t. split; [exact Hsel|]. eapply walk_some_positive. exact Hwalk.
Qed.

Lemma validation_guarantees_first_draw_witness :
  let teams := [mkTeam "a" "A" 0; mkTeam "b" "B" 7] in
  exists t, selectWinnerByCombinations (fun _ => 1 # 3) teams initialWorld
              = (afterRandom initialWorld, Ok t) /\
            In t teams /\ 0 < combinations t.
Proof.
  apply (validation_guarantees_first_draw (fun _ => 1 # 3)
           [mkTeam "a" "A" 0; mkTeam "b" "B" 7] initialWorld).
  - reflexivity.
  - intros k. split; [discriminate | reflexivity].
Defined.

(** ** The generators in double precision *)

(** ** Numbers that hold integers *)

Lemma Qred_integer (k : Z) : Qred (inject_Z k) = inject_Z k.
Proof.
  unfold Qred, inject_Z.
  pose proof (Z.ggcd_gcd k 1) as Hg. pose proof (Z.ggcd_correct_divisors k 1) as Hd.
  destruct (Z.ggcd k (Z.pos 1)) as (g, (aa, bb)). cbn [fst snd] in *.
  rewrite Z.gcd_1_r in Hg. subst g. destruct Hd as [Ha Hb].
  rewrite Z.mul_1_l in Ha, Hb. now subst.
Qed.

Lemma onGrid_nearest_comp (x y : Q) :
  (x == y)%Q ->
  (Double.onGrid Double.nearestEven x == Double.onGrid Double.nearestEven y)%Q.
Proof.
  intros E. unfold Double.onGrid. cbv zeta.
  assert (EX : (x * inject_Z Double.scale == y * inject_Z Double.scale)%Q)
    by (rewrite E; reflexivity).
  assert (Eu : Double.ulp (x * inject_Z Double.scale)
               = Double.ulp (y * inject_Z Double.scale)).
  { unfold Double.ulp. now rewrite (Qfloor_comp _ _ EX). }
  rewrite Eu.
  rewrite (nearestEven_comp
             (x * inject_Z Double.scale / inject_Z (Double.ulp (y * inject_Z Double.scale)))
             (y * inject_Z Double.scale / inject_Z (Double.ulp (y * inject_Z Double.scale))));
    [reflexivity|].
  rewrite EX. reflexivity.
Qed.

Lemma round_comp (x y : Q) : (x == y)%Q -> Double.round x = Double.round y.
Proof.
  intros E. unfold Double.round. apply Qred_complete. unfold Double.signed.
  rewrite (Qleb_comp 0%Q 0%Q (Qeq_refl 0%Q) x y E).
  destruct (Qle_bool 0 y).
  - now apply onGrid_nearest_comp.
  - apply Qopp_comp. apply onGrid_nearest_comp. now rewrite E.
Qed.

Lemma round_exact (x : Q) (k : Z) :
  (Double.round x == inject_Z k)%Q -> Double.round x = inject_Z k.
Proof.
  intros E. rewrite <- (Qred_integer k). unfold Double.round in *.
  rewrite <- (Qred_complete _ _ E). symmetry. apply Qred_complete. apply Qred_correct.
Qed.

Lemma round_integer (k : Z) :
  - 2 ^ 53 < k < 2 ^ 53 -> Double.round (inject_Z k) = inject_Z k.
Proof.
  intros Hk. apply round_exact.
  destruct (Z.le_gt_cases 0 k) as [Hpos|Hneg].
  - assert (Hx : (0 <= inject_Z k)%Q) by (change 0%Q with (inject_Z 0); now rewrite <- Zle_Qle).
    assert (Hlt : (inject_Z k < inject_Z (2 ^ 53))%Q) by (rewrite <- Zlt_Qlt; lia).
    destruct (round_keeps_integers (inject_Z k) k Hx Hlt) as [Hlo Hhi].
    apply Qle_antisym; [apply Hhi | apply Hlo]; apply Qle_refl.
  - assert (Hx : (0 <= inject_Z (- k))%Q)
      by (change 0%Q with (inject_Z 0); rewrite <- Zle_Qle; lia).
    assert (Hlt : (inject_Z (- k) < inject_Z (2 ^ 53))%Q) by (rewrite <- Zlt_Qlt; lia).
    destruct (round_keeps_integers (inject_Z (- k)) (- k) Hx Hlt) as [Hlo Hhi].
    assert (E : (Double.round (inject_Z (- k)) == inject_Z (- k))%Q).
    { apply Qle_antisym; [apply Hhi | apply Hlo]; apply Qle_refl. }
    rewrite (round_magnitude _ Hx) in E.
    unfold Double.round, Double.signed. rewrite Qred_correct.
    destruct (Qle_bool 0 (inject_Z k)) eqn:Hb.
    + apply Qle_bool_iff in Hb. change 0%Q with (inject_Z 0) in Hb.
      rewrite <- Zle_Qle in Hb. lia.
    + change (- inject_Z k)%Q with (inject_Z (- k)). rewrite E.
      rewrite inject_Z_opp. ring.
Qed.

Lemma rounded_integer (k : Z) :
  - 2 ^ 53 < k < 2 ^ 53 -> Number.rounded (inject_Z k) = Number.ofZ k.
Proof.
  intros Hk. unfold Number.rounded. cbv zeta. rewrite (round_integer k Hk).
  assert (Hbig : 2 ^ 53 < 2 ^ 1024) by reflexivity.
  destruct (Qle_bool (inject_Z (2 ^ 1024)) (inject_Z k)) eqn:H1.
  { apply Qle_bool_iff in H1. rewrite <- Zle_Qle in H1. lia. }
  destruct (Qle_bool (inject_Z k) (- inject_Z (2 ^ 1024))) eqn:H2.
  { apply Qle_bool_iff in H2. change (- inject_Z (2 ^ 1024))%Q with (inject_Z (- 2 ^ 1024)) in H2.
    rewrite <- Zle_Qle in H2. lia. }
  reflexivity.
Qed.

Lemma add_integers (a b : Z) :
  - 2 ^ 53 < a + b < 2 ^ 53 ->
  Number.add (Number.ofZ a) (Number.ofZ b) = Number.ofZ (a + b).
Proof.
  intros H. unfold Number.add, Number.ofZ, Number.rounded. cbv zeta.
  rewrite (round_comp (inject_Z a + inject_Z b) (inject_Z (a + b)))
    by (rewrite inject_Z_plus; apply Qeq_refl).
  apply (rounded_integer (a + b) H).
Qed.

Lemma sub_integers (a b : Z) :
  - 2 ^ 53 < a - b < 2 ^ 53 ->
  Number.sub (Number.ofZ a) (Number.ofZ b) = Number.ofZ (a - b).
Proof.
  intros H. unfold Number.sub, Number.negate, Number.ofZ.
  change (- inject_Z b)%Q with (inject_Z (- b)).
  apply (add_integers a (- b)). lia.
Qed.

Lemma or0_integer (z : Z) : Number.or0 (Number.ofZ z) = Number.ofZ z.
Proof.
  unfold Number.or0, Number.ofZ.
  destruct (Qeq_bool (inject_Z z) 0) eqn:E; [|reflexivity].
  apply Qeq_bool_eq in E. change 0%Q with (inject_Z 0) in E.
  rewrite inject_Z_injective in E. now rewrite E.
Qed.

Lemma isNotZero_integer (z : Z) : Number.isNotZero (Number.ofZ z) = negb (z =? 0).
Proof.
  unfold Number.isNotZero, Number.ofZ. f_equal.
  destruct (Z.eqb_spec z 0) as [->|Hne]; [reflexivity|].
  destruct (Qeq_bool (inject_Z z) 0) eqn:E; [|reflexivity].
  apply Qeq_bool_eq in E. change 0%Q with (inject_Z 0) in E.
  rewrite inject_Z_injective in E. contradiction.
Qed.

Lemma total_of_integers (zs : list Z) : forall acc,
  0 <= acc -> Forall (fun c => 0 <= c) zs -> acc + sumZ zs < 2 ^ 53 ->
  fold_left (fun sum count => Number.add sum (Number.or0 count))
            (map Number.ofZ zs) (Number.ofZ acc)
  = Number.ofZ (acc + sumZ zs).
Proof.
  induction zs as [|z zs IH]; intros acc Hacc Hnn Hlt.
  - cbn [map fold_left]. change (sumZ []) with 0. now rewrite Z.add_0_r.
  - inversion Hnn as [|? ? Hz Hzs]; subst. rewrite sumZ_cons in Hlt.
    pose proof (sumZ_nonneg_list zs Hzs) as Hs.
    cbn [map fold_left]. rewrite or0_integer, add_integers by lia.
    rewrite IH; [|lia|exact Hzs|lia]. rewrite sumZ_cons. f_equal. lia.
Qed.

(** The adjustment of the generators, on counts that are integers. *)
Lemma adjustFirst_integers (c0 : Z) (rest : list Z) (total : Z) :
  0 <= c0 -> Forall (fun c => 0 <= c) rest ->
  0 <= total < 2 ^ 52 -> c0 + sumZ rest < 2 ^ 52 ->
  Number.adjustFirst (map Number.ofZ (c0 :: rest)) (Number.ofZ total)
  = map Number.ofZ ((total - sumZ rest) :: rest).
Proof.
  intros Hc0 Hrest HT Hsum. unfold Number.adjustFirst, Number.calculateTotalCombinations.
  pose proof (sumZ_nonneg_list rest Hrest) as Hs.
  assert (H52 : 2 * 2 ^ 52 = 2 ^ 53) by reflexivity.
  rewrite (total_of_integers (c0 :: rest) 0);
    [|lia|now constructor|rewrite sumZ_cons; lia].
  rewrite sumZ_cons, Z.add_0_l. rewrite sub_integers by lia.
  rewrite isNotZero_integer. cbn [map].
  destruct (Z.eqb_spec (total - (c0 + sumZ rest)) 0) as [E|E]; cbn [negb].
  - do 2 f_equal. lia.
  - rewrite add_integers by lia. do 2 f_equal. lia.
Qed.

(** ** Numbers that hold fractions *)

(** A result that is not negative is finite or plus infinity, and finite
    when the exact result is far from the largest double. *)
Lemma rounded_magnitude (x : Q) :
  (0 <= x)%Q ->
  Number.rounded x = Number.PlusInfinity \/
  Number.rounded x = Number.Finite (Double.round x).
Proof.
  intros Hx. destruct (round_upper x Hx) as (H0 & _).
  unfold Number.rounded. cbv zeta.
  destruct (Qle_bool (inject_Z (2 ^ 1024)) (Double.round x)); [now left|].
  destruct (Qle_bool (Double.round x) (- inject_Z (2 ^ 1024))) eqn:H2; [|now right].
  apply Qle_bool_iff in H2.
  assert ((- inject_Z (2 ^ 1024) < 0)%Q) by reflexivity. lra.
Qed.

Lemma rounded_finite (x : Q) :
  (0 <= x)%Q -> (x <= inject_Z (2 ^ 1000))%Q ->
  Number.rounded x = Number.Finite (Double.round x).
Proof.
  intros Hx Hsmall. destruct (round_upper x Hx) as (H0 & Hup).
  destruct (rounded_magnitude x Hx) as [H|H]; [|exact H]. exfalso.
  unfold Number.rounded in H. cbv zeta in H.
  destruct (Qle_bool (inject_Z (2 ^ 1024)) (Double.round x)) eqn:H1.
  - apply Qle_bool_iff in H1.
    assert (C : (inject_Z (2 ^ 1000) + Double.epsilon * inject_Z (2 ^ 1000) + Double.tiny
                 < inject_Z (2 ^ 1024))%Q) by reflexivity.
    destruct epsilon_facts as (He & _).
    set (B := inject_Z (2 ^ 1000)) in *. set (M := inject_Z (2 ^ 1024)) in *.
    set (e := Double.epsilon) in *. set (t := Double.tiny) in *.
    assert (e * x <= e * B)%Q by nra. lra.
  - destruct (Qle_bool (Double.round x) (- inject_Z (2 ^ 1024))); discriminate.
Qed.

(** [(weight / sum) * total], the argument of [Math.round] in the linear and
    the exponential generator. *)
Lemma share_value (w s : Q) (T : Z) :
  (0 <= w)%Q -> (0 < s)%Q -> (w <= 2 * s)%Q -> 0 <= T <= 2 ^ 40 ->
  exists p,
    Number.mul (Number.div (Number.Finite w) (Number.Finite s)) (Number.ofZ T)
    = Number.Finite p /\
    (0 <= p)%Q /\
    (p <= (w / s) * inject_Z T
          + (2 * Double.epsilon + Double.epsilon * Double.epsilon) * ((w / s) * inject_Z T)
          + Double.tiny * (inject_Z T + Double.epsilon * inject_Z T + 1))%Q.
Proof.
  intros Hw Hs Hws HT. unfold Number.div.
  destruct (Qeq_bool s 0) eqn:Es; [apply Qeq_bool_eq in Es; lra|].
  assert (Hx0 : (0 <= w / s)%Q) by (apply Qle_shift_div_l; [exact Hs | lra]).
  assert (Hx2 : (w / s <= 2)%Q) by (apply Qle_shift_div_r; [exact Hs | lra]).
  assert (C2 : (2 <= inject_Z (2 ^ 1000))%Q) by discriminate.
  rewrite (rounded_finite (w / s) Hx0) by lra.
  destruct (round_upper (w / s) Hx0) as (Hq0 & Hq).
  unfold Number.mul, Number.ofZ.
  destruct epsilon_facts as (He & He1 & Ht & Hte).
  assert (HT0 : (0 <= inject_Z T)%Q)
    by (change 0%Q with (inject_Z 0); rewrite <- Zle_Qle; lia).
  assert (HT1 : (inject_Z T <= inject_Z (2 ^ 40))%Q) by (rewrite <- Zle_Qle; lia).
  assert (C40 : (5 * inject_Z (2 ^ 40) <= inject_Z (2 ^ 1000))%Q) by discriminate.
  pose proof (fun y => rounded_finite y) as Hfinite.
  pose proof (fun y => round_upper y) as Hround.
  revert Hq0 Hq. generalize (Double.round (w / s)). intros q Hq0 Hq.
  revert Hx0 Hx2 Hq. generalize (w / s)%Q. intros x Hx0 Hx2 Hq.
  assert (Hq5 : (q <= 5)%Q).
  { assert ((Double.epsilon * x <= x)%Q) by nra. lra. }
  assert (Hy0 : (0 <= q * inject_Z T)%Q) by nra.
  assert (Hy : (q * inject_Z T <= inject_Z (2 ^ 1000))%Q) by nra.
  rewrite (rounded_finite _ Hy0 Hy).
  destruct (round_upper _ Hy0) as (Hp0 & Hp).
  eexists. split; [reflexivity|]. split; [exact Hp0|].
  revert Hp0 Hp. generalize (Double.round (q * inject_Z T)). intros p Hp0 Hp.
  revert HT0 HT1 C40 Hy0 Hy Hp. generalize (inject_Z T). intros TT HT0 HT1 C40 Hy0 Hy Hp.
  revert He He1 Ht Hte Hq Hp. generalize Double.epsilon Double.tiny.
  intros e t He He1 Ht Hte Hq Hp.
  assert (H1 : (q * TT <= (x + e * x + t) * TT)%Q) by nra.
  assert (H2 : (e * (q * TT) <= e * ((x + e * x + t) * TT))%Q) by nra.
  assert (E : ((x + e * x + t) * TT + e * ((x + e * x + t) * TT) + t
               == x * TT + (2 * e + e * e) * (x * TT) + t * (TT + e * TT + 1))%Q) by ring.
  rewrite <- E. lra.
Qed.

Lemma share_of_infinity (w : Q) (T : Z) :
  Number.round (Number.mul (Number.div (Number.Finite w) Number.PlusInfinity)
                           (Number.ofZ T))
  = Number.ofZ 0.
Proof.
  unfold Number.div, Number.mul, Number.ofZ, Number.rounded. cbv zeta.
  rewrite (round_comp (0 * inject_Z T) (inject_Z 0)) by ring.
  rewrite (round_integer 0) by (split; reflexivity).
  reflexivity.
Qed.

(** [Math.round] of a magnitude is at most its double. *)
Lemma mathRound_double (p : Q) :
  (0 <= p)%Q -> 0 <= mathRound p /\ (inject_Z (mathRound p) <= 2 * p)%Q.
Proof.
  intros Hp. unfold mathRound.
  pose proof (Qfloor_le (p + (1 # 2))) as Hle.
  assert (H0 : 0 <= Qfloor (p + (1 # 2))).
  { change 0 with (Qfloor 0). apply Qfloor_resp_le. lra. }
  split; [exact H0|].
  destruct (Z.eq_dec (Qfloor (p + (1 # 2))) 0) as [->|Hne]; [change (inject_Z 0) with 0%Q; lra|].
  assert (H1 : (1 <= inject_Z (Qfloor (p + (1 # 2))))%Q).
  { change 1%Q with (inject_Z 1). rewrite <- Zle_Qle. lia. }
  lra.
Qed.

(** ** The exponential generator below the overflow *)

(** Descending powers of two, from [2^(c-a)] down over [len] terms. *)
Lemma descending_powers_sum (c : Z) (len : nat) : forall a : nat,
  Z.of_nat a + Z.of_nat len <= c + 1 ->
  sumZ (map (fun i : nat => 2 ^ (c - Z.of_nat i)) (seq a len))
  = 2 ^ (c - Z.of_nat a + 1) - 2 ^ (c - Z.of_nat a - Z.of_nat len + 1).
Proof.
  induction len as [|len IH]; intros a Ha.
  - change (sumZ (map _ (seq a 0))) with 0.
    replace (c - Z.of_nat a - Z.of_nat 0 + 1) with (c - Z.of_nat a + 1) by lia. lia.
  - cbn [seq map]. rewrite sumZ_cons, IH by lia.
    replace (c - Z.of_nat (S a) + 1) with (c - Z.of_nat a) by lia.
    replace (c - Z.of_nat (S a) - Z.of_nat len + 1)
      with (c - Z.of_nat a - Z.of_nat (S len) + 1) by lia.
    replace (c - Z.of_nat a + 1) with (Z.succ (c - Z.of_nat a)) by lia.
    rewrite (Z.pow_succ_r 2 (c - Z.of_nat a)) by lia. lia.
Qed.

Lemma powers_are_integers (numTeams : nat) :
  (numTeams <= 1024)%nat ->
  map (fun i : nat => Number.pow2 (Z.of_nat numTeams - Z.of_nat i - 1)) (seq 0 numTeams)
  = map Number.ofZ
        (map (fun i : nat => 2 ^ (Z.of_nat numTeams - 1 - Z.of_nat i)) (seq 0 numTeams)).
Proof.
  intros HN. rewrite List.map_map. apply List.map_ext_in. intros i Hi.
  apply List.in_seq in Hi. unfold Number.pow2.
  destruct (Z.ltb_spec (Z.of_nat numTeams - Z.of_nat i - 1) 1024) as [_|H]; [|lia].
  unfold Number.ofZ. do 3 f_equal. lia.
Qed.

Lemma sum_stays_infinite (ws : list Z) :
  fold_left Number.add (map Number.ofZ ws) Number.PlusInfinity = Number.PlusInfinity.
Proof. induction ws as [|w ws IH]; [reflexivity | exact IH]. Qed.

(** The sum of the weights, added up in doubles from the left, overflows or
    stays within the fraction [length * epsilon] below the exact sum. *)
Lemma sum_of_weights (ws : list Z) : forall a : Q,
  (0 <= a)%Q -> Forall (fun w => 1 <= w) ws -> (List.length ws <= 1024)%nat ->
  fold_left Number.add (map Number.ofZ ws) (Number.Finite a) = Number.PlusInfinity \/
  exists s,
    fold_left Number.add (map Number.ofZ ws) (Number.Finite a) = Number.Finite s /\
    ((a + inject_Z (sumZ ws))
     * (1 - inject_Z (Z.of_nat (List.length ws)) * Double.epsilon) <= s)%Q.
Proof.
  induction ws as [|w ws IH]; intros a Ha Hws Hlen.
  - right. exists a. split; [reflexivity|].
    change (sumZ []) with 0. cbn [List.length Z.of_nat]. change (inject_Z 0) with 0%Q.
    apply Qle_lteq. right. ring.
  - inversion Hws as [|? ? Hw Hws']; subst. cbn [List.length] in Hlen.
    cbn [map fold_left].
    change (Number.add (Number.Finite a) (Number.ofZ w))
      with (Number.rounded (a + inject_Z w)).
    assert (Hw' : (1 <= inject_Z w)%Q)
      by (change 1%Q with (inject_Z 1); now rewrite <- Zle_Qle).
    destruct (rounded_magnitude (a + inject_Z w) ltac:(lra)) as [->| ->].
    + left. apply sum_stays_infinite.
    + pose proof (round_lower (a + inject_Z w) ltac:(lra)) as Hlow.
      destruct (round_upper (a + inject_Z w) ltac:(lra)) as (H0 & _).
      destruct (IH (Double.round (a + inject_Z w)) H0 Hws' ltac:(lia)) as [E|(s & E & Hs)];
        [now left|].
      right. exists s. split; [exact E|].
      rewrite sumZ_cons, inject_Z_plus.
      pose proof (sumZ_nonneg_list ws ltac:(eapply Forall_impl; [exact Hws'|];
                                             intros c Hc; cbn beta in Hc; lia)) as Hsum.
      assert (Hsum' : (0 <= inject_Z (sumZ ws))%Q)
        by (change 0%Q with (inject_Z 0); now rewrite <- Zle_Qle).
      assert (Hk : (inject_Z (Z.of_nat (S (List.length ws)))
                    == inject_Z (Z.of_nat (List.length ws)) + 1)%Q).
      { rewrite Nat2Z.inj_succ. unfold Z.succ. rewrite inject_Z_plus. reflexivity. }
      rewrite Hk.
      assert (Hk0 : (0 <= inject_Z (Z.of_nat (List.length ws)))%Q)
        by (change 0%Q with (inject_Z 0); rewrite <- Zle_Qle; lia).
      assert (Hk1 : (inject_Z (Z.of_nat (List.length ws)) <= 1024)%Q).
      { change 1024%Q with (inject_Z 1024). rewrite <- Zle_Qle. lia. }
      assert (He : (0 < Double.epsilon)%Q /\ (1024 * Double.epsilon <= 1)%Q)
        by (split; [reflexivity | discriminate]).
      revert Hlow Hs H0 He. generalize (Double.round (a + inject_Z w)) Double.epsilon.
      revert Hw' Hsum' Hk0 Hk1.
      generalize (inject_Z w) (inject_Z (sumZ ws)) (inject_Z (Z.of_nat (List.length ws))).
      intros W R k HW HR Hk0 Hk1 r e Hlow Hs H0 [He0 He1].
      assert (Hke' : (k * e <= 1024 * e)%Q)
        by (apply Qmult_le_compat_r; [exact Hk1 | lra]).
      assert (Hke : (0 <= 1 - k * e)%Q) by lra.
      assert (HeR : (0 <= e * R)%Q) by (apply Qmult_le_0_compat; lra).
      assert (H2 : ((a + W + R) * (1 - e) <= r + R)%Q) by lra.
      assert (H3 : ((a + W + R) * (1 - e) * (1 - k * e) <= (r + R) * (1 - k * e))%Q)
        by (apply Qmult_le_compat_r; assumption).
      assert (H5 : (0 <= (a + W + R) * (k * (e * e)))%Q).
      { repeat apply Qmult_le_0_compat; lra. }
      assert (E4 : ((a + W + R) * (1 - e) * (1 - k * e)
                    == (a + W + R) * (1 - (k + 1) * e) + (a + W + R) * (k * (e * e)))%Q)
        by ring.
      lra.
Qed.

Lemma integers_of_list {A} (f : A -> Number.number) (R : A -> Z -> Prop) (l : list A) :
  (forall x, In x l -> exists z, f x = Number.ofZ z /\ R x z) ->
  exists zs, map f l = map Number.ofZ zs /\ List.Forall2 R l zs.
Proof.
  induction l as [|x l IH]; intros H.
  - exists []. split; [reflexivity | constructor].
  - destruct (H x ltac:(now left)) as (z & Ez & Hz).
    destruct IH as (zs & Ezs & Hzs); [intros y Hy; apply H; now right|].
    exists (z :: zs). split; [cbn [map]; now rewrite Ez, Ezs | now constructor].
Qed.

Lemma counts_bounded (a b : Q) (ws zs : list Z) :
  List.Forall2 (fun w z => 0 <= z /\ (inject_Z z <= a * inject_Z w + b)%Q) ws zs ->
  List.length zs = List.length ws /\
  Forall (fun z => 0 <= z) zs /\
  (inject_Z (sumZ zs)
   <= a * inject_Z (sumZ ws) + b * inject_Z (Z.of_nat (List.length ws)))%Q.
Proof.
  induction 1 as [|w z ws zs [Hz Hle] _ (IHlen & IHnn & IHsum)].
  - split; [reflexivity|]. split; [constructor|].
    change (sumZ []) with 0. cbn [List.length Z.of_nat]. change (inject_Z 0) with 0%Q.
    apply Qle_lteq. right. ring.
  - split; [cbn [List.length]; now rewrite IHlen|]. split; [now constructor|].
    rewrite !sumZ_cons, !inject_Z_plus. cbn [List.length].
    rewrite Nat2Z.inj_succ. unfold Z.succ. rewrite inject_Z_plus.
    change (inject_Z 1) with 1%Q.
    revert Hle IHsum.
    generalize (inject_Z z) (inject_Z w) (inject_Z (sumZ zs)) (inject_Z (sumZ ws))
               (inject_Z (Z.of_nat (List.length ws))).
    intros qz qw qzs qws k Hle IHsum.
    assert (E : (a * (qw + qws) + b * (k + 1) == (a * qw + b) + (a * qws + b * k))%Q) by ring.
    rewrite E. lra.
Qed.

Lemma Qmult_le_nonneg_l (x y z : Q) : (0 <= z)%Q -> (x <= y)%Q -> (z * x <= z * y)%Q.
Proof.
  intros Hz Hxy. rewrite (Qmult_comm z x), (Qmult_comm z y).
  now apply Qmult_le_compat_r.
Qed.

(** The arithmetic of the bound: the quotient [W1 / s] against the sum [s]
    of at least [(2 * W1 + 1) * (1 - 1024 * epsilon)]. *)
Lemma share_sum_bound (s W1 T j : Q) :
  (0 <= W1)%Q -> (0 <= T)%Q -> (T <= inject_Z (2 ^ 40))%Q ->
  (0 <= j)%Q -> (j <= 1024)%Q ->
  ((2 * W1 + 1) * (1 - 1024 * Double.epsilon) <= s)%Q ->
  let a := (2 * (inject_Z 1 / s)
            * (T + (2 * Double.epsilon + Double.epsilon * Double.epsilon) * T))%Q in
  let b := (2 * (Double.tiny * (T + Double.epsilon * T + 1)))%Q in
  (0 < s)%Q /\
  (a * W1 + b * j < T + 1)%Q /\
  (a * (W1 + 1) + b <= 2 * T + 1)%Q.
Proof.
  intros HW HT0 HT1 Hj0 Hj1 Hs a b.
  assert (F0 : (0 < Double.epsilon)%Q /\ (0 < Double.tiny)%Q) by (split; reflexivity).
  assert (F1 : (1 + (2 * Double.epsilon + Double.epsilon * Double.epsilon)
                <= (1 + (1 # 2 ^ 42)) * (1 - 1024 * Double.epsilon))%Q) by discriminate.
  assert (F2 : (2 * (Double.tiny * (inject_Z (2 ^ 40) + Double.epsilon * inject_Z (2 ^ 40) + 1))
                * 1024 <= 1 # 4)%Q) by discriminate.
  assert (F3 : (inject_Z (2 ^ 40) * (1 # 2 ^ 42) <= 1 # 4)%Q) by discriminate.
  assert (F4 : (1 # 2 <= 1 - 1024 * Double.epsilon)%Q) by discriminate.
  assert (F5 : (0 < 1 # 2 ^ 42)%Q) by reflexivity.
  subst a b. revert F0 F1 F2 F3 F4 F5 Hs HT1.
  generalize Double.epsilon Double.tiny (inject_Z (2 ^ 40)) (1 # 2 ^ 42)%Q.
  change (inject_Z 1) with 1%Q.
  intros e t B th [He Ht] F1 F2 F3 F4 F5 Hs HT1.
  set (kp := (1 - 1024 * e)%Q) in *.
  assert (Hs0 : (0 < s)%Q) by nra.
  split; [exact Hs0|].
  set (c := (2 * e + e * e)%Q) in *.
  assert (Hc : (0 <= c)%Q) by (unfold c; nra).
  (* the quotients *)
  assert (Hinv : (1 / s * s == 1)%Q) by (field; lra).
  assert (Hinv0 : (0 < 1 / s)%Q) by (apply Qlt_shift_div_l; [exact Hs0 | lra]).
  set (v := (1 / s)%Q) in *. clearbody v.
  assert (Hu1 : (v * (2 * W1) * kp <= 1)%Q).
  { assert (Hle : (2 * W1 * kp <= s)%Q) by nra.
    assert (H : (v * (2 * W1 * kp) <= v * s)%Q)
      by (apply Qmult_le_l; [exact Hinv0 | exact Hle]).
    assert (E : (v * (2 * W1) * kp == v * (2 * W1 * kp))%Q) by ring.
    rewrite E. lra. }
  assert (Hu2 : (v * (W1 + 1) * kp <= 1)%Q).
  { assert (Hle : ((W1 + 1) * kp <= s)%Q) by nra.
    assert (H : (v * ((W1 + 1) * kp) <= v * s)%Q)
      by (apply Qmult_le_l; [exact Hinv0 | exact Hle]).
    assert (E : (v * (W1 + 1) * kp == v * ((W1 + 1) * kp))%Q) by ring.
    rewrite E. lra. }
  (* the part that carries the total *)
  assert (Hmain : forall m, (0 <= m)%Q -> (v * m * kp <= 1)%Q ->
                            (v * m * (T + c * T) <= T + (1 # 4))%Q).
  { intros m Hm Hmk.
    assert (Hvm : (0 <= v * m)%Q) by (apply Qmult_le_0_compat; lra).
    assert (H1 : (v * m * (1 + c) <= v * m * ((1 + th) * kp))%Q)
      by (apply Qmult_le_nonneg_l; [exact Hvm | exact F1]).
    assert (H2 : (v * m * ((1 + th) * kp) <= 1 + th)%Q).
    { assert (E : (v * m * ((1 + th) * kp) == (1 + th) * (v * m * kp))%Q) by ring.
      rewrite E. assert (H : ((1 + th) * (v * m * kp) <= (1 + th) * 1)%Q)
        by (apply Qmult_le_l; [lra | exact Hmk]). lra. }
    assert (H3 : (v * m * (1 + c) * T <= (1 + th) * T)%Q)
      by (apply Qmult_le_compat_r; [lra | exact HT0]).
    assert (H4 : (T * th <= B * th)%Q)
      by (apply Qmult_le_compat_r; [exact HT1 | lra]).
    assert (E : (v * m * (T + c * T) == v * m * (1 + c) * T)%Q) by ring.
    rewrite E. lra. }
  (* the part that does not *)
  assert (Hb0 : (0 <= t * (T + e * T + 1))%Q).
  { apply Qmult_le_0_compat; [lra|]. assert (0 <= e * T)%Q by (apply Qmult_le_0_compat; lra). lra. }
  assert (Hb1 : (t * (T + e * T + 1) <= t * (B + e * B + 1))%Q).
  { apply Qmult_le_l; [exact Ht|].
    assert (e * T <= e * B)%Q by (apply Qmult_le_l; [exact He | exact HT1]). lra. }
  assert (Hb2 : (2 * (t * (T + e * T + 1)) * j <= 2 * (t * (B + e * B + 1)) * 1024)%Q).
  { assert (H : (2 * (t * (T + e * T + 1)) * j <= 2 * (t * (T + e * T + 1)) * 1024)%Q)
      by (apply Qmult_le_nonneg_l; [lra | exact Hj1]).
    assert (H' : (2 * (t * (T + e * T + 1)) * 1024 <= 2 * (t * (B + e * B + 1)) * 1024)%Q)
      by lra.
    lra. }
  assert (Hb3 : (2 * (t * (T + e * T + 1)) <= 2 * (t * (B + e * B + 1)) * 1024)%Q) by lra.
  split.
  - pose proof (Hmain (2 * W1)%Q ltac:(lra) Hu1) as H.
    assert (E : (2 * v * (T + c * T) * W1 == v * (2 * W1) * (T + c * T))%Q) by ring.
    rewrite E. lra.
  - pose proof (Hmain (W1 + 1)%Q ltac:(lra) Hu2) as H.
    assert (E : (2 * v * (T + c * T) * (W1 + 1) == 2 * (v * (W1 + 1) * (T + c * T)))%Q) by ring.
    rewrite E. lra.
Qed.

Lemma element_at_most_sum (ws : list Z) (w : Z) :
  Forall (fun c => 0 <= c) ws -> In w ws -> w <= sumZ ws.
Proof.
  induction 1 as [|c ws Hc Hws IH]; intros Hin; [destruct Hin|].
  rewrite sumZ_cons. pose proof (sumZ_nonneg_list ws Hws).
  destruct Hin as [->|Hin]; [lia|]. specialize (IH Hin). lia.
Qed.

(** The rounded shares of the exponential generator, for weights of which
    the first is one more than the sum of the others, as with descending
    powers of two: integers, none negative, the others summing to no more
    than the total. *)
Lemma exponential_shares (w0 : Z) (ws : list Z) (total : Z) :
  Forall (fun w => 1 <= w) ws -> w0 = sumZ ws + 1 ->
  (List.length ws < 1024)%nat -> 0 <= total <= 2 ^ 40 ->
  let sum := fold_left Number.add (map Number.ofZ (w0 :: ws)) (Number.ofZ 0) in
  exists z0 zs,
    map (fun weight =>
           Number.round (Number.mul (Number.div weight sum) (Number.ofZ total)))
        (map Number.ofZ (w0 :: ws))
    = map Number.ofZ (z0 :: zs) /\
    0 <= z0 <= 2 * total + 1 /\
    Forall (fun z => 0 <= z) zs /\
    List.length zs = List.length ws /\
    sumZ zs <= total.
Proof.
  intros Hws Hw0 Hlen HT sum.
  assert (Hnn : Forall (fun c => 0 <= c) ws).
  { eapply Forall_impl; [exact Hws|]. intros c Hc. cbn beta in Hc. lia. }
  pose proof (sumZ_nonneg_list ws Hnn) as Hsum0.
  assert (Hall : Forall (fun w => 1 <= w) (w0 :: ws)) by (constructor; [lia | exact Hws]).
  destruct (sum_of_weights (w0 :: ws) 0 ltac:(lra) Hall ltac:(cbn [List.length]; lia))
    as [Einf | (s & Es & Hs)];
    change (Number.Finite 0) with (Number.ofZ 0) in *; fold sum in Einf || fold sum in Es.
  - (* the sum has overflowed: every share is 0 *)
    rewrite Einf. exists 0, (map (fun _ => 0) ws).
    split; [|split; [lia|split; [|split]]].
    + rewrite List.map_map. cbn [map]. unfold Number.ofZ at 1.
      rewrite share_of_infinity. f_equal. rewrite List.map_map.
      apply List.map_ext. intros w. apply share_of_infinity.
    + apply List.Forall_forall. intros z Hz. apply List.in_map_iff in Hz.
      destruct Hz as (? & <- & _). lia.
    + apply List.length_map.
    + assert (E : sumZ (map (fun _ : Z => 0) ws) = 0).
      { clear. induction ws as [|w ws IH]; [reflexivity|].
        cbn [map]. rewrite sumZ_cons, IH. reflexivity. }
      rewrite E. lia.
  - (* the sum is finite *)
    rewrite Es. rewrite sumZ_cons, Hw0 in Hs. cbn [List.length] in Hs.
    set (W1 := inject_Z (sumZ ws)) in *.
    set (T := inject_Z total) in *.
    assert (HW1 : (0 <= W1)%Q)
      by (unfold W1; change 0%Q with (inject_Z 0); now rewrite <- Zle_Qle).
    assert (HT0 : (0 <= T)%Q)
      by (unfold T; change 0%Q with (inject_Z 0); rewrite <- Zle_Qle; lia).
    assert (HT1 : (T <= inject_Z (2 ^ 40))%Q) by (unfold T; rewrite <- Zle_Qle; lia).
    assert (Hs' : ((2 * W1 + 1) * (1 - 1024 * Double.epsilon) <= s)%Q).
    { assert (Hk : (inject_Z (Z.of_nat (S (List.length ws))) <= 1024)%Q).
      { change 1024%Q with (inject_Z 1024). rewrite <- Zle_Qle. lia. }
      assert (He : (0 < Double.epsilon)%Q /\ (1024 * Double.epsilon <= 1)%Q)
        by (split; [reflexivity | discriminate]).
      rewrite !inject_Z_plus in Hs. fold W1 in Hs. change (inject_Z 1) with 1%Q in Hs.
      revert Hs Hk He. generalize (inject_Z (Z.of_nat (S (List.length ws)))) Double.epsilon.
      intros k e Hs Hk [He0 He1].
      assert (Hke : (k * e <= 1024 * e)%Q) by (apply Qmult_le_compat_r; lra).
      assert (H : ((2 * W1 + 1) * (1 - 1024 * e) <= (2 * W1 + 1) * (1 - k * e))%Q)
        by (apply Qmult_le_nonneg_l; lra).
      assert (E : (0 + (W1 + 1 + W1) == 2 * W1 + 1)%Q) by ring.
      rewrite E in Hs. lra. }
    assert (Hj0 : (0 <= inject_Z (Z.of_nat (List.length ws)))%Q)
      by (change 0%Q with (inject_Z 0); rewrite <- Zle_Qle; lia).
    assert (Hj1 : (inject_Z (Z.of_nat (List.length ws)) <= 1024)%Q).
    { change 1024%Q with (inject_Z 1024). rewrite <- Zle_Qle. lia. }
    destruct (share_sum_bound s W1 T _ HW1 HT0 HT1 Hj0 Hj1 Hs') as (Hs0 & Hrest & Hfirst).
    cbv zeta in Hrest, Hfirst.
    set (a := (2 * (inject_Z 1 / s)
               * (T + (2 * Double.epsilon + Double.epsilon * Double.epsilon) * T))%Q) in *.
    set (b := (2 * (Double.tiny * (T + Double.epsilon * T + 1)))%Q) in *.
    assert (F4 : (1 # 2 <= 1 - 1024 * Double.epsilon)%Q) by discriminate.
    (* every share *)
    assert (Hshare : forall w, In w (w0 :: ws) ->
              exists z, Number.round (Number.mul (Number.div (Number.ofZ w) (Number.Finite s))
                                                 (Number.ofZ total)) = Number.ofZ z /\
                        (0 <= z /\ (inject_Z z <= a * inject_Z w + b)%Q)).
    { intros w Hw.
      assert (Hw1 : 1 <= w) by (rewrite List.Forall_forall in Hall; now apply Hall).
      assert (Hwle : w <= sumZ (w0 :: ws)).
      { apply element_at_most_sum; [|exact Hw].
        eapply Forall_impl; [exact Hall|]. intros c Hc. cbn beta in Hc. lia. }
      rewrite sumZ_cons, Hw0 in Hwle.
      assert (Hwq : (1 <= inject_Z w)%Q)
        by (change 1%Q with (inject_Z 1); now rewrite <- Zle_Qle).
      assert (Hwle' : (inject_Z w <= 2 * W1 + 1)%Q).
      { unfold W1. change 2%Q with (inject_Z 2). change 1%Q with (inject_Z 1).
        rewrite <- inject_Z_mult, <- inject_Z_plus, <- Zle_Qle. lia. }
      assert (Hw2s : (inject_Z w <= 2 * s)%Q).
      { assert (((2 * W1 + 1) * (1 # 2) <= (2 * W1 + 1) * (1 - 1024 * Double.epsilon))%Q)
          by (apply Qmult_le_nonneg_l; lra).
        lra. }
      destruct (share_value (inject_Z w) s total ltac:(lra) Hs0 Hw2s HT)
        as (p & Ep & Hp0 & Hp).
      unfold Number.ofZ at 1. rewrite Ep. cbn [Number.round].
      exists (mathRound p). split; [reflexivity|].
      destruct (mathRound_double p Hp0) as [Hz0 Hz]. split; [exact Hz0|].
      fold T in Hp.
      assert (E : (a * inject_Z w + b
                   == 2 * (inject_Z w / s * T
                           + (2 * Double.epsilon + Double.epsilon * Double.epsilon)
                             * (inject_Z w / s * T)
                           + Double.tiny * (T + Double.epsilon * T + 1)))%Q).
      { unfold a, b. change (inject_Z 1) with 1%Q. field. lra. }
      rewrite E. lra. }
    destruct (integers_of_list
                (fun w => Number.round (Number.mul (Number.div (Number.ofZ w) (Number.Finite s))
                                                   (Number.ofZ total)))
                (fun w z => 0 <= z /\ (inject_Z z <= a * inject_Z w + b)%Q)
                (w0 :: ws) Hshare) as (zs & Ezs & Hzs).
    inversion Hzs as [|? z0 ? zs' [Hz0 Hz0le] Hzs' E1 E2]; subst.
    destruct (counts_bounded a b ws zs' Hzs') as (Hlen' & Hnn' & Hsum').
    exists z0, zs'. split; [|split; [|split; [exact Hnn'|split; [exact Hlen'|]]]].
    + rewrite List.map_map. exact Ezs.
    + split; [exact Hz0|].
      assert (H : (inject_Z z0 <= inject_Z (2 * total + 1))%Q).
      { rewrite inject_Z_plus, inject_Z_mult. fold T. fold W1 in Hz0le.
        rewrite inject_Z_plus in Hz0le. fold W1 in Hz0le.
        change (inject_Z 1) with 1%Q in *. change (inject_Z 2) with 2%Q. lra. }
      now rewrite <- Zle_Qle in H.
    + fold W1 in Hsum'.
      assert (H : (inject_Z (sumZ zs') < inject_Z (total + 1))%Q).
      { rewrite inject_Z_plus. fold T. change (inject_Z 1) with 1%Q. lra. }
      rewrite <- Zlt_Qlt in H. lia.
Qed.

Lemma exponential_exact (numTeams : nat) (total : Z) :
  (1 <= numTeams <= 1024)%nat -> 0 <= total <= 2 ^ 40 ->
  exists cs,
    generateExponentialCombinations numTeams total = map Number.ofZ cs /\
    exactDistribution cs numTeams total.
Proof.
  intros [HN1 HN2] HT. unfold generateExponentialCombinations. cbv zeta.
  rewrite (powers_are_integers numTeams HN2).
  destruct numTeams as [|j]; [lia|]. clear HN1.
  set (n := Z.of_nat (S j)).
  change (seq 0 (S j)) with (0%nat :: seq 1 j). cbn [map].
  set (w0 := 2 ^ (n - 1 - Z.of_nat 0)).
  set (ws := map (fun i : nat => 2 ^ (n - 1 - Z.of_nat i)) (seq 1 j)).
  assert (Hws : Forall (fun w => 1 <= w) ws).
  { unfold ws. apply List.Forall_forall. intros x Hx.
    apply List.in_map_iff in Hx. destruct Hx as (i & <- & Hi).
    apply List.in_seq in Hi.
    assert (0 < 2 ^ (n - 1 - Z.of_nat i)) by (apply Z.pow_pos_nonneg; unfold n; lia). lia. }
  assert (Hsum : sumZ ws = 2 ^ (n - 1) - 1).
  { unfold ws. rewrite descending_powers_sum by (unfold n; lia).
    replace (n - 1 - Z.of_nat 1 + 1) with (n - 1) by lia.
    replace (n - 1 - Z.of_nat 1 - Z.of_nat j + 1) with 0 by (unfold n; lia).
    reflexivity. }
  assert (Hw0 : w0 = sumZ ws + 1).
  { rewrite Hsum. unfold w0. replace (n - 1 - Z.of_nat 0) with (n - 1) by lia. lia. }
  assert (Hlen : List.length ws = j).
  { unfold ws. now rewrite List.length_map, List.length_seq. }
  destruct (exponential_shares w0 ws total Hws Hw0 ltac:(lia) HT)
    as (z0 & zs & E & Hz0 & Hzs & Hlen' & Hle).
  cbv zeta in E. cbn [map] in E. rewrite E.
  assert (H40 : 2 * 2 ^ 40 + 1 + 2 ^ 40 < 2 ^ 52) by reflexivity.
  change (Number.ofZ z0 :: map Number.ofZ zs) with (map Number.ofZ (z0 :: zs)).
  rewrite adjustFirst_integers; [|lia|exact Hzs|lia|lia].
  eexists. split; [reflexivity|].
  split; [cbn [List.length]; lia|]. split.
  - constructor; [lia | exact Hzs].
  - rewrite sumZ_cons. lia.
Qed.

(** ** The linear generator *)

(** The share computed in doubles does not round higher than the exact one:
    between the exact share [c * T / S] and the next half-integer there is
    at least [1 / (2 * S)], more than the rounding of the quotient and of the
    product can add. *)
Lemma linear_share (c S T : Z) :
  0 <= c <= S -> 0 < S -> 2 * S <= 1049600 -> 0 <= T <= 2 ^ 30 ->
  exists z,
    Number.round (Number.mul (Number.div (Number.ofZ c) (Number.ofZ S)) (Number.ofZ T))
    = Number.ofZ z /\
    0 <= z <= roundedShare T S c.
Proof.
  intros Hc HS HL HT.
  assert (H30 : 2 ^ 30 <= 2 ^ 40) by discriminate.
  assert (Hcq : (0 <= inject_Z c)%Q)
    by (change 0%Q with (inject_Z 0); rewrite <- Zle_Qle; lia).
  assert (HSq : (0 < inject_Z S)%Q)
    by (change 0%Q with (inject_Z 0); rewrite <- Zlt_Qlt; lia).
  assert (HcS : (inject_Z c <= inject_Z S)%Q) by (rewrite <- Zle_Qle; lia).
  destruct (share_value (inject_Z c) (inject_Z S) T Hcq HSq ltac:(lra) ltac:(lia))
    as (p & Ep & Hp0 & Hp).
  unfold Number.ofZ at 1 2. rewrite Ep. cbn [Number.round].
  exists (mathRound p). split; [reflexivity|].
  destruct (mathRound_double p Hp0) as [Hz0 _]. split; [exact Hz0|].
  unfold roundedShare. set (m := (2 * c * T + S) / (2 * S)).
  assert (Hm : 2 * c * T + S + 1 <= 2 * S * (m + 1)).
  { pose proof (Z.mul_succ_div_gt (2 * c * T + S) (2 * S) ltac:(lia)) as H.
    fold m in H. unfold Z.succ in H. lia. }
  rewrite Zle_Qle in Hm.
  rewrite !inject_Z_plus, !inject_Z_mult, !inject_Z_plus in Hm.
  change (inject_Z 1) with 1%Q in Hm. change (inject_Z 2) with 2%Q in Hm.
  assert (HT0 : (0 <= inject_Z T)%Q)
    by (change 0%Q with (inject_Z 0); rewrite <- Zle_Qle; lia).
  assert (HT1 : (inject_Z T <= inject_Z (2 ^ 30))%Q) by (rewrite <- Zle_Qle; lia).
  assert (HLq : (2 * inject_Z S <= 1049600)%Q).
  { change 2%Q with (inject_Z 2). change 1049600%Q with (inject_Z 1049600).
    rewrite <- inject_Z_mult, <- Zle_Qle. exact HL. }
  assert (F : (1049600 * ((2 * Double.epsilon + Double.epsilon * Double.epsilon)
                          * inject_Z (2 ^ 30)
                          + Double.tiny * (inject_Z (2 ^ 30)
                                           + Double.epsilon * inject_Z (2 ^ 30) + 1))
               < 1)%Q) by reflexivity.
  assert (F0 : (0 < Double.epsilon)%Q /\ (0 < Double.tiny)%Q) by (split; reflexivity).
  assert (Hlt : (p + (1 # 2) < inject_Z (m + 1))%Q).
  { rewrite inject_Z_plus. change (inject_Z 1) with 1%Q.
    assert (Ex : (inject_Z c / inject_Z S * inject_Z T * (2 * inject_Z S)
                  == 2 * inject_Z c * inject_Z T)%Q) by (field; lra).
    assert (Hx0 : (0 <= inject_Z c / inject_Z S * inject_Z T)%Q).
    { apply Qmult_le_0_compat; [|exact HT0]. apply Qle_shift_div_l; [exact HSq | lra]. }
    assert (Hx1 : (inject_Z c / inject_Z S * inject_Z T <= inject_Z T)%Q).
    { assert (H : (inject_Z c / inject_Z S <= 1)%Q)
        by (apply Qle_shift_div_r; [exact HSq | lra]).
      assert (H' : (inject_Z T * (inject_Z c / inject_Z S) <= inject_Z T * 1)%Q)
        by (apply Qmult_le_nonneg_l; [exact HT0 | exact H]).
      rewrite (Qmult_comm (inject_Z c / inject_Z S)). lra. }
    revert Hp Ex Hx0 Hx1. generalize (inject_Z c / inject_Z S * inject_Z T)%Q.
    revert Hm HT0 HT1 HLq HSq F F0.
    generalize (inject_Z m) (inject_Z c) (inject_Z S) (inject_Z T) (inject_Z (2 ^ 30))
               Double.epsilon Double.tiny.
    intros qm qc qS qT B e t Hm HT0 HT1 HLq HSq F [He Ht] x Hp Ex Hx0 Hx1.
    set (d := ((2 * e + e * e) * x + t * (qT + e * qT + 1))%Q).
    set (dB := ((2 * e + e * e) * B + t * (B + e * B + 1))%Q) in *.
    assert (Hc0 : (0 <= 2 * e + e * e)%Q) by nra.
    assert (Hd0 : (0 <= d)%Q).
    { unfold d. assert (0 <= (2 * e + e * e) * x)%Q by (apply Qmult_le_0_compat; lra).
      assert (0 <= e * qT)%Q by (apply Qmult_le_0_compat; lra).
      assert (0 <= t * (qT + e * qT + 1))%Q by (apply Qmult_le_0_compat; lra). lra. }
    assert (Hd : (d <= dB)%Q).
    { unfold d, dB.
      assert ((2 * e + e * e) * x <= (2 * e + e * e) * B)%Q
        by (apply Qmult_le_nonneg_l; lra).
      assert (e * qT <= e * B)%Q by (apply Qmult_le_nonneg_l; lra).
      assert (t * (qT + e * qT + 1) <= t * (B + e * B + 1))%Q
        by (apply Qmult_le_nonneg_l; lra).
      lra. }
    assert (HSd : (2 * qS * d < 1)%Q).
    { assert (H1 : (2 * qS * d <= 1049600 * d)%Q)
        by (apply Qmult_le_compat_r; [exact HLq | exact Hd0]).
      assert (H2 : (1049600 * d <= 1049600 * dB)%Q)
        by (apply Qmult_le_nonneg_l; [lra | exact Hd]).
      lra. }
    assert (Hp' : (p <= x + d)%Q) by (unfold d; lra).
    assert (H3 : (2 * qS * p <= 2 * qS * (x + d))%Q)
      by (apply Qmult_le_nonneg_l; [lra | exact Hp']).
    assert (E3 : (2 * qS * (x + d) == x * (2 * qS) + 2 * qS * d)%Q) by ring.
    assert (H4 : (2 * qS * (p + (1 # 2)) < 2 * qS * (qm + 1))%Q).
    { assert (E4 : (2 * qS * (p + (1 # 2)) == 2 * qS * p + qS)%Q) by ring.
      rewrite E4. lra. }
    apply Qmult_lt_l in H4; [exact H4 | lra]. }
  unfold mathRound.
  assert (H : (inject_Z (Qfloor (p + (1 # 2))) < inject_Z (m + 1))%Q)
    by (eapply Qle_lt_trans; [apply Qfloor_le | exact Hlt]).
  rewrite <- Zlt_Qlt in H. lia.
Qed.

Lemma sumZ_pointwise (f g : nat -> Z) (l : list nat) :
  (forall i, In i l -> f i <= g i) -> sumZ (map f l) <= sumZ (map g l).
Proof.
  induction l as [|i l IH]; intros H; [reflexivity|].
  cbn [map]. rewrite !sumZ_cons.
  pose proof (H i ltac:(now left)). specialize (IH ltac:(intros k Hk; apply H; now right)).
  lia.
Qed.

Lemma linear_exact (numTeams : nat) (total : Z) :
  (1 <= numTeams <= 1024)%nat -> 0 <= total <= 2 ^ 30 ->
  exists cs,
    generateLinearCombinations numTeams total = map Number.ofZ cs /\
    exactDistribution cs numTeams total.
Proof.
  intros [HN1 HN2] HT. unfold generateLinearCombinations. cbv zeta.
  set (n := Z.of_nat numTeams).
  set (sum := n * (n + 1) / 2).
  assert (Hsum2 : 2 * sum = n * (n + 1)) by apply triangular_exact.
  assert (Hsum : 0 < sum) by (unfold n in *; nia).
  assert (HL : 2 * sum <= 1049600) by (unfold n in *; nia).
  assert (Hshare : forall i, In i (seq 0 numTeams) ->
            exists z, Number.round
                        (Number.mul (Number.div (Number.ofZ (n - Z.of_nat i)) (Number.ofZ sum))
                                    (Number.ofZ total)) = Number.ofZ z /\
                      0 <= z <= roundedShare total sum (n - Z.of_nat i)).
  { intros i Hi. apply List.in_seq in Hi.
    apply linear_share; [unfold n in *; nia | exact Hsum | exact HL | exact HT]. }
  destruct (integers_of_list _ _ _ Hshare) as (zs & Ezs & Hzs).
  rewrite Ezs. clear Ezs Hshare.
  destruct numTeams as [|j]; [lia|]. clear HN1.
  change (seq 0 (S j)) with (0%nat :: seq 1 j) in Hzs.
  inversion Hzs as [|? z0 ? zs' Hz0 Hzs' E1 E2]; subst. clear Hzs.
  assert (Hrest : Forall (fun z => 0 <= z) zs' /\
                  sumZ zs' <= sumZ (map (fun i : nat => roundedShare total sum (n - Z.of_nat i))
                                        (seq 1 j))).
  { clear - Hzs'. revert Hzs'. generalize (seq 1 j) as l. intros l H.
    induction H as [|i z l zs [Hz Hle] _ (IH2 & IH3)].
    - split; [constructor | reflexivity].
    - split; [now constructor|]. cbn [map]. rewrite !sumZ_cons. lia. }
  destruct Hrest as (Hnn & Hle).
  assert (Hlen' : List.length zs' = j).
  { apply List.Forall2_length in Hzs'. now rewrite List.length_seq in Hzs'. }
  assert (Hwithin : sumZ (map (fun i : nat => roundedShare total sum (n - Z.of_nat i))
                              (seq 1 j)) <= total).
  { unfold n.
    rewrite (sum_reversed (fun k => roundedShare total sum k) j).
    apply rounded_shares_within_total; [lia | exact Hsum |].
    rewrite Hsum2. unfold n. lia. }
  assert (Hz0' : z0 <= total + 1).
  { destruct Hz0 as [_ H]. unfold roundedShare in H.
    replace (n - Z.of_nat 0) with n in H by lia.
    assert (Hn : n <= sum) by (unfold n in *; nia).
    assert ((2 * n * total + sum) / (2 * sum) <= (2 * sum * total + sum) / (2 * sum))
      by (apply Z.div_le_mono; nia).
    assert ((2 * sum * total + sum) / (2 * sum) <= total + 1).
    { apply Z.div_le_upper_bound; nia. }
    lia. }
  assert (H30 : 2 ^ 30 + 1 + 2 ^ 30 < 2 ^ 52) by reflexivity.
  rewrite adjustFirst_integers; [|lia|exact Hnn|lia|lia].
  eexists. split; [reflexivity|].
  split; [cbn [List.length]; lia|]. split.
  - constructor; [lia | exact Hnn].
  - rewrite sumZ_cons. lia.
Qed.



(** ** Every combination set can be drawn from *)

Lemma accepted_of_exact (cs : list Z) (numTeams : nat) (total : Z) :
  (1 <= numTeams)%nat -> 0 < total ->
  exactDistribution cs numTeams total ->
  List.length cs = numTeams /\ Forall (fun c => 0 <= c) cs /\
  isValid (validateCombinations cs) = true.
Proof.
  intros HN HT (Hlen & Hnn & Hsum). split; [exact Hlen|]. split; [exact Hnn|].
  apply validateCombinations_valid_iff. split; [|split; [exact Hnn | lia]].
  intros ->. simpl in Hlen. lia.
Qed.

Lemma accepted_of_table (table : list Z) (numTeams : nat) :
  table <> [] -> Forall (fun c => 1 <= c) table -> nonIncreasing table ->
  (1 <= numTeams)%nat ->
  List.length (sliceOrExtend table numTeams) = numTeams /\
  Forall (fun c => 0 <= c) (sliceOrExtend table numTeams) /\
  isValid (validateCombinations (sliceOrExtend table numTeams)) = true.
Proof.
  intros Hne Hpos Hsorted HN.
  pose proof (sliceOrExtend_length table numTeams) as Hlen.
  destruct (sliceOrExtend_shape table Hne Hpos Hsorted numTeams) as [Hpos' _].
  assert (Hnn : Forall (fun c => 0 <= c) (sliceOrExtend table numTeams)).
  { eapply Forall_impl; [exact Hpos'|]. intros c Hc. cbn beta in Hc. lia. }
  split; [exact Hlen|]. split; [exact Hnn|].
  apply validateCombinations_valid_iff.
  destruct (sliceOrExtend table numTeams) as [|c cs]; [simpl in Hlen; lia|].
  split; [discriminate|]. split; [exact Hnn|].
  inversion Hpos' as [|? ? Hc Hcs]; subst. inversion Hnn; subst.
  rewrite sumZ_cons. pose proof (sumZ_nonneg_list cs ltac:(assumption)). lia.
Qed.

Lemma combination_sets_lookup (setKey : string) (set : LOTTERY.CombinationSet) :
  LOTTERY.COMBINATION_SETS !! setKey = Some set ->
  (exists table, LOTTERY.combinations set = Some table /\
                 table <> [] /\ Forall (fun c => 1 <= c) table /\ nonIncreasing table) \/
  (LOTTERY.combinations set = None /\ LOTTERY.total set = 1000 /\
   In setKey ["EQUAL"; "LINEAR"; "EXPONENTIAL"; "CUSTOM"]%string).
Proof.
  intros H. unfold LOTTERY.COMBINATION_SETS in H.
  apply elem_of_list_to_map_2 in H.
  repeat (apply elem_of_cons in H; destruct H as [H|H];
          [injection H as -> ->|]); try (now apply elem_of_nil in H).
  1-3: left; eexists; split; [reflexivity|]; split; [discriminate|]; split;
       [repeat constructor; lia
       |unfold nonIncreasing;
        repeat (constructor; [|repeat constructor; lia]); constructor].
  all: right; split; [reflexivity|]; split; [reflexivity|]; simpl; tauto.
Qed.

(** X9: for every key, known or not, and every number of teams N >= 1, up to
    1024 under the keys LINEAR and EXPONENTIAL, getCombinationSet returns N
    integers, none negative, that validateCombinations accepts; under the
    keys EQUAL, LINEAR and EXPONENTIAL the counts sum to 1000, and under a
    key that is not in COMBINATION_SETS, as under CUSTOM, they are the default
    combinations. *)
Theorem every_combination_set_is_accepted (setKey : string) (numTeams : nat) :
  (1 <= numTeams)%nat ->
  (In setKey ["LINEAR"; "EXPONENTIAL"]%string -> (numTeams <= 1024)%nat) ->
  exists cs : list Z,
    getCombinationSet setKey numTeams = map Number.ofZ cs /\
    List.length cs = numTeams /\
    Forall (fun c => 0 <= c) cs /\
    isValid (validateCombinations cs) = true /\
    (In setKey ["EQUAL"; "LINEAR"; "EXPONENTIAL"]%string -> sumZ cs = 1000) /\
    (LOTTERY.COMBINATION_SETS !! setKey = None \/ setKey = "CUSTOM"%string ->
     cs = getDefaultCombinations numTeams).
Proof.
  intros HN Hrange.
  destruct default_table_facts as (Dne & Dpos & Dsorted).
  pose proof (accepted_of_table _ numTeams Dne Dpos Dsorted HN) as Hdefault.
  fold (getDefaultCombinations numTeams) in Hdefault.
  assert (H1000 : 0 <= 1000 <= 2 ^ 30) by (split; discriminate).
  assert (H1000' : 0 <= 1000 <= 2 ^ 40) by (split; discriminate).
  unfold getCombinationSet.
  destruct (LOTTERY.COMBINATION_SETS !! setKey) as [set|] eqn:Hset.
  - destruct (combination_sets_lookup setKey set Hset)
      as [(table & Htable & Tne & Tpos & Tsorted) | (Hnone & Htotal & Hkey)].
    + rewrite Htable.
      destruct (accepted_of_table table numTeams Tne Tpos Tsorted HN) as (H1 & H2 & H3).
      eexists. split; [reflexivity|].
      split; [exact H1|]. split; [exact H2|]. split; [exact H3|]. split.
      * intros Hk. exfalso. simpl in Hk.
        destruct Hk as [<-|[<-|[<-|[]]]]; vm_compute in Hset;
          injection Hset as <-; discriminate Htable.
      * intros [Hk|Hk]; [congruence|]. subst setKey. exfalso.
        vm_compute in Hset. injection Hset as <-. discriminate Htable.
    + rewrite Hnone, Htotal. simpl in Hkey.
      destruct Hkey as [<-|[<-|[<-|[<-|[]]]]]; cbn [String.eqb Ascii.eqb Bool.eqb].
      * pose proof (equal_exact numTeams 1000 HN ltac:(lia)) as Heq.
        destruct (accepted_of_exact _ numTeams 1000 HN ltac:(lia) Heq) as (H1 & H2 & H3).
        eexists. split; [reflexivity|].
        repeat split; try assumption; [intros _; apply Heq|].
        intros [Hk|Hk]; [congruence | discriminate].
      * destruct (linear_exact numTeams 1000) as (cs & -> & Hlin);
          [split; [exact HN | apply Hrange; simpl; tauto] | exact H1000|].
        destruct (accepted_of_exact _ numTeams 1000 HN ltac:(lia) Hlin) as (H1 & H2 & H3).
        exists cs. split; [reflexivity|].
        repeat split; try assumption; [intros _; apply Hlin|].
        intros [Hk|Hk]; [congruence | discriminate].
      * destruct (exponential_exact numTeams 1000) as (cs & -> & Hexp);
          [split; [exact HN | apply Hrange; simpl; tauto] | exact H1000'|].
        destruct (accepted_of_exact _ numTeams 1000 HN ltac:(lia) Hexp) as (H1 & H2 & H3).
        exists cs. split; [reflexivity|].
        repeat split; try assumption; [intros _; apply Hexp|].
        intros [Hk|Hk]; [congruence | discriminate].
      * destruct Hdefault as (H1 & H2 & H3).
        eexists. split; [reflexivity|].
        repeat split; try assumption.
        intros Hk. exfalso. simpl in Hk.
        destruct Hk as [Hk|[Hk|[Hk|[]]]]; discriminate.
  - destruct Hdefault as (H1 & H2 & H3).
    eexists. split; [reflexivity|].
    repeat split; try assumption.
    intros Hk. exfalso. simpl in Hk.
    destruct Hk as [<-|[<-|[<-|[]]]]; vm_compute in Hset; discriminate.
Qed.

Lemma every_combination_set_is_accepted_witness :
  exists cs : list Z,
    getCombinationSet "EXPONENTIAL" 10 = map Number.ofZ cs /\
    List.length cs = 10%nat /\
    isValid (validateCombinations cs) = true /\
    sumZ cs = 1000.
Proof.
  destruct (every_combination_set_is_accepted "EXPONENTIAL" 10)
    as (cs & E & Hlen & _ & Hvalid & Hsum & _); [lia | intros _; lia|].
  exists cs. split; [exact E|]. split; [exact Hlen|]. split; [exact Hvalid|].
  apply Hsum. simpl. tauto.
Defined.


(** ** Percentages *)

Lemma sumQ_scaled (total : Z) (cs : list Z) :
  (sumQ (map (fun count => inject_Z (or0 count) / inject_Z total * 100) cs)
   == inject_Z (sumZ cs) / inject_Z total * 100)%Q.
Proof.
  induction cs as [|c cs IH].
  - simpl. unfold Qdiv. ring.
  - cbn [map sumQ fold_right]. fold (sumQ (map (fun count =>
        (inject_Z (or0 count) / inject_Z total * 100)%Q) cs)).
    rewrite IH, sumZ_cons, or0_id, inject_Z_plus. unfold Qdiv. ring.
Qed.

(** X10: calculatePercentages returns one percentage for each count; all are
    0 when the counts sum to 0; otherwise, for counts that are not negative,
    each percentage lies between 0 and 100 and together they make 100 (in
    exact arithmetic). *)
Theorem percentages_make_a_hundred (cs : list Z) :
  List.length (calculatePercentages cs) = List.length cs /\
  (sumZ cs = 0 -> Forall (fun p => p == 0)%Q (calculatePercentages cs)) /\
  (Forall (fun c => 0 <= c) cs -> 0 < sumZ cs ->
   (sumQ (calculatePercentages cs) == 100)%Q /\
   Forall (fun p => 0 <= p /\ p <= 100)%Q (calculatePercentages cs)).
Proof.
  unfold calculatePercentages. rewrite calculateTotalCombinations_sum.
  split; [destruct (sumZ cs =? 0); apply List.length_map|]. split.
  - intros ->. simpl. apply List.Forall_forall. intros p Hp.
    apply List.in_map_iff in Hp. destruct Hp as (c & <- & _). reflexivity.
  - intros Hnn Hpos.
    destruct (Z.eqb_spec (sumZ cs) 0) as [E|_]; [lia|].
    pose proof (inject_Z_pos _ Hpos) as HposQ.
    assert (Hne : ~ (inject_Z (sumZ cs) == 0)%Q).
    { intros E. rewrite E in HposQ. discriminate. }
    split.
    + rewrite sumQ_scaled. field. exact Hne.
    + apply List.Forall_forall. intros p Hp.
      apply List.in_map_iff in Hp. destruct Hp as (c & <- & Hc).
      rewrite or0_id.
      assert (H0 : 0 <= c) by (rewrite List.Forall_forall in Hnn; now apply Hnn).
      assert (Hle : c <= sumZ cs).
      { clear - Hc Hnn. induction Hnn as [|x l Hx Hl IH]; [destruct Hc|].
        rewrite sumZ_cons. pose proof (sumZ_nonneg_list l Hl).
        destruct Hc as [->|Hc]; [lia|]. specialize (IH Hc). lia. }
      assert (Hfrac0 : (0 <= inject_Z c / inject_Z (sumZ cs))%Q).
      { apply Qle_shift_div_l; [exact HposQ|].
        assert (E0 : (0 * inject_Z (sumZ cs) == inject_Z 0)%Q) by ring.
        rewrite E0. rewrite <- Zle_Qle. exact H0. }
      assert (Hfrac1 : (inject_Z c / inject_Z (sumZ cs) <= 1)%Q).
      { apply Qle_shift_div_r; [exact HposQ|].
        assert (E1 : (1 * inject_Z (sumZ cs) == inject_Z (sumZ cs))%Q) by ring.
        rewrite E1. rewrite <- Zle_Qle. exact Hle. }
      split.
      * apply Qmult_le_0_compat; [exact Hfrac0 | discriminate].
      * assert (E100 : (100 == 1 * 100)%Q) by ring.
        rewrite E100 at 2. apply Qmult_le_compat_r; [exact Hfrac1 | discriminate].
Qed.

Lemma percentages_make_a_hundred_witness :
  (sumQ (calculatePercentages [140; 125; 5; 0; 30]%Z) == 100)%Q.
Proof.
  apply (percentages_make_a_hundred [140; 125; 5; 0; 30]).
  - repeat constructor; lia.
  - reflexivity.
Defined.

(** ** The shape of the equal distribution *)






(** ** Sorting the teams by record *)

Section StableSort.

Context {A : Type}.
Variable compare : A -> A -> Q.

Local Abbreviation before := (fun a b : A => (compare a b <= 0)%Q).

Hypothesis compare_total : forall a b, ~ before a b -> before b a.
Hypothesis compare_trans : forall a b c, before a b -> before b c -> before a c.

Lemma insertSorted_perm (x : A) (l : list A) :
  Permutation (TeamUtils.insertSorted compare x l) (x :: l).
Proof.
  induction l as [|y l IH]; simpl; [reflexivity|].
  destruct (Qle_bool (compare x y) 0); [reflexivity|].
  rewrite IH. apply perm_swap.
Qed.

Lemma arraySort_perm (l : list A) : Permutation (TeamUtils.arraySort compare l) l.
Proof.
  induction l as [|x l IH]; simpl; [reflexivity|].
  rewrite insertSorted_perm. now constructor.
Qed.

Lemma insertSorted_sorted (x : A) (l : list A) :
  StronglySorted before l ->
  StronglySorted before (TeamUtils.insertSorted compare x l).
Proof.
  induction 1 as [|y l Hl IH Hy]; simpl.
  - constructor; constructor.
  - destruct (Qle_bool (compare x y) 0) eqn:Hle.
    + apply Qle_bool_iff in Hle. constructor; [now constructor|].
      constructor; [exact Hle|].
      eapply Forall_impl; [exact Hy|]. intros z Hz. cbn beta in Hz |- *.
      eapply compare_trans; eassumption.
    + assert (Hyx : before y x).
      { apply compare_total. intros H. apply Qle_bool_iff in H. congruence. }
      constructor; [exact IH|].
      eapply Permutation_Forall; [symmetry; apply insertSorted_perm|].
      constructor; assumption.
Qed.

Lemma arraySort_sorted (l : list A) :
  StronglySorted before (TeamUtils.arraySort compare l).
Proof.
  induction l as [|x l IH]; simpl; [constructor|].
  now apply insertSorted_sorted.
Qed.

End StableSort.

Lemma orZero_eq (x : Q) : (TeamUtils.orZero x == x)%Q.
Proof.
  unfold TeamUtils.orZero. destruct (Qeq_bool x 0) eqn:E; [|reflexivity].
  apply Qeq_bool_iff in E. now rewrite E.
Qed.

Lemma compareWorstFirst_le (a b : TeamUtils.LeagueTeam) :
  (TeamUtils.compareWorstFirst a b <= 0)%Q <-> worseOrEqual a b.
Proof.
  unfold TeamUtils.compareWorstFirst, worseOrEqual.
  set (wa := TeamUtils.calculateWinPercentage a).
  set (wb := TeamUtils.calculateWinPercentage b).
  set (pa := TeamUtils.orZero (TeamUtils.pointsFor a)).
  set (pb := TeamUtils.orZero (TeamUtils.pointsFor b)).
  destruct (Qeq_bool wa wb) eqn:E; cbn [negb].
  - apply Qeq_bool_iff in E. split.
    + intros H. right. split; [exact E | lra].
    + intros [H|[_ H]]; lra.
  - assert (Hne : ~ (wa == wb)%Q).
    { intros H. apply Qeq_bool_iff in H. congruence. }
    split.
    + intros H. left. destruct (Qlt_le_dec wa wb) as [Hl|Hl]; [exact Hl|].
      exfalso. apply Hne. lra.
    + intros [H|[H _]]; [lra | contradiction].
Qed.

Lemma compareBestFirst_le (a b : TeamUtils.LeagueTeam) :
  (TeamUtils.compareBestFirst a b <= 0)%Q <-> worseOrEqual b a.
Proof.
  unfold TeamUtils.compareBestFirst, worseOrEqual.
  set (wa := TeamUtils.calculateWinPercentage a).
  set (wb := TeamUtils.calculateWinPercentage b).
  set (pa := TeamUtils.orZero (TeamUtils.pointsFor a)).
  set (pb := TeamUtils.orZero (TeamUtils.pointsFor b)).
  destruct (Qeq_bool wa wb) eqn:E; cbn [negb].
  - apply Qeq_bool_iff in E. split.
    + intros H. right. split; [lra | lra].
    + intros [H|[_ H]]; lra.
  - assert (Hne : ~ (wa == wb)%Q).
    { intros H. apply Qeq_bool_iff in H. congruence. }
    split.
    + intros H. left. destruct (Qlt_le_dec wb wa) as [Hl|Hl]; [exact Hl|].
      exfalso. apply Hne. lra.
    + intros [H|[H _]]; [lra | exfalso; apply Hne; lra].
Qed.

Lemma worseOrEqual_total a b : ~ worseOrEqual a b -> worseOrEqual b a.
Proof.
  unfold worseOrEqual.
  set (wa := TeamUtils.calculateWinPercentage a).
  set (wb := TeamUtils.calculateWinPercentage b).
  set (pa := TeamUtils.orZero (TeamUtils.pointsFor a)).
  set (pb := TeamUtils.orZero (TeamUtils.pointsFor b)).
  intros H.
  destruct (Qlt_le_dec wb wa) as [Hl|Hl]; [now left|].
  destruct (Qlt_le_dec wa wb) as [Hl'|Hl']; [exfalso; apply H; now left|].
  right. split; [lra|].
  destruct (Qlt_le_dec pa pb) as [Hp|Hp]; [|exact Hp].
  exfalso. apply H. right. split; lra.
Qed.

Lemma worseOrEqual_trans a b c :
  worseOrEqual a b -> worseOrEqual b c -> worseOrEqual a c.
Proof.
  unfold worseOrEqual.
  intros [H1|[H1 H1']] [H2|[H2 H2']].
  - left. lra.
  - left. lra.
  - left. lra.
  - right. split; lra.
Qed.

Lemma StronglySorted_impl {A} (R R' : A -> A -> Prop) (l : list A) :
  (forall a b, R a b -> R' a b) -> StronglySorted R l -> StronglySorted R' l.
Proof.
  intros HR. induction 1 as [|x l Hl IH Hx]; constructor; [exact IH|].
  eapply Forall_impl; [exact Hx|]. intros b Hb. now apply HR.
Qed.

Lemma sortTeamsByRecord_facts (teams : list TeamUtils.LeagueTeam) :
  Permutation (TeamUtils.sortTeamsByRecord teams) teams /\
  StronglySorted worseOrEqual (TeamUtils.sortTeamsByRecord teams).
Proof.
  unfold TeamUtils.sortTeamsByRecord. split; [apply arraySort_perm|].
  eapply StronglySorted_impl; [intros a b; apply compareWorstFirst_le|].
  apply arraySort_sorted.
  - intros a b H. apply compareWorstFirst_le. apply worseOrEqual_total.
    intros H'. apply H. now apply compareWorstFirst_le.
  - intros a b c H1 H2. apply compareWorstFirst_le.
    apply compareWorstFirst_le in H1. apply compareWorstFirst_le in H2.
    eapply worseOrEqual_trans; eassumption.
Qed.

Lemma sortTeamsByRecordBestFirst_facts (teams : list TeamUtils.LeagueTeam) :
  Permutation (TeamUtils.sortTeamsByRecordBestFirst teams) teams /\
  StronglySorted (fun a b => worseOrEqual b a)
                 (TeamUtils.sortTeamsByRecordBestFirst teams).
Proof.
  unfold TeamUtils.sortTeamsByRecordBestFirst. split; [apply arraySort_perm|].
  eapply StronglySorted_impl; [intros a b; apply compareBestFirst_le|].
  apply arraySort_sorted.
  - intros a b H. apply compareBestFirst_le. apply worseOrEqual_total.
    intros H'. apply H. now apply compareBestFirst_le.
  - intros a b c H1 H2. apply compareBestFirst_le.
    apply compareBestFirst_le in H1. apply compareBestFirst_le in H2.
    eapply worseOrEqual_trans; eassumption.
Qed.

(** X12: sortTeamsByRecord and sortTeamsByRecordBestFirst return the teams
    they were given, each as often as it was given, the first from the worst
    record to the best and the second from the best to the worst: a lower win
    percentage is a worse record, and between equal win percentages fewer
    points.  A team without games has the win percentage 0. *)
Theorem teams_sorted_by_record (teams : list TeamUtils.LeagueTeam) :
  (Permutation (TeamUtils.sortTeamsByRecord teams) teams /\
   StronglySorted worseOrEqual (TeamUtils.sortTeamsByRecord teams)) /\
  (Permutation (TeamUtils.sortTeamsByRecordBestFirst teams) teams /\
   StronglySorted (fun a b => worseOrEqual b a)
                  (TeamUtils.sortTeamsByRecordBestFirst teams)) /\
  (forall t, TeamUtils.wins t + TeamUtils.losses t + TeamUtils.ties t <= 0 ->
             TeamUtils.calculateWinPercentage t = 0%Q).
Proof.
  split; [apply sortTeamsByRecord_facts|].
  split; [apply sortTeamsByRecordBestFirst_facts|].
  intros t Ht. unfold TeamUtils.calculateWinPercentage.
  destruct (Z.ltb_spec 0 (TeamUtils.wins t + TeamUtils.losses t + TeamUtils.ties t));
    [lia | reflexivity].
Qed.

Lemma teams_sorted_by_record_witness :
  TeamUtils.calculateWinPercentage (TeamUtils.mkLeagueTeam "new" 0 0 0 0) = 0%Q.
Proof.
  apply (teams_sorted_by_record []). simpl. lia.
Defined.

(** ** Playoff teams and lottery teams *)

Lemma StronglySorted_app_inv {A} (R : A -> A -> Prop) (l1 l2 : list A) :
  StronglySorted R (l1 ++ l2) ->
  StronglySorted R l1 /\ StronglySorted R l2 /\
  forall a b, In a l1 -> In b l2 -> R a b.
Proof.
  induction l1 as [|x l1 IH]; simpl; intros H.
  - split; [constructor|]. split; [exact H|]. intros a b [].
  - inversion H as [|? ? Hs Hx]; subst. destruct (IH Hs) as (H1 & H2 & H12).
    apply Forall_app in Hx. destruct Hx as [Hx1 Hx2].
    split; [now constructor|]. split; [exact H2|].
    intros a b [<-|Ha] Hb.
    + rewrite List.Forall_forall in Hx2. now apply Hx2.
    + now apply H12.
Qed.

(** X13: determinePlayoffAndLotteryTeams splits the teams in two without
    losing or repeating any: the playoff teams are min(playoffSpots, N) teams,
    from the best record down, the lottery teams are the others, from the
    worst record up, and no lottery team has a better record than a playoff
    team.  Without teams both are empty. *)
Theorem playoff_and_lottery_partition (teams : list TeamUtils.LeagueTeam)
    (playoffSpots : nat) :
  let result := TeamUtils.determinePlayoffAndLotteryTeams teams playoffSpots in
  Permutation (TeamUtils.playoffTeams result ++ TeamUtils.lotteryTeams result) teams /\
  List.length (TeamUtils.playoffTeams result)
    = Nat.min playoffSpots (List.length teams) /\
  StronglySorted (fun a b => worseOrEqual b a) (TeamUtils.playoffTeams result) /\
  StronglySorted worseOrEqual (TeamUtils.lotteryTeams result) /\
  (forall p l, In p (TeamUtils.playoffTeams result) ->
               In l (TeamUtils.lotteryTeams result) -> worseOrEqual l p) /\
  (teams = [] -> result = TeamUtils.mkPlayoffAndLottery [] []).
Proof.
  cbv zeta. unfold TeamUtils.determinePlayoffAndLotteryTeams.
  destruct teams as [|t0 teams'].
  - simpl. rewrite Nat.min_0_r.
    split; [constructor|]. split; [reflexivity|]. split; [constructor|].
    split; [constructor|]. split; [intros p l []|reflexivity].
  - set (teams := t0 :: teams').
    cbn [TeamUtils.playoffTeams TeamUtils.lotteryTeams].
    destruct (sortTeamsByRecordBestFirst_facts teams) as [Hperm Hsorted].
    set (sorted := TeamUtils.sortTeamsByRecordBestFirst teams) in *.
    destruct (sortTeamsByRecord_facts (skipn playoffSpots sorted)) as [Hperm' Hsorted'].
    rewrite <- (List.firstn_skipn playoffSpots sorted) in Hsorted.
    apply StronglySorted_app_inv in Hsorted. destruct Hsorted as (Hplay & _ & Hcross).
    split; [|split; [|split; [exact Hplay | split; [exact Hsorted' | split]]]].
    + rewrite Hperm', List.firstn_skipn. exact Hperm.
    + rewrite List.length_firstn. apply Permutation_length in Hperm. now rewrite Hperm.
    + intros p l Hp Hl. apply Hcross; [exact Hp|].
      eapply Permutation_in; [exact Hperm' | exact Hl].
    + discriminate.
Qed.

Lemma playoff_and_lottery_partition_witness :
  TeamUtils.determinePlayoffAndLotteryTeams [] 6 = TeamUtils.mkPlayoffAndLottery [] [].
Proof.
  apply (playoff_and_lottery_partition [] 6). reflexivity.
Defined.

(** ** The default combinations of the teams *)

Lemma comboOrOne_default (n i : nat) :
  (i < n)%nat ->
  Some (TeamUtils.comboOrOne (TeamUtils.getDefaultCombinations n) i)
  = nth_error (getDefaultCombinations n) i /\
  1 <= TeamUtils.comboOrOne (TeamUtils.getDefaultCombinations n) i.
Proof.
  intros Hi. change (TeamUtils.getDefaultCombinations n) with (getDefaultCombinations n).
  destruct default_table_facts as (Dne & Dpos & Dsorted).
  pose proof (sliceOrExtend_length LOTTERY.DEFAULT_COMBINATIONS n) as Hlen.
  destruct (sliceOrExtend_shape _ Dne Dpos Dsorted n) as [Hpos _].
  fold (getDefaultCombinations n) in Hlen, Hpos.
  unfold TeamUtils.comboOrOne.
  destruct (nth_error (getDefaultCombinations n) i) as [v|] eqn:E.
  - assert (Hv : 1 <= v).
    { rewrite List.Forall_forall in Hpos. apply Hpos. eapply List.nth_error_In. exact E. }
    destruct (Z.eqb_spec v 0); [lia|]. now split.
  - apply List.nth_error_None in E. lia.
Qed.

Lemma comboOrOne_positive (defaults : list Z) (i : nat) :
  Forall (fun c => 1 <= c) defaults -> 1 <= TeamUtils.comboOrOne defaults i.
Proof.
  intros Hpos. unfold TeamUtils.comboOrOne.
  destruct (nth_error defaults i) as [v|] eqn:E; [|lia].
  destruct (Z.eqb_spec v 0); [lia|].
  rewrite List.Forall_forall in Hpos. apply Hpos. eapply List.nth_error_In. exact E.
Qed.

Lemma setProperty_other {V} (key k : string) (v : V) (m : gmap string V) :
  k <> key -> TeamUtils.setProperty key v m !! k = m !! k.
Proof.
  intros Hk. unfold TeamUtils.setProperty.
  destruct (String.eqb key "__proto__"); [reflexivity|].
  apply lookup_insert_ne. congruence.
Qed.

Lemma setProperty_same {V} (key : string) (v : V) (m : gmap string V) :
  key <> "__proto__"%string -> TeamUtils.setProperty key v m !! key = Some v.
Proof.
  intros Hk. unfold TeamUtils.setProperty.
  destruct (String.eqb_spec key "__proto__"); [contradiction|].
  apply lookup_insert_eq.
Qed.

Lemma setProperty_proto {V} (key : string) (v : V) (m : gmap string V) :
  TeamUtils.setProperty key v m !! "__proto__"%string = m !! "__proto__"%string.
Proof.
  unfold TeamUtils.setProperty.
  destruct (String.eqb_spec key "__proto__") as [E|E]; [reflexivity|].
  apply lookup_insert_ne. exact E.
Qed.

Lemma assignCombinations_other (defaults : list Z) (sorted : list TeamUtils.LeagueTeam) :
  forall index (m : gmap string Z) (k : string),
    ~ In k (map TeamUtils.userId sorted) ->
    TeamUtils.assignCombinations defaults index sorted m !! k = m !! k.
Proof.
  induction sorted as [|t sorted IH]; intros index m k Hk; [reflexivity|].
  cbn [TeamUtils.assignCombinations]. rewrite IH.
  - apply setProperty_other. intros E. apply Hk. left. now symmetry.
  - intros H. apply Hk. right. exact H.
Qed.

Lemma assignCombinations_proto (defaults : list Z) (sorted : list TeamUtils.LeagueTeam) :
  forall index (m : gmap string Z),
    TeamUtils.assignCombinations defaults index sorted m !! "__proto__"%string
    = m !! "__proto__"%string.
Proof.
  induction sorted as [|t sorted IH]; intros index m; [reflexivity|].
  cbn [TeamUtils.assignCombinations]. rewrite IH. apply setProperty_proto.
Qed.

Lemma assignCombinations_nth (defaults : list Z) (sorted : list TeamUtils.LeagueTeam) :
  forall index (m : gmap string Z) (j : nat) (t : TeamUtils.LeagueTeam),
    List.NoDup (map TeamUtils.userId sorted) ->
    nth_error sorted j = Some t ->
    TeamUtils.userId t <> "__proto__"%string ->
    TeamUtils.assignCombinations defaults index sorted m !! TeamUtils.userId t
    = Some (TeamUtils.comboOrOne defaults (index + j)).
Proof.
  induction sorted as [|x sorted IH]; intros index m j t Hnd Hj Hkey;
    [destruct j; discriminate|].
  cbn [map] in Hnd. inversion Hnd as [|? ? Hnotin Hnd']; subst.
  cbn [TeamUtils.assignCombinations]. destruct j as [|j].
  - injection Hj as ->. rewrite assignCombinations_other by exact Hnotin.
    rewrite setProperty_same by exact Hkey. now rewrite Nat.add_0_r.
  - cbn [nth_error] in Hj. rewrite (IH (S index) _ j t Hnd' Hj Hkey).
    do 2 f_equal. lia.
Qed.

Lemma assignCombinations_keys (defaults : list Z) (sorted : list TeamUtils.LeagueTeam) :
  Forall (fun c => 1 <= c) defaults ->
  forall index (m : gmap string Z) (k : string),
    In k (map TeamUtils.userId sorted) ->
    k <> "__proto__"%string ->
    exists v, TeamUtils.assignCombinations defaults index sorted m !! k = Some v /\
              1 <= v.
Proof.
  intros Hpos. induction sorted as [|x sorted IH]; intros index m k Hk Hkey;
    [destruct Hk|].
  cbn [TeamUtils.assignCombinations].
  destruct (List.in_dec string_dec k (map TeamUtils.userId sorted)) as [Hin|Hout].
  - now apply IH.
  - destruct Hk as [<-|Hk]; [|contradiction].
    rewrite assignCombinations_other by exact Hout.
    rewrite setProperty_same by exact Hkey. eexists. split; [reflexivity|].
    now apply comboOrOne_positive.
Qed.

(** X14: initializeDefaultCombinations gives every team whose identifier is
    not '__proto__' a count of at least 1 under its identifier, and the
    object it returns has no property of its own under any other key, nor
    under '__proto__' (an assignment under that key stores nothing); when the
    identifiers are unique, the team at place i of the order from the worst
    record up receives the count at place i of getDefaultCombinations(N), a
    team called '__proto__' taking up its place without receiving it, so the
    worst record receives the most. *)
Theorem default_combinations_follow_the_record (teams : list TeamUtils.LeagueTeam) :
  let combos := TeamUtils.initializeDefaultCombinations teams in
  (forall t, In t teams -> TeamUtils.userId t <> "__proto__"%string ->
             exists v, combos !! TeamUtils.userId t = Some v /\ 1 <= v) /\
  combos !! "__proto__"%string = None /\
  (forall k, ~ In k (map TeamUtils.userId teams) -> combos !! k = None) /\
  (List.NoDup (map TeamUtils.userId teams) ->
   forall i t, nth_error (TeamUtils.sortTeamsByRecord teams) i = Some t ->
               TeamUtils.userId t <> "__proto__"%string ->
               combos !! TeamUtils.userId t
               = nth_error (getDefaultCombinations (List.length teams)) i).
Proof.
  cbv zeta. unfold TeamUtils.initializeDefaultCombinations.
  destruct (sortTeamsByRecord_facts teams) as [Hperm _].
  set (sorted := TeamUtils.sortTeamsByRecord teams) in *.
  assert (Hlen : List.length sorted = List.length teams)
    by (now apply Permutation_length).
  rewrite Hlen.
  destruct default_table_facts as (Dne & Dpos & Dsorted).
  destruct (sliceOrExtend_shape _ Dne Dpos Dsorted (List.length teams)) as [Hpos _].
  change (sliceOrExtend LOTTERY.DEFAULT_COMBINATIONS (List.length teams))
    with (TeamUtils.getDefaultCombinations (List.length teams)) in Hpos.
  split; [|split; [|split]].
  - intros t Ht Hkey. apply (assignCombinations_keys _ sorted Hpos); [|exact Hkey].
    apply in_map. eapply Permutation_in; [symmetry; exact Hperm | exact Ht].
  - rewrite assignCombinations_proto. apply lookup_empty.
  - intros k Hk. rewrite assignCombinations_other; [apply lookup_empty|].
    intros H. apply Hk. apply in_map_iff in H. destruct H as (t & E & Ht).
    apply in_map_iff. exists t. split; [exact E|].
    eapply Permutation_in; [exact Hperm | exact Ht].
  - intros Hnd i t Hi Hkey.
    assert (Hnd' : List.NoDup (map TeamUtils.userId sorted)).
    { eapply Permutation_NoDup; [|exact Hnd].
      apply Permutation_map. symmetry. exact Hperm. }
    rewrite (assignCombinations_nth _ sorted 0 ∅ i t Hnd' Hi Hkey). cbn [Nat.add].
    apply comboOrOne_default. rewrite <- Hlen.
    apply List.nth_error_Some. congruence.
Qed.

Lemma default_combinations_follow_the_record_witness :
  TeamUtils.initializeDefaultCombinations
    [TeamUtils.mkLeagueTeam "b" 9 3 0 (1200 # 1);
     TeamUtils.mkLeagueTeam "__proto__" 2 10 0 (900 # 1);
     TeamUtils.mkLeagueTeam "c" 5 7 0 (1000 # 1)]
    !! TeamUtils.userId (TeamUtils.mkLeagueTeam "c" 5 7 0 (1000 # 1))
  = nth_error (getDefaultCombinations 3) 1.
Proof.
  pose proof (default_combinations_follow_the_record
                [TeamUtils.mkLeagueTeam "b" 9 3 0 (1200 # 1);
                 TeamUtils.mkLeagueTeam "__proto__" 2 10 0 (900 # 1);
                 TeamUtils.mkLeagueTeam "c" 5 7 0 (1000 # 1)]) as H.
  cbv zeta in H. destruct H as (_ & _ & _ & H).
  refine (H _ 1%nat (TeamUtils.mkLeagueTeam "c" 5 7 0 (1000 # 1)) _ _).
  - repeat constructor; simpl; intuition discriminate.
  - vm_compute. reflexivity.
  - discriminate.
Defined.

(** ** The labels of the records of a run *)

Lemma label_from_position (show : Z -> string) (position total pickNumber : Z) :
  position = total - pickNumber + 1 ->
  getPositionLabel show position total (Some pickNumber)
  = getPositionLabel show position total None.
Proof.
  intros ->. unfold getPositionLabel.
  destruct (Z.eqb_spec pickNumber 1) as [->|Hne].
  - replace (total - 1 + 1) with total by lia. now rewrite Z.eqb_refl.
  - destruct (Z.eqb_spec (total - pickNumber + 1) total); [lia|].
    destruct (Z.eqb_spec (total - pickNumber + 1) 1) as [E|E].
    + f_equal. f_equal. lia.
    + cbv zeta. f_equal. f_equal. lia.
Qed.

Lemma color_from_position (position total pickNumber : Z) :
  position = total - pickNumber + 1 ->
  (getPositionColor position total = "success"%string <-> pickNumber = 1) /\
  (getPositionColor position total = "error"%string
   <-> pickNumber = total /\ total <> 1).
Proof.
  intros ->. unfold getPositionColor.
  destruct (Z.eqb_spec (total - pickNumber + 1) total) as [E|E].
  - split; split; try discriminate; try lia. intros _. reflexivity.
  - destruct (Z.eqb_spec (total - pickNumber + 1) 1) as [E1|E1].
    + split; split; try discriminate; try lia. intros _. reflexivity.
    + split; split; try discriminate; lia.
Qed.

(** X15: for every record of a run of runNBALottery that returns, shown with
    the number of teams of the run as total, getPositionLabel gives the same
    label from the pick number as it computes from the position alone, and
    getPositionColor is 'success' exactly for pick number 1 and 'error'
    exactly for the last pick number when there is more than one team. *)
Theorem labels_agree_on_returned_records (show : Z -> string) (random : nat -> Q)
    (teams : list Team) (onSelection : Callback) (delay : option Z) (w : World)
    (sels : list Selection) :
  snd (runNBALottery random teams onSelection delay w) = Ok sels ->
  let total := Z.of_nat (List.length teams) in
  Forall (fun s =>
            getPositionLabel show (position s) total (Some (pickNumber s))
            = getPositionLabel show (position s) total None /\
            (getPositionColor (position s) total = "success"%string
             <-> pickNumber s = 1) /\
            (getPositionColor (position s) total = "error"%string
             <-> pickNumber s = total /\ total <> 1)) sels.
Proof.
  intros Hres total. unfold runNBALottery in Hres.
  destruct teams as [|x teams]; [discriminate|].
  apply loop_returned in Hres; [|lia].
  destruct Hres as (_ & _ & _ & new & -> & _ & _ & Hpos).
  rewrite List.app_nil_r. fold total in Hpos.
  eapply List.Forall_impl; [|exact Hpos].
  intros s Hs. cbn beta in Hs. split.
  - now apply label_from_position.
  - now apply color_from_position.
Qed.

Lemma labels_agree_on_returned_records_witness :
  getPositionLabel (fun _ => "2"%string) 1 2 (Some 2)
  = getPositionLabel (fun _ => "2"%string) 1 2 None.
Proof.
  pose proof (labels_agree_on_returned_records (fun _ => "2"%string) (fun _ => 0%Q)
                [mkTeam "a" "A" 5; mkTeam "c" "C" 3] Observer (Some 0) initialWorld
                [mkSelection (mkTeam "c" "C" 3) 2 1; mkSelection (mkTeam "a" "A" 5) 1 2]
                eq_refl) as H.
  cbv zeta in H. inversion H as [|? ? Hfirst _]; subst.
  exact (proj1 Hfirst).
Defined.

(** ** The win percentage *)

Lemma ratio_bounds (a b : Z) :
  0 <= a -> a <= b -> 0 < b ->
  (0 <= inject_Z a / inject_Z b)%Q /\ (inject_Z a / inject_Z b <= 1)%Q /\
  ((inject_Z a / inject_Z b == 0)%Q <-> a = 0) /\
  ((inject_Z a / inject_Z b == 1)%Q <-> a = b).
Proof.
  intros Ha Hab Hb.
  assert (Hdiv : (inject_Z a / inject_Z b == a # Z.to_pos b)%Q).
  { rewrite Qmake_Qdiv. rewrite Z2Pos.id by lia. reflexivity. }
  split; [|split; [|split]].
  - rewrite Hdiv. unfold Qle. simpl. lia.
  - rewrite Hdiv. unfold Qle. simpl. rewrite Z2Pos.id by lia. lia.
  - rewrite Hdiv. unfold Qeq. simpl. lia.
  - rewrite Hdiv. unfold Qeq. simpl. rewrite Z2Pos.id by lia. lia.
Qed.

(** X16: for a team with non-negative numbers of wins, losses and ties,
    calculateWinPercentage lies between 0 and 1; it is 0 exactly when the team
    has no win (also when it has played no game) and 1 exactly when it has a
    win and neither a loss nor a tie. *)
Theorem win_percentage_range (team : TeamUtils.LeagueTeam) :
  0 <= TeamUtils.wins team -> 0 <= TeamUtils.losses team ->
  0 <= TeamUtils.ties team ->
  (0 <= TeamUtils.calculateWinPercentage team)%Q /\
  (TeamUtils.calculateWinPercentage team <= 1)%Q /\
  ((TeamUtils.calculateWinPercentage team == 0)%Q <-> TeamUtils.wins team = 0) /\
  ((TeamUtils.calculateWinPercentage team == 1)%Q
   <-> 0 < TeamUtils.wins team /\ TeamUtils.losses team = 0 /\ TeamUtils.ties team = 0).
Proof.
  intros Hw Hl Ht. unfold TeamUtils.calculateWinPercentage. cbv zeta.
  destruct (Z.ltb_spec 0 (TeamUtils.wins team + TeamUtils.losses team + TeamUtils.ties team))
    as [Hpos|Hzero].
  - destruct (ratio_bounds (TeamUtils.wins team)
                (TeamUtils.wins team + TeamUtils.losses team + TeamUtils.ties team))
      as (H0 & H1 & Hz & Ho); try lia.
    split; [exact H0|]. split; [exact H1|]. split; [exact Hz|].
    rewrite Ho. lia.
  - split; [apply Qle_refl|]. split; [discriminate|]. split.
    + split; [lia | reflexivity].
    + split; [discriminate | lia].
Qed.

Lemma win_percentage_range_witness :
  (TeamUtils.calculateWinPercentage (TeamUtils.mkLeagueTeam "w" 2 10 0 (900 # 1)) <= 1)%Q.
Proof.
  apply (win_percentage_range (TeamUtils.mkLeagueTeam "w" 2 10 0 (900 # 1))); simpl; lia.
Defined.
